(** * chainer/link.py: Link, Chain, ChainList and Sequential

    A shallow embedding of the composition layer of [chainer/link.py].
    Python objects with identity (links, parameters, arrays) live in an
    explicit heap and are referred to by address, so that aliasing after
    [copy] and renaming of a shared child are visible.  Methods are
    functions in a state-and-exception monad over that heap.

    The bookkeeping slots that [Link.__init__] creates ([_params],
    [_persistent], [_cpu], [_device_id], [_within_init_scope], [name], and
    the [_children], [_layers], [_n_lambda] of the subclasses) are fields
    of the record [LinkObj]; [attrs] holds the other entries of the
    instance [__dict__].  Attribute names given to the methods are meant to
    be names of such other entries; [in_dict] and [hasattr] still see the
    slots. *)

From Stdlib Require Import Ascii.
From stdpp Require Import gmap strings list pretty.

(** ** Exceptions and the interpreter monad *)

Inductive exn :=
| AttributeError (msg : string)
| TypeError (msg : string)
| ValueError (msg : string)
| KeyError (key : string)
| IndexError (msg : string)
| RuntimeError (msg : string)
| RecursionError
| UnboundLocalError (var : string)
| NotImplementedError.

Inductive result (A : Type) :=
| Ok (a : A)
| Raise (e : exn).
Arguments Ok {A} a.
Arguments Raise {A} e.

Abbreviation addr := nat.

(** A function object: identity plus the optional [__name__]
    ([functools.partial] objects and [Function] instances have none). *)
Record func := { fn_id : nat; fn_name : option string }.

#[warnings="-register-all"]
Inductive value :=
| VNone
| VBool (b : bool)
| VInt (z : Z)
| VStr (s : string)
| VTuple (vs : list value)
| VFunc (f : func)
| VRef (a : addr).

(** [numpy.ndarray] when [arr_device = None], [cuda.ndarray] on the given
    device otherwise. *)
Record Array := {
  arr_device : option Z;
  arr_shape : list Z;
  arr_items : list Z
}.

(** Modelled from the spec: the Parameter type of [chainer.variable] is
    not in this module; section 6 of the specification gives its interface: a
    value holder with [value] (here [p_data]), [gradient] ([p_grad]), a
    nullable [update_rule] with an [enabled] flag, and a name that is
    overwritten on registration. *)
Record ParameterObj := {
  p_name : option string;
  p_data : option addr;
  p_grad : option addr;
  p_update_rule : option bool
}.

(** The class of an instance: its [__name__] and the names that
    [hasattr] finds on the class rather than in the instance dictionary
    (methods, properties). *)
Record PyClass := { cls_name : string; cls_attrs : gset string }.

(** What the subclasses add to a plain Link. *)
Inductive kind :=
| KLink
| KChain (_children : gset string)
| KChainList (_children : list addr)
| KSequential (_children : list addr) (_layers : list value) (_n_lambda : Z).

Record LinkObj := {
  cls : PyClass;
  _params : gset string;
  _persistent : gset string;
  _cpu : bool;
  _device_id : option Z;
  _within_init_scope : bool;
  name : option string;
  attrs : gmap string value;
  ext : kind
}.

Inductive obj :=
| OArray (x : Array)
| OParam (p : ParameterObj)
| OLink (l : LinkObj).

Abbreviation heap := (list obj).

Definition M (A : Type) : Type := heap → result A * heap.

Definition ret {A} (a : A) : M A := λ h, (Ok a, h).

Definition bind {A B} (m : M A) (k : A → M B) : M B :=
  λ h, match m h with
       | (Ok a, h') => k a h'
       | (Raise e, h') => (Raise e, h')
       end.

Definition raise {A} (e : exn) : M A := λ h, (Raise e, h).

(** [try: m finally: fin] *)
Definition try_finally {A} (m : M A) (fin : M unit) : M A :=
  λ h, match m h with
       | (r, h') =>
           match fin h' with
           | (Ok _, h'') => (r, h'')
           | (Raise e, h'') => (Raise e, h'')
           end
       end.

Declare Scope py_scope.
Delimit Scope py_scope with py.
Notation "'do' x <- m ; k" := (bind m (λ x, k))
  (at level 10, x name, m at level 100, k at level 200) : py_scope.
Notation "m ;; k" := (bind m (λ _, k))
  (at level 100, k at level 200, right associativity) : py_scope.
Open Scope py_scope.

(** [for x in xs: body x] *)
Fixpoint for_each {A} (xs : list A) (body : A → M unit) : M unit :=
  match xs with
  | [] => ret tt
  | x :: rest => body x;; for_each rest body
  end.

(** ** Heap access *)

Definition get_obj (a : addr) : M obj :=
  λ h, match h !! a with
       | Some o => (Ok o, h)
       | None => (Raise (RuntimeError "dangling reference"), h)
       end.

Definition put_obj (a : addr) (o : obj) : M unit :=
  λ h, (Ok tt, <[a := o]> h).

(** A fresh object gets the next unused address. *)
Definition alloc (o : obj) : M addr :=
  λ h, (Ok (length h), h ++ [o]).

Definition get_link (a : addr) : M LinkObj :=
  do o <- get_obj a;
  match o with
  | OLink l => ret l
  | _ => raise (AttributeError "not a Link")
  end.

Definition get_param (a : addr) : M ParameterObj :=
  do o <- get_obj a;
  match o with
  | OParam p => ret p
  | _ => raise (AttributeError "not a Parameter")
  end.

Definition get_array (a : addr) : M Array :=
  do o <- get_obj a;
  match o with
  | OArray x => ret x
  | _ => raise (AttributeError "not an array")
  end.

(** Field updates of [LinkObj]. *)
Definition set_params (s : gset string) (l : LinkObj) : LinkObj :=
  {| cls := cls l; _params := s; _persistent := _persistent l;
     _cpu := _cpu l; _device_id := _device_id l;
     _within_init_scope := _within_init_scope l; name := name l;
     attrs := attrs l; ext := ext l |}.
Definition set_persistent (s : gset string) (l : LinkObj) : LinkObj :=
  {| cls := cls l; _params := _params l; _persistent := s;
     _cpu := _cpu l; _device_id := _device_id l;
     _within_init_scope := _within_init_scope l; name := name l;
     attrs := attrs l; ext := ext l |}.
Definition set_cpu (b : bool) (l : LinkObj) : LinkObj :=
  {| cls := cls l; _params := _params l; _persistent := _persistent l;
     _cpu := b; _device_id := _device_id l;
     _within_init_scope := _within_init_scope l; name := name l;
     attrs := attrs l; ext := ext l |}.
Definition set_device_id (d : option Z) (l : LinkObj) : LinkObj :=
  {| cls := cls l; _params := _params l; _persistent := _persistent l;
     _cpu := _cpu l; _device_id := d;
     _within_init_scope := _within_init_scope l; name := name l;
     attrs := attrs l; ext := ext l |}.
Definition set_within_init_scope (b : bool) (l : LinkObj) : LinkObj :=
  {| cls := cls l; _params := _params l; _persistent := _persistent l;
     _cpu := _cpu l; _device_id := _device_id l;
     _within_init_scope := b; name := name l;
     attrs := attrs l; ext := ext l |}.
Definition set_name (n : option string) (l : LinkObj) : LinkObj :=
  {| cls := cls l; _params := _params l; _persistent := _persistent l;
     _cpu := _cpu l; _device_id := _device_id l;
     _within_init_scope := _within_init_scope l; name := n;
     attrs := attrs l; ext := ext l |}.
Definition set_attrs (d : gmap string value) (l : LinkObj) : LinkObj :=
  {| cls := cls l; _params := _params l; _persistent := _persistent l;
     _cpu := _cpu l; _device_id := _device_id l;
     _within_init_scope := _within_init_scope l; name := name l;
     attrs := d; ext := ext l |}.
Definition set_ext (k : kind) (l : LinkObj) : LinkObj :=
  {| cls := cls l; _params := _params l; _persistent := _persistent l;
     _cpu := _cpu l; _device_id := _device_id l;
     _within_init_scope := _within_init_scope l; name := name l;
     attrs := attrs l; ext := k |}.

Definition update_link (self : addr) (f : LinkObj → LinkObj) : M unit :=
  do l <- get_link self;
  put_obj self (OLink (f l)).

Definition update_param (a : addr) (f : ParameterObj → ParameterObj) : M unit :=
  do p <- get_param a;
  put_obj a (OParam (f p)).

(** [isinstance(value, variable.Parameter)] and [isinstance(value, Link)] *)
Definition is_Parameter (v : value) : M bool :=
  λ h, match v with
       | VRef a => match h !! a with
                   | Some (OParam _) => (Ok true, h)
                   | _ => (Ok false, h)
                   end
       | _ => (Ok false, h)
       end.

Definition is_Link (v : value) : M bool :=
  λ h, match v with
       | VRef a => match h !! a with
                   | Some (OLink _) => (Ok true, h)
                   | _ => (Ok false, h)
                   end
       | _ => (Ok false, h)
       end.

(** The slots that the constructors put in the instance dictionary. *)
Definition slots (k : kind) : list string :=
  ["_params"; "_persistent"; "_cpu"; "_device_id"; "_within_init_scope";
   "name"] ++
  match k with
  | KLink => []
  | KChain _ => ["_children"]
  | KChainList _ => ["_children"]
  | KSequential _ _ _ => ["_children"; "_layers"; "_n_lambda"]
  end.

(** [name in self.__dict__] *)
Definition in_dict (l : LinkObj) (attr : string) : bool :=
  bool_decide (attr ∈ slots (ext l)) || bool_decide (attr ∈ dom (attrs l)).

(** [hasattr(self, name)]: the instance dictionary, then the class. *)
Definition hasattr (l : LinkObj) (attr : string) : bool :=
  in_dict l attr || bool_decide (attr ∈ cls_attrs (cls l)).

(** [d[name]] on the instance dictionary *)
Definition dict_get (self : addr) (attr : string) : M value :=
  do l <- get_link self;
  match attrs l !! attr with
  | Some v => ret v
  | None => raise (KeyError attr)
  end.

(** [d[name] = value] on the instance dictionary *)
Definition dict_set (self : addr) (attr : string) (v : value) : M unit :=
  update_link self (λ l, set_attrs (<[attr := v]> (attrs l)) l).

(** [object.__setattr__]: a plain write to the instance dictionary. *)
Definition object_setattr (self : addr) (attr : string) (v : value) : M unit :=
  dict_set self attr v.

(** [object.__delattr__]: removes the entry, [AttributeError] without one. *)
Definition object_delattr (self : addr) (attr : string) : M unit :=
  do l <- get_link self;
  if bool_decide (attr ∈ dom (attrs l))
  then update_link self (λ l, set_attrs (delete attr (attrs l)) l)
  else raise (AttributeError attr).

(** ** The collaborators of the module *)

(** Modelled from the spec: the array backend is outside this module;
    section 6 of the specification lists host/device array allocation,
    host/device copy and the is-this-a-device-array predicate.  A copy to
    the other side allocates a new array with the same shape and items. *)
Definition current_device : Z := 0.

Definition is_cuda_ndarray (v : value) : M bool :=
  λ h, match v with
       | VRef a => match h !! a with
                   | Some (OArray x) => (Ok (bool_decide (is_Some (arr_device x))), h)
                   | _ => (Ok false, h)
                   end
       | _ => (Ok false, h)
       end.

Definition is_numpy_ndarray (v : value) : M bool :=
  λ h, match v with
       | VRef a => match h !! a with
                   | Some (OArray x) => (Ok (bool_decide (arr_device x = None)), h)
                   | _ => (Ok false, h)
                   end
       | _ => (Ok false, h)
       end.

(** [value.get()] of a device array *)
Definition ndarray_get (a : addr) : M addr :=
  do x <- get_array a;
  alloc (OArray {| arr_device := None; arr_shape := arr_shape x;
                   arr_items := arr_items x |}).

(** [cuda.to_cpu(array)]: a host array is returned as it is. *)
Definition cuda_to_cpu (a : addr) : M addr :=
  do x <- get_array a;
  match arr_device x with
  | None => ret a
  | Some _ => ndarray_get a
  end.

(** [cuda.to_gpu(array, device)]: a device array is returned as it is. *)
Definition cuda_to_gpu (a : addr) (device : option Z) : M addr :=
  do x <- get_array a;
  match arr_device x with
  | Some _ => ret a
  | None =>
      alloc (OArray {| arr_device := Some (default current_device device);
                       arr_shape := arr_shape x; arr_items := arr_items x |})
  end.

Definition set_p_name (n : option string) (p : ParameterObj) : ParameterObj :=
  {| p_name := n; p_data := p_data p; p_grad := p_grad p;
     p_update_rule := p_update_rule p |}.
Definition set_p_data (d : option addr) (p : ParameterObj) : ParameterObj :=
  {| p_name := p_name p; p_data := d; p_grad := p_grad p;
     p_update_rule := p_update_rule p |}.
Definition set_p_grad (g : option addr) (p : ParameterObj) : ParameterObj :=
  {| p_name := p_name p; p_data := p_data p; p_grad := g;
     p_update_rule := p_update_rule p |}.

(** Method calls on the value stored under a registered name: the value
    has to be a Parameter, anything else has no such method. *)
Definition as_param (v : value) : M addr :=
  match v with
  | VRef a => do _ <- get_param a; ret a
  | _ => raise (AttributeError "not a Parameter")
  end.

Definition move_opt (move : addr → M addr) (o : option addr) : M (option addr) :=
  match o with
  | None => ret None
  | Some a => do a' <- move a; ret (Some a')
  end.

(** Modelled from the spec: [Parameter.to_cpu], [Parameter.to_gpu],
    [Parameter.initialize] and the [name] and [grad] setters belong to the
    Parameter type, which is outside this module (section 6: host/device
    transfer of itself, [initialize(shape)]).  A transfer moves value and
    gradient; [initialize] gives the holder newly allocated storage of the
    requested shape. *)
Definition Parameter_to_cpu (a : addr) : M unit :=
  do p <- get_param a;
  do d <- move_opt cuda_to_cpu (p_data p);
  do g <- move_opt cuda_to_cpu (p_grad p);
  update_param a (λ p, set_p_grad g (set_p_data d p)).

Definition Parameter_to_gpu (a : addr) (device : option Z) : M unit :=
  do p <- get_param a;
  do d <- move_opt (λ x, cuda_to_gpu x device) (p_data p);
  do g <- move_opt (λ x, cuda_to_gpu x device) (p_grad p);
  update_param a (λ p, set_p_grad g (set_p_data d p)).

Definition Parameter_set_name (a : addr) (n : string) : M unit :=
  update_param a (set_p_name (Some n)).

Definition Parameter_set_grad (a : addr) (g : option addr) : M unit :=
  update_param a (set_p_grad g).

(** [param.shape]: the shape of the value array. *)
Definition Parameter_shape (a : addr) : M (list Z) :=
  do p <- get_param a;
  match p_data p with
  | Some d => do x <- get_array d; ret (arr_shape x)
  | None => raise (AttributeError "shape of an uninitialized parameter")
  end.

(** The items an initializer writes into an array of [n] cells. *)
Definition init_items (n : nat) : list Z := replicate n 0%Z.

Definition Parameter_initialize (a : addr) (shape : list Z) : M unit :=
  do p <- get_param a;
  let dev := match p_data p with
             | Some d => λ h, match h !! d with
                              | Some (OArray x) => (Ok (arr_device x), h)
                              | _ => (Ok None, h)
                              end
             | None => ret None
             end in
  do device <- dev;
  do d <- alloc (OArray {| arr_device := device; arr_shape := shape;
                           arr_items := init_items (Z.to_nat (foldr Z.mul 1%Z shape)) |});
  update_param a (set_p_data (Some d)).

(** ** Pickling protocol and [copy.copy] *)

Definition dquote : string := String "034"%char EmptyString.

Definition lambda_message : string :=
  "This Sequential object has at least one lambda function as " ++
  "its component. Lambda function can't be pickled, so please " ++
  "consider to use functools.partial instead of the lambda " ++
  "function or use " ++ dquote ++ "dill" ++ dquote ++
  " which is an external package that " ++
  "enables pickling an object including lambda functions intead " ++
  "of built-in pickle.".

(** [Sequential.__reduce__]; the result stands for the class and state
    that [object.__reduce__] hands to the pickler. *)
Definition Sequential___reduce__ (self : addr) : M LinkObj :=
  do l <- get_link self;
  match ext l with
  | KSequential _ _ n_lambda =>
      if bool_decide (n_lambda > 0)%Z
      then raise (ValueError lambda_message)
      else ret l
  | _ => ret l
  end.

(** [x.__reduce_ex__]: Sequential overrides [__reduce__], the other
    classes inherit the one of [object]. *)
Definition reduce_ex (self : addr) : M LinkObj :=
  do l <- get_link self;
  match ext l with
  | KSequential _ _ _ => Sequential___reduce__ self
  | _ => ret l
  end.

(** [copy.copy]: a new object with the same fields for links, parameters
    and arrays (the copy of a parameter holds the same arrays); immutable
    values and functions are returned as they are. *)
Definition copy_copy (v : value) : M value :=
  match v with
  | VRef a =>
      do o <- get_obj a;
      match o with
      | OArray x => do a' <- alloc (OArray x); ret (VRef a')
      | OParam p => do a' <- alloc (OParam p); ret (VRef a')
      | OLink _ =>
          do st <- reduce_ex a;
          do a' <- alloc (OLink st);
          ret (VRef a')
      end
  | _ => ret v
  end.

(** ** Link *)

Definition Link___init__ (c : PyClass) : M addr :=
  alloc (OLink {| cls := c; _params := ∅; _persistent := ∅; _cpu := true;
                  _device_id := None; _within_init_scope := false;
                  name := None; attrs := ∅; ext := KLink |}).

Definition Link_within_init_scope (self : addr) : M bool :=
  do l <- get_link self;
  ret (_within_init_scope l).

(** [with self.init_scope(): body] *)
Definition Link_init_scope {A} (self : addr) (body : M A) : M A :=
  do old_flag <- Link_within_init_scope self;
  update_link self (set_within_init_scope true);;
  try_finally body (update_link self (set_within_init_scope old_flag)).

Definition Link___setattr__ (self : addr) (attr : string) (v : value) : M unit :=
  do scope <- Link_within_init_scope self;
  do isp <- is_Parameter v;
  (if scope && isp then
     do p <- as_param v;
     Parameter_set_name p attr;;
     do l <- get_link self;
     (if negb (_cpu l) then Parameter_to_gpu p (_device_id l) else ret tt);;
     update_link self (λ l, set_params ({[attr]} ∪ _params l) l);;
     update_link self (λ l, set_persistent (_persistent l ∖ {[attr]}) l)
   else ret tt);;
  object_setattr self attr v.

Definition Link___delattr__ (self : addr) (attr : string) : M unit :=
  update_link self (λ l, set_params (_params l ∖ {[attr]}) l);;
  update_link self (λ l, set_persistent (_persistent l ∖ {[attr]}) l);;
  object_delattr self attr.

Definition Link_add_persistent (self : addr) (attr : string) (v : value) : M unit :=
  do l <- get_link self;
  if in_dict l attr then
    raise (AttributeError
             ("cannot register a new persistent value " ++ attr ++
              ": attribute exists"))
  else
    update_link self (λ l, set_persistent ({[attr]} ∪ _persistent l) l);;
    update_link self (λ l, set_params (_params l ∖ {[attr]}) l);;
    dict_set self attr v.

Definition Link_register_persistent (self : addr) (attr : string) : M unit :=
  do l <- get_link self;
  if negb (hasattr l attr) then
    raise (AttributeError
             ("cannot register non-existent attribute " ++ attr ++
              " as a persistent value"))
  else
    update_link self (λ l, set_persistent ({[attr]} ∪ _persistent l) l);;
    update_link self (λ l, set_params (_params l ∖ {[attr]}) l).

Definition Link_copy (self : addr) : M addr :=
  do r <- copy_copy (VRef self);
  match r with
  | VRef ret_ =>
      do l <- get_link self;
      update_link ret_ (set_params (_params l));;
      update_link ret_ (set_persistent (_persistent l));;
      update_link ret_ (set_name None);;
      do l' <- get_link ret_;
      for_each (elements (_params l')) (λ nm,
        do v <- dict_get ret_ nm;
        do c <- copy_copy v;
        dict_set ret_ nm c;;
        do p <- as_param c;
        Parameter_set_grad p None);;
      ret ret_
  | _ => raise (TypeError "copy of a link is a link")
  end.

Definition Link_to_cpu (self : addr) : M addr :=
  do l <- get_link self;
  if _cpu l then ret self
  else
    for_each (elements (_params l)) (λ nm,
      do v <- dict_get self nm;
      do p <- as_param v;
      Parameter_to_cpu p);;
    for_each (elements (_persistent l)) (λ nm,
      do v <- dict_get self nm;
      do isdev <- is_cuda_ndarray v;
      match v with
      | VRef a => if isdev
                  then do a' <- ndarray_get a; dict_set self nm (VRef a')
                  else ret tt
      | _ => ret tt
      end);;
    update_link self (set_cpu true);;
    update_link self (set_device_id None);;
    ret self.

(** [cuda.check_cuda_available()] passes when [cuda_available]. *)
Definition Link_to_gpu (cuda_available : bool) (self : addr)
    (device : option Z) : M addr :=
  (if cuda_available then ret tt
   else raise (RuntimeError "CUDA environment is not correctly set up"));;
  do l <- get_link self;
  if negb (_cpu l) then ret self
  else
    for_each (elements (_params l)) (λ nm,
      do v <- dict_get self nm;
      do p <- as_param v;
      Parameter_to_gpu p device);;
    for_each (elements (_persistent l)) (λ nm,
      do v <- dict_get self nm;
      do ishost <- is_numpy_ndarray v;
      match v with
      | VRef a => if ishost
                  then do a' <- cuda_to_gpu a device; dict_set self nm (VRef a')
                  else ret tt
      | _ => ret tt
      end);;
    update_link self (set_device_id (Some (default current_device device)));;
    update_link self (set_cpu false);;
    ret self.

(** The generator [params] as the list it yields. *)
Fixpoint Link_params_loop (self : addr) (names : list string)
    (include_uninit : bool) : M (list addr) :=
  match names with
  | [] => ret []
  | nm :: rest =>
      do v <- dict_get self nm;
      do p <- as_param v;
      do po <- get_param p;
      do ps <- Link_params_loop self rest include_uninit;
      if include_uninit || bool_decide (is_Some (p_data po))
      then ret (p :: ps) else ret ps
  end.

Definition Link_params (self : addr) (include_uninit : bool) : M (list addr) :=
  do l <- get_link self;
  Link_params_loop self (elements (_params l)) include_uninit.

(** ** Chain *)

Definition link_class_attrs : gset string :=
  list_to_set
    ["__init__"; "xp"; "within_init_scope"; "init_scope"; "__setattr__";
     "__delattr__"; "add_param"; "add_persistent"; "register_persistent";
     "copy"; "to_cpu"; "to_gpu"; "params"; "namedparams"; "links";
     "namedlinks"; "children"; "copyparams"; "cleargrads"; "zerograds";
     "addgrads"; "enable_update"; "disable_update"; "update_enabled";
     "serialize"; "__class__"; "__dict__"; "__doc__"; "__module__"].

Definition Link_class : PyClass :=
  {| cls_name := "Link"; cls_attrs := link_class_attrs |}.

Definition Chain_class : PyClass :=
  {| cls_name := "Chain";
     cls_attrs := link_class_attrs ∪ list_to_set ["__getitem__"; "add_link"] |}.

Definition ChainList_class : PyClass :=
  {| cls_name := "ChainList";
     cls_attrs := link_class_attrs ∪
       list_to_set ["__getitem__"; "__iter__"; "__len__"; "append";
                    "add_link"] |}.

Definition Sequential_class : PyClass :=
  {| cls_name := "Sequential";
     cls_attrs := cls_attrs ChainList_class ∪
       list_to_set
         ["__setitem__"; "__delitem__"; "__reversed__"; "__contains__";
          "__add__"; "__radd__"; "__iadd__"; "__mul__"; "__rmul__";
          "__imul__"; "__call__"; "__reduce__"; "__str__"; "extend";
          "insert"; "remove"; "remove_by_layer_type"; "pop"; "clear";
          "index"; "count"; "count_by_layer_type"; "sort"; "reverse"] |}.

Definition Chain___init__ (c : PyClass) : M addr :=
  alloc (OLink {| cls := c; _params := ∅; _persistent := ∅; _cpu := true;
                  _device_id := None; _within_init_scope := false;
                  name := None; attrs := ∅; ext := KChain ∅ |}).

(** [self._children] of a Chain *)
Definition Chain_children_names (self : addr) : M (gset string) :=
  do l <- get_link self;
  match ext l with
  | KChain ch => ret ch
  | _ => raise (AttributeError "_children")
  end.

Definition Chain_set_children (self : addr) (f : gset string → gset string)
    : M unit :=
  do ch <- Chain_children_names self;
  update_link self (set_ext (KChain (f ch))).

Definition Chain___setattr__ (self : addr) (attr : string) (v : value) : M unit :=
  do scope <- Link_within_init_scope self;
  do isl <- is_Link v;
  (if scope && isl then
     do l <- get_link self;
     if hasattr l attr then
       raise (AttributeError
                ("cannot register a new link " ++ attr ++ ": attribute exists"))
     else
       match v with
       | VRef child =>
           update_link child (set_name (Some attr));;
           Chain_set_children self (λ ch, {[attr]} ∪ ch)
       | _ => ret tt
       end
   else ret tt);;
  Link___setattr__ self attr v.

Definition Chain___delattr__ (self : addr) (attr : string) : M unit :=
  Chain_set_children self (λ ch, ch ∖ {[attr]});;
  Link___delattr__ self attr.

(** The deprecation warning of [add_link] does not change the state. *)
Definition Chain_add_link (self : addr) (attr : string) (link : value) : M unit :=
  do l <- get_link self;
  if in_dict l attr then
    raise (AttributeError
             ("cannot register a new link " ++ attr ++ ": attribute exists"))
  else
    do isl <- is_Link link;
    if negb isl then
      raise (TypeError "cannot register a non-link object as a child")
    else
      Link_init_scope self (Chain___setattr__ self attr link).

(** [child_copy] is the [copy] method of the child, whatever its class. *)
Definition Chain_copy (child_copy : addr → M addr) (self : addr) : M addr :=
  do ret_ <- Link_copy self;
  do ch <- Chain_children_names ret_;
  for_each (elements ch) (λ nm,
    do v <- dict_get ret_ nm;
    match v with
    | VRef child =>
        do copied <- child_copy child;
        update_link copied (set_name (Some nm));;
        dict_set ret_ nm (VRef copied)
    | _ => raise (AttributeError "copy")
    end);;
  ret ret_.

Definition Chain_to_cpu (child_to_cpu : addr → M addr) (self : addr) : M addr :=
  Link_to_cpu self;;
  do ch <- Chain_children_names self;
  for_each (elements ch) (λ nm,
    do v <- dict_get self nm;
    match v with
    | VRef child => child_to_cpu child;; ret tt
    | _ => raise (AttributeError "to_cpu")
    end);;
  ret self.

(** ** ChainList *)

(** [self._children] of a ChainList or Sequential *)
Definition ChainList_children (self : addr) : M (list addr) :=
  do l <- get_link self;
  match ext l with
  | KChainList ch => ret ch
  | KSequential ch _ _ => ret ch
  | _ => raise (AttributeError "_children")
  end.

Definition with_children (f : list addr → list addr) (k : kind) : kind :=
  match k with
  | KChainList ch => KChainList (f ch)
  | KSequential ch ls n => KSequential (f ch) ls n
  | _ => k
  end.

Definition ChainList_set_children (self : addr) (f : list addr → list addr)
    : M unit :=
  ChainList_children self;;
  update_link self (λ l, set_ext (with_children f (ext l)) l).

(** [str(i)] *)
Definition str (i : nat) : string := pretty i.

Definition ChainList_add_link (self : addr) (link : addr) : M unit :=
  do ch <- ChainList_children self;
  update_link link (set_name (Some (str (length ch))));;
  ChainList_set_children self (λ ch, ch ++ [link]).

Definition ChainList_append (self : addr) (link : addr) : M unit :=
  ChainList_add_link self link.

Definition ChainList___init__ (c : PyClass) (links : list addr) : M addr :=
  do self <- alloc (OLink {| cls := c; _params := ∅; _persistent := ∅;
                             _cpu := true; _device_id := None;
                             _within_init_scope := false; name := None;
                             attrs := ∅; ext := KChainList [] |});
  for_each links (ChainList_add_link self);;
  ret self.

Definition ChainList___len__ (self : addr) : M nat :=
  do ch <- ChainList_children self;
  ret (length ch).

Fixpoint ChainList_copy_loop (child_copy : addr → M addr) (ret_ : addr)
    (i : nat) (children : list addr) : M unit :=
  match children with
  | [] => ret tt
  | child :: rest =>
      do copied <- child_copy child;
      update_link copied (set_name (Some (str i)));;
      ChainList_set_children ret_ (λ ch, <[i := copied]> ch);;
      ChainList_copy_loop child_copy ret_ (S i) rest
  end.

Definition ChainList_copy (child_copy : addr → M addr) (self : addr) : M addr :=
  do ret_ <- Link_copy self;
  do children <- ChainList_children ret_;
  ChainList_copy_loop child_copy ret_ 0 children;;
  ret ret_.

Definition ChainList_to_cpu (child_to_cpu : addr → M addr) (self : addr)
    : M addr :=
  Link_to_cpu self;;
  do ch <- ChainList_children self;
  for_each ch (λ link, child_to_cpu link;; ret tt);;
  ret self.

(** ** Python list indexing *)

(** The position that [l[i]] and [l.pop(i)] address in a list of [n]
    items: negative indices count from the end, [None] is [IndexError]. *)
Definition py_index (n : nat) (i : Z) : option nat :=
  let j := if bool_decide (i < 0)%Z then (i + Z.of_nat n)%Z else i in
  if bool_decide (0 ≤ j)%Z && bool_decide (j < Z.of_nat n)%Z
  then Some (Z.to_nat j) else None.

(** The position at which [l.insert(i, x)] puts [x]: clipped to [0..n]. *)
Definition py_insert_index (n : nat) (i : Z) : nat :=
  let j := if bool_decide (i < 0)%Z then (i + Z.of_nat n)%Z else i in
  if bool_decide (j < 0)%Z then 0
  else if bool_decide (Z.of_nat n < j)%Z then n else Z.to_nat j.

Definition list_insert_at {A} (i : nat) (x : A) (l : list A) : list A :=
  take i l ++ x :: drop i l.

(** [for i, link in enumerate(children): if link is layer: del children[i]; break] *)
Fixpoint remove_first (a : addr) (children : list addr) : list addr :=
  match children with
  | [] => []
  | c :: rest => if bool_decide (c = a) then rest else c :: remove_first a rest
  end.

(** [for i, link in enumerate(children): del children[i]]: the iterator
    advances over the list while it shrinks. *)
Fixpoint clear_loop (steps i : nat) (children : list addr) : list addr :=
  match steps with
  | 0 => children
  | S steps' =>
      if bool_decide (i < length children)
      then clear_loop steps' (S i) (delete i children)
      else children
  end.

(** ** Sequential *)

Definition Sequential_layers (self : addr) : M (list value) :=
  do l <- get_link self;
  match ext l with
  | KSequential _ ls _ => ret ls
  | _ => raise (AttributeError "_layers")
  end.

Definition Sequential_n_lambda (self : addr) : M Z :=
  do l <- get_link self;
  match ext l with
  | KSequential _ _ n => ret n
  | _ => raise (AttributeError "_n_lambda")
  end.

Definition with_layers (f : list value → list value) (k : kind) : kind :=
  match k with
  | KSequential ch ls n => KSequential ch (f ls) n
  | _ => k
  end.

Definition with_n_lambda (f : Z → Z) (k : kind) : kind :=
  match k with
  | KSequential ch ls n => KSequential ch ls (f n)
  | _ => k
  end.

Definition Sequential_set_layers (self : addr) (f : list value → list value)
    : M unit :=
  Sequential_layers self;;
  update_link self (λ l, set_ext (with_layers f (ext l)) l).

Definition Sequential_set_n_lambda (self : addr) (f : Z → Z) : M unit :=
  Sequential_n_lambda self;;
  update_link self (λ l, set_ext (with_n_lambda f (ext l)) l).

(** [callable(layer)]: functions, and instances whose class defines
    [__call__]. *)
Definition callable (v : value) : M bool :=
  λ h, match v with
       | VFunc _ => (Ok true, h)
       | VRef a =>
           match h !! a with
           | Some (OLink l) =>
               (Ok (bool_decide ("__call__" ∈ cls_attrs (cls l))), h)
           | _ => (Ok false, h)
           end
       | _ => (Ok false, h)
       end.

(** [callable(layer) and hasattr(layer, '__name__') and
    layer.__name__ == '<lambda>'], for a layer that is not a Link. *)
Definition is_lambda (v : value) : bool :=
  match v with
  | VFunc f => bool_decide (fn_name f = Some "<lambda>")
  | _ => false
  end.

(** [a is b] *)
Definition value_is (a b : value) : bool :=
  match a, b with
  | VRef x, VRef y => bool_decide (x = y)
  | VFunc f, VFunc g => bool_decide (fn_id f = fn_id g)
  | VNone, VNone => true
  | _, _ => false
  end.

Definition Sequential___len__ (self : addr) : M nat :=
  do ls <- Sequential_layers self;
  ret (length ls).

Definition Sequential_insert (self : addr) (i : Z) (layer : value) : M unit :=
  do c <- callable layer;
  if negb c then
    raise (ValueError
             "All elements of the argment should be callable. But given layer is not callable.")
  else
    Sequential_set_layers self
      (λ ls, list_insert_at (py_insert_index (length ls) i) layer ls);;
    do isl <- is_Link layer;
    match layer with
    | VRef a => if isl then ChainList_add_link self a else ret tt
    | _ =>
        if is_lambda layer
        then Sequential_set_n_lambda self (λ n, n + 1)%Z
        else ret tt
    end.

Definition Sequential_append (self : addr) (layer : value) : M unit :=
  do n <- Sequential___len__ self;
  Sequential_insert self (Z.of_nat n) layer.

Definition Sequential___init__ (c : PyClass) (layers : list value) : M addr :=
  do self <- alloc (OLink {| cls := c; _params := ∅; _persistent := ∅;
                             _cpu := true; _device_id := None;
                             _within_init_scope := false; name := None;
                             attrs := ∅; ext := KSequential [] [] 0 |});
  for_each layers (Sequential_append self);;
  ret self.

Definition Sequential_extend (self : addr) (sequential : list value) : M unit :=
  for_each sequential (Sequential_append self).

Definition Sequential___delitem__ (self : addr) (i : Z) : M unit :=
  do ls <- Sequential_layers self;
  match py_index (length ls) i with
  | None => raise (IndexError "pop index out of range")
  | Some j =>
      match ls !! j with
      | None => raise (IndexError "pop index out of range")
      | Some layer =>
          Sequential_set_layers self (λ ls, delete j ls);;
          do isl <- is_Link layer;
          match layer with
          | VRef a =>
              if isl then ChainList_set_children self (remove_first a)
              else ret tt
          | _ =>
              if is_lambda layer
              then Sequential_set_n_lambda self (λ n, n - 1)%Z
              else ret tt
          end
      end
  end.

Definition Sequential___getitem__ (self : addr) (i : Z) : M value :=
  do ls <- Sequential_layers self;
  match py_index (length ls) i with
  | Some j => match ls !! j with
              | Some layer => ret layer
              | None => raise (IndexError "list index out of range")
              end
  | None => raise (IndexError "list index out of range")
  end.

Definition Sequential___setitem__ (self : addr) (i : Z) (layer : value) : M unit :=
  do n <- Sequential___len__ self;
  if bool_decide (Z.of_nat n ≤ i)%Z then
    raise (ValueError "index should be less than the length")
  else
    do c <- callable layer;
    if negb c then
      raise (ValueError
               "All elements of a Sequential class should be callable. But given layer is not callable.")
    else
      do old <- Sequential___getitem__ self i;
      if negb (value_is old layer) then
        Sequential___delitem__ self i;;
        Sequential_insert self i layer
      else ret tt.

Definition Sequential_pop (self : addr) (i : Z) : M value :=
  do layer <- Sequential___getitem__ self i;
  Sequential___delitem__ self i;;
  ret layer.

Definition Sequential_clear (self : addr) : M unit :=
  ChainList_set_children self (λ ch, clear_loop (length ch) 0 ch);;
  Sequential_set_layers self (λ _, []).

(** [call_layer layer args] is the call of [layer] on the argument list
    [args]: what calling a layer does is
    given by the layer's own class or function, outside this module.  The
    loop runs over the layer list held when the call starts. *)
Fixpoint Sequential_call_loop (call_layer : value → list value → M value)
    (layers : list value) (x : value) : M value :=
  match layers with
  | [] => ret x
  | layer :: rest =>
      do x' <- match x with
               | VTuple xs => call_layer layer xs
               | _ => call_layer layer [x]
               end;
      Sequential_call_loop call_layer rest x'
  end.

(** [__call__] with a starred parameter [x]: [x] starts as the tuple of
    the arguments. *)
Definition Sequential___call__ (call_layer : value → list value → M value)
    (self : addr) (x : list value) : M value :=
  do ls <- Sequential_layers self;
  Sequential_call_loop call_layer ls (VTuple x).

Definition Sequential_copy (child_copy : addr → M addr) (self : addr) : M addr :=
  do ret_ <- Sequential___init__ Sequential_class [];
  do n <- Sequential_n_lambda self;
  Sequential_set_n_lambda ret_ (λ _, n);;
  do ls <- Sequential_layers self;
  for_each ls (λ layer,
    do isl <- is_Link layer;
    match layer with
    | VRef a =>
        if isl then do c <- child_copy a; Sequential_append ret_ (VRef c)
        else do c <- copy_copy layer; Sequential_append ret_ c
    | _ => do c <- copy_copy layer; Sequential_append ret_ c
    end);;
  ret ret_.

(** ** Method dispatch on the class of the receiver

    [link.copy()], [link.params()] and [link.to_cpu()] run the method of
    the receiver's class and recurse into children; [fuel] bounds the
    depth of that recursion. *)

Fixpoint copy (fuel : nat) (self : addr) : M addr :=
  match fuel with
  | 0 => raise RecursionError
  | S fuel' =>
      do l <- get_link self;
      match ext l with
      | KLink => Link_copy self
      | KChain _ => Chain_copy (copy fuel') self
      | KChainList _ => ChainList_copy (copy fuel') self
      | KSequential _ _ _ => Sequential_copy (copy fuel') self
      end
  end.

Fixpoint to_cpu (fuel : nat) (self : addr) : M addr :=
  match fuel with
  | 0 => raise RecursionError
  | S fuel' =>
      do l <- get_link self;
      match ext l with
      | KLink => Link_to_cpu self
      | KChain _ => Chain_to_cpu (to_cpu fuel') self
      | KChainList _ => ChainList_to_cpu (to_cpu fuel') self
      | KSequential _ _ _ => ChainList_to_cpu (to_cpu fuel') self
      end
  end.

(** The lists that the generators of the children yield, in order. *)
Fixpoint concat_params (child_params : addr → M (list addr))
    (children : list addr) : M (list addr) :=
  match children with
  | [] => ret []
  | c :: rest =>
      do ps <- child_params c;
      do qs <- concat_params child_params rest;
      ret (ps ++ qs)
  end.

Fixpoint Chain_child_links (self : addr) (names : list string) : M (list addr) :=
  match names with
  | [] => ret []
  | nm :: rest =>
      do v <- dict_get self nm;
      do cs <- Chain_child_links self rest;
      match v with
      | VRef c => ret (c :: cs)
      | _ => raise (AttributeError "params")
      end
  end.

Definition Chain_params (child_params : addr → bool → M (list addr))
    (self : addr) (include_uninit : bool) : M (list addr) :=
  do own <- Link_params self include_uninit;
  do ch <- Chain_children_names self;
  do cs <- Chain_child_links self (elements ch);
  do sub <- concat_params (λ c, child_params c include_uninit) cs;
  ret (own ++ sub).

Definition ChainList_params (child_params : addr → bool → M (list addr))
    (self : addr) (include_uninit : bool) : M (list addr) :=
  do own <- Link_params self include_uninit;
  do cs <- ChainList_children self;
  do sub <- concat_params (λ c, child_params c include_uninit) cs;
  ret (own ++ sub).

Fixpoint params (fuel : nat) (self : addr) (include_uninit : bool)
    : M (list addr) :=
  match fuel with
  | 0 => raise RecursionError
  | S fuel' =>
      do l <- get_link self;
      match ext l with
      | KLink => Link_params self include_uninit
      | KChain _ => Chain_params (params fuel') self include_uninit
      | KChainList _ => ChainList_params (params fuel') self include_uninit
      | KSequential _ _ _ => ChainList_params (params fuel') self include_uninit
      end
  end.

(** ** [copy.deepcopy]

    [memo] maps the objects already copied to their copies.  Links are
    copied through [__reduce_ex__]: the new object is entered in [memo]
    before its state is copied.  Arrays and parameters are copied with
    their contents; functions and immutable values are returned as they
    are. *)

Definition deepcopy_addr (rec : value → gmap addr addr → M (value * gmap addr addr))
    (a : addr) (memo : gmap addr addr) : M (addr * gmap addr addr) :=
  do r <- rec (VRef a) memo;
  match r.1 with
  | VRef a' => ret (a', r.2)
  | _ => raise (TypeError "deepcopy of an object is an object")
  end.

Definition deepcopy_opt (rec : value → gmap addr addr → M (value * gmap addr addr))
    (o : option addr) (memo : gmap addr addr)
    : M (option addr * gmap addr addr) :=
  match o with
  | None => ret (None, memo)
  | Some a => do r <- deepcopy_addr rec a memo; ret (Some r.1, r.2)
  end.

Fixpoint deepcopy_list {A B} (rec : A → gmap addr addr → M (B * gmap addr addr))
    (xs : list A) (memo : gmap addr addr) : M (list B * gmap addr addr) :=
  match xs with
  | [] => ret ([], memo)
  | x :: rest =>
      do r <- rec x memo;
      do rs <- deepcopy_list rec rest r.2;
      ret (r.1 :: rs.1, rs.2)
  end.

Definition deepcopy_kind (rec : value → gmap addr addr → M (value * gmap addr addr))
    (k : kind) (memo : gmap addr addr) : M (kind * gmap addr addr) :=
  match k with
  | KLink => ret (KLink, memo)
  | KChain ch => ret (KChain ch, memo)
  | KChainList ch =>
      do r <- deepcopy_list (deepcopy_addr rec) ch memo;
      ret (KChainList r.1, r.2)
  | KSequential ch ls n =>
      do r <- deepcopy_list (deepcopy_addr rec) ch memo;
      do s <- deepcopy_list rec ls r.2;
      ret (KSequential r.1 s.1 n, s.2)
  end.

Fixpoint deepcopy (fuel : nat) (v : value) (memo : gmap addr addr)
    : M (value * gmap addr addr) :=
  match fuel with
  | 0 => raise RecursionError
  | S fuel' =>
      match v with
      | VTuple vs =>
          do r <- deepcopy_list (deepcopy fuel') vs memo;
          ret (VTuple r.1, r.2)
      | VRef a =>
          match memo !! a with
          | Some a' => ret (VRef a', memo)
          | None =>
              do o <- get_obj a;
              match o with
              | OArray x =>
                  do a' <- alloc (OArray x);
                  ret (VRef a', <[a := a']> memo)
              | OParam p =>
                  do d <- deepcopy_opt (deepcopy fuel') (p_data p) memo;
                  do g <- deepcopy_opt (deepcopy fuel') (p_grad p) d.2;
                  do a' <- alloc (OParam (set_p_grad g.1 (set_p_data d.1 p)));
                  ret (VRef a', <[a := a']> g.2)
              | OLink _ =>
                  do st <- reduce_ex a;
                  do a' <- alloc (OLink st);
                  do d <- deepcopy_list
                            (λ kv m, do r <- deepcopy fuel' kv.2 m;
                                     ret ((kv.1, r.1), r.2))
                            (map_to_list (attrs st)) (<[a := a']> memo);
                  do k <- deepcopy_kind (deepcopy fuel') (ext st) d.2;
                  put_obj a' (OLink (set_ext k.1 (set_attrs (list_to_map d.1) st)));;
                  ret (VRef a', k.2)
              end
          end
      | _ => ret (v, memo)
      end
  end.

Definition Sequential___mul__ (fuel : nat) (self : addr) (n_repeat : Z)
    : M addr :=
  if bool_decide (n_repeat ≤ 0)%Z then Sequential___init__ Sequential_class []
  else
    do ret_ <- Sequential_copy (copy fuel) self;
    for_each (seq 0 (Z.to_nat (n_repeat - 1))) (λ _,
      do ls <- Sequential_layers self;
      for_each ls (λ layer,
        do isl <- is_Link layer;
        do layer' <-
          (if isl then
             do r <- deepcopy fuel layer ∅;
             match r.1 with
             | VRef a =>
                 do ps <- params fuel a false;
                 for_each ps (λ param,
                   do shape <- Parameter_shape param;
                   Parameter_initialize param shape);;
                 ret r.1
             | _ => raise (TypeError "deepcopy of a link is a link")
             end
           else copy_copy layer);
        Sequential_append ret_ layer'));;
    ret ret_.

Definition Sequential___rmul__ (fuel : nat) (self : addr) (n_repeat : Z)
    : M addr :=
  Sequential___mul__ fuel self n_repeat.

(** [setattr(self, name, value)] and [delattr(self, name)]: Chain
    overrides both hooks, the other classes inherit those of Link. *)
Definition setattr (self : addr) (attr : string) (v : value) : M unit :=
  do l <- get_link self;
  match ext l with
  | KChain _ => Chain___setattr__ self attr v
  | _ => Link___setattr__ self attr v
  end.

Definition delattr (self : addr) (attr : string) : M unit :=
  do l <- get_link self;
  match ext l with
  | KChain _ => Chain___delattr__ self attr
  | _ => Link___delattr__ self attr
  end.

(** ** Client programs over the registration interface *)

(** One statement of a client: constructing a link or a parameter,
    [self.attr = v] outside or inside [with self.init_scope():], the two
    persistent registrations and [del self.attr]. *)
Inductive reg_op :=
| NewLink (c : PyClass)
| NewChain (c : PyClass)
| NewParameter (p : ParameterObj)
| NewArray (x : Array)
| Assign (self : addr) (attr : string) (v : value)
| ScopedAssign (self : addr) (attr : string) (v : value)
| AddPersistent (self : addr) (attr : string) (v : value)
| RegisterPersistent (self : addr) (attr : string)
| Delete (self : addr) (attr : string).

Definition run_op (op : reg_op) : M unit :=
  match op with
  | NewLink c => Link___init__ c;; ret tt
  | NewChain c => Chain___init__ c;; ret tt
  | NewParameter p => alloc (OParam p);; ret tt
  | NewArray x => alloc (OArray x);; ret tt
  | Assign self attr v => setattr self attr v
  | ScopedAssign self attr v => Link_init_scope self (setattr self attr v)
  | AddPersistent self attr v => Link_add_persistent self attr v
  | RegisterPersistent self attr => Link_register_persistent self attr
  | Delete self attr => delattr self attr
  end.

(** The statements run in order; a statement that raises leaves the heap
    as it was at the raise and the client goes on (the exception is
    caught). *)
Fixpoint run_ops (ops : list reg_op) (h : heap) : heap :=
  match ops with
  | [] => h
  | op :: rest => run_ops rest (run_op op h).2
  end.

(** [parameter_names] and [persistent_names] share no name. *)
Definition obj_disjoint (o : obj) : Prop :=
  match o with
  | OLink l => _params l ## _persistent l
  | _ => True
  end.

Definition heap_disjoint (h : heap) : Prop := Forall obj_disjoint h.

(** A computation keeps a property of the heap, however it ends. *)
Definition preserves (I : heap → Prop) {A} (m : M A) : Prop :=
  ∀ h r h', I h → m h = (r, h') → I h'.

(** A computation only appends to the heap: the objects present at the
    start are left as they are. *)
Definition extends_heap {A} (m : M A) : Prop :=
  ∀ h r h', m h = (r, h') → h `prefix_of` h'.

Definition is_sequential (k : kind) : bool :=
  match k with
  | KSequential _ _ _ => true
  | _ => false
  end.

(** Every registered parameter name holds a Parameter. *)
Definition params_registered (h : heap) (l : LinkObj) : Prop :=
  ∀ nm, nm ∈ _params l →
    ∃ a p, attrs l !! nm = Some (VRef a) ∧ h !! a = Some (OParam p).

Fixpoint value_size (v : value) : nat :=
  match v with
  | VTuple vs => S (foldr (λ x n, value_size x + n) 0 vs)
  | _ => 1
  end.

(** The number of anonymous functions among the layers. *)
Definition count_lambda (layers : list value) : nat :=
  length (filter (λ v, is_lambda v = true) layers).

(** The [name] of the link at an address. *)
Definition name_of (h : heap) (a : addr) : option string :=
  match h !! a with
  | Some (OLink l) => name l
  | _ => None
  end.


(** ** Sample objects *)

(** A link class with a [__call__] method, as the links of
    [chainer.links] have. *)
Definition Linear_class : PyClass :=
  {| cls_name := "Linear"; cls_attrs := link_class_attrs ∪ {["__call__"]} |}.

(** [lambda x: x] *)
Definition anonymous : value := VFunc {| fn_id := 0; fn_name := Some "<lambda>" |}.

Definition demo_param : ParameterObj :=
  {| p_name := None; p_data := None; p_grad := None; p_update_rule := None |}.

Definition demo_link (c : PyClass) (k : kind) (d : gmap string value) : LinkObj :=
  {| cls := c; _params := ∅; _persistent := ∅; _cpu := true;
     _device_id := None; _within_init_scope := false; name := None;
     attrs := d; ext := k |}.

(** ** Shapes of heap used in the statements about [copy] and repetition *)

Definition is_array (h : heap) (d : addr) : Prop :=
  ∃ x, h !! d = Some (OArray x).

(** A parameter that holds a value array; its gradient is empty or an
    array. *)
Definition initialized_param (h : heap) (q : addr) : Prop :=
  ∃ p d, h !! q = Some (OParam p) ∧ p_data p = Some d ∧ is_array h d ∧
         (∀ g, p_grad p = Some g → is_array h g).



(** A parameter allocated at or after address [N] whose value array was
    allocated at or after [N] as well. *)
Definition fresh_param (N : nat) (h : heap) (q : addr) : Prop :=
  N ≤ q ∧
  ∃ p d, h !! q = Some (OParam p) ∧ p_data p = Some d ∧ N ≤ d ∧ is_array h d ∧
         (∀ g, p_grad p = Some g → is_array h g).

(** The memo of a deep copy started at heap size [N]: parameters and
    arrays of the original heap [h] are mapped to copies made since. *)
Definition memo_ok (N : nat) (h hc : heap) (m : gmap nat nat) : Prop :=
  ∀ x y, m !! x = Some y →
    (initialized_param h x → fresh_param N hc y) ∧
    (is_array h x → N ≤ y ∧ is_array hc y).




(** A sample interpretation of function layers: [succ] adds one, [dup]
    returns its argument twice as a tuple, [add] adds its two arguments. *)
Definition succ_fn : value := VFunc {| fn_id := 1; fn_name := Some "succ" |}.
Definition dup_fn : value := VFunc {| fn_id := 2; fn_name := Some "dup" |}.
Definition add_fn : value := VFunc {| fn_id := 3; fn_name := Some "add" |}.

Definition demo_call (layer : value) (args : list value) : M value :=
  match layer, args with
  | VFunc {| fn_id := 1 |}, [VInt x] => ret (VInt (x + 1))
  | VFunc {| fn_id := 2 |}, [x] => ret (VTuple [x; x])
  | VFunc {| fn_id := 3 |}, [VInt x; VInt y] => ret (VInt (x + y))
  | _, _ => raise (TypeError "bad call")
  end.

Definition demo_sequential (layers : list value) : LinkObj :=
  demo_link Sequential_class (KSequential [] layers 0) ∅.

(** A link with one initialized parameter [W], as the only layer of a
    Sequential. *)
Definition demo_array : Array :=
  {| arr_device := None; arr_shape := [2%Z]; arr_items := [1%Z; 2%Z] |}.

Definition demo_W : ParameterObj :=
  {| p_name := Some "W"; p_data := Some 0; p_grad := None; p_update_rule := None |}.

Definition demo_W_link : LinkObj :=
  {| cls := Linear_class; _params := {["W"]}; _persistent := ∅; _cpu := true;
     _device_id := None; _within_init_scope := false; name := Some "0";
     attrs := {["W" := VRef 1]}; ext := KLink |}.

Definition demo_W_sequential : LinkObj :=
  demo_link Sequential_class (KSequential [2] [VRef 2] 0) ∅.

Definition demo_heap : heap :=
  [OArray demo_array; OParam demo_W; OLink demo_W_link; OLink demo_W_sequential].

(** The program that builds [demo_heap]. *)
Definition demo_model : M addr :=
  do x <- alloc (OArray demo_array);
  do w <- alloc (OParam {| p_name := None; p_data := Some x; p_grad := None;
                           p_update_rule := None |});
  do link <- Link___init__ Linear_class;
  Link_init_scope link (Link___setattr__ link "W" (VRef w));;
  Sequential___init__ Sequential_class [VRef link].

(** A link on a device with a parameter whose array is on the device. *)
Definition demo_gpu_heap : heap :=
  [OArray {| arr_device := Some 0%Z; arr_shape := [2%Z]; arr_items := [1%Z; 2%Z] |};
   OParam demo_W;
   OLink (set_device_id (Some 0%Z) (set_cpu false demo_W_link))].

(** * Further parts of the module *)

(** ** Traversals of the link hierarchy

    The generators [namedparams], [links], [namedlinks] and [children] as
    the lists they yield, with the same dispatch on the class of the
    receiver as [params]. *)

Fixpoint Link_namedparams_loop (self : addr) (names : list string)
    (include_uninit : bool) : M (list (string * addr)) :=
  match names with
  | [] => ret []
  | nm :: rest =>
      do v <- dict_get self nm;
      do p <- as_param v;
      do po <- get_param p;
      do ps <- Link_namedparams_loop self rest include_uninit;
      if include_uninit || bool_decide (is_Some (p_data po))
      then ret ((("/" ++ nm)%string, p) :: ps) else ret ps
  end.

Definition Link_namedparams (self : addr) (include_uninit : bool)
    : M (list (string * addr)) :=
  do l <- get_link self;
  Link_namedparams_loop self (elements (_params l)) include_uninit.

(** [for path, x in child.method(): yield prefix + path, x] *)
Definition with_prefix {A} (prefix : string) (xs : list (string * A))
    : list (string * A) :=
  (λ px, ((prefix ++ px.1)%string, px.2)) <$> xs.

Fixpoint concat_named {K A} (child_named : K → addr → M (list (string * A)))
    (prefix : K → string) (children : list (K * addr))
    : M (list (string * A)) :=
  match children with
  | [] => ret []
  | (k, c) :: rest =>
      do ps <- child_named k c;
      do qs <- concat_named child_named prefix rest;
      ret (with_prefix (prefix k) ps ++ qs)
  end.

(** The children of a Chain with the names they are registered under. *)
Definition Chain_named_children (self : addr) : M (list (string * addr)) :=
  do ch <- Chain_children_names self;
  do cs <- Chain_child_links self (elements ch);
  ret (zip (elements ch) cs).

(** [enumerate(self._children)] *)
Definition ChainList_enumerate (self : addr) : M (list (nat * addr)) :=
  do cs <- ChainList_children self;
  ret (zip (seq 0 (length cs)) cs).

Definition Chain_namedparams
    (child_namedparams : addr → bool → M (list (string * addr)))
    (self : addr) (include_uninit : bool) : M (list (string * addr)) :=
  do own <- Link_namedparams self include_uninit;
  do cs <- Chain_named_children self;
  do sub <- concat_named (λ _ c, child_namedparams c include_uninit)
              (λ nm, ("/" ++ nm)%string) cs;
  ret (own ++ sub).

Definition ChainList_namedparams
    (child_namedparams : addr → bool → M (list (string * addr)))
    (self : addr) (include_uninit : bool) : M (list (string * addr)) :=
  do own <- Link_namedparams self include_uninit;
  do cs <- ChainList_enumerate self;
  do sub <- concat_named (λ _ c, child_namedparams c include_uninit)
              (λ idx, ("/" ++ str idx)%string) cs;
  ret (own ++ sub).

Fixpoint namedparams (fuel : nat) (self : addr) (include_uninit : bool)
    : M (list (string * addr)) :=
  match fuel with
  | 0 => raise RecursionError
  | S fuel' =>
      do l <- get_link self;
      match ext l with
      | KLink => Link_namedparams self include_uninit
      | KChain _ => Chain_namedparams (namedparams fuel') self include_uninit
      | KChainList _ => ChainList_namedparams (namedparams fuel') self include_uninit
      | KSequential _ _ _ =>
          ChainList_namedparams (namedparams fuel') self include_uninit
      end
  end.

Definition Link_links (self : addr) (skipself : bool) : M (list addr) :=
  ret (if skipself then [] else [self]).

Definition Link_namedlinks (self : addr) (skipself : bool)
    : M (list (string * addr)) :=
  ret (if skipself then [] else [("/", self)]).

Definition Link_children (self : addr) : M (list addr) := ret [].

Definition Chain_children (self : addr) : M (list addr) :=
  do ch <- Chain_children_names self;
  Chain_child_links self (elements ch).

Definition Chain_links (child_links : addr → bool → M (list addr))
    (self : addr) (skipself : bool) : M (list addr) :=
  do cs <- Chain_children self;
  do sub <- concat_params (λ c, child_links c false) cs;
  ret ((if skipself then [] else [self]) ++ sub).

Definition ChainList_links (child_links : addr → bool → M (list addr))
    (self : addr) (skipself : bool) : M (list addr) :=
  do cs <- ChainList_children self;
  do sub <- concat_params (λ c, child_links c false) cs;
  ret ((if skipself then [] else [self]) ++ sub).

Fixpoint links (fuel : nat) (self : addr) (skipself : bool) : M (list addr) :=
  match fuel with
  | 0 => raise RecursionError
  | S fuel' =>
      do l <- get_link self;
      match ext l with
      | KLink => Link_links self skipself
      | KChain _ => Chain_links (links fuel') self skipself
      | KChainList _ => ChainList_links (links fuel') self skipself
      | KSequential _ _ _ => ChainList_links (links fuel') self skipself
      end
  end.

(** [yield prefix, child] and then the links below the child, from
    [child.namedlinks(True)], under the same prefix. *)
Fixpoint concat_namedlinks {K}
    (child_namedlinks : addr → bool → M (list (string * addr)))
    (prefix : K → string) (children : list (K * addr))
    : M (list (string * addr)) :=
  match children with
  | [] => ret []
  | (k, c) :: rest =>
      do ps <- child_namedlinks c true;
      do qs <- concat_namedlinks child_namedlinks prefix rest;
      ret ((prefix k, c) :: with_prefix (prefix k) ps ++ qs)
  end.

Definition Chain_namedlinks
    (child_namedlinks : addr → bool → M (list (string * addr)))
    (self : addr) (skipself : bool) : M (list (string * addr)) :=
  do cs <- Chain_named_children self;
  do sub <- concat_namedlinks child_namedlinks (λ nm, ("/" ++ nm)%string) cs;
  ret ((if skipself then [] else [("/", self)]) ++ sub).

Definition ChainList_namedlinks
    (child_namedlinks : addr → bool → M (list (string * addr)))
    (self : addr) (skipself : bool) : M (list (string * addr)) :=
  do cs <- ChainList_enumerate self;
  do sub <- concat_namedlinks child_namedlinks (λ idx, ("/" ++ str idx)%string) cs;
  ret ((if skipself then [] else [("/", self)]) ++ sub).

Fixpoint namedlinks (fuel : nat) (self : addr) (skipself : bool)
    : M (list (string * addr)) :=
  match fuel with
  | 0 => raise RecursionError
  | S fuel' =>
      do l <- get_link self;
      match ext l with
      | KLink => Link_namedlinks self skipself
      | KChain _ => Chain_namedlinks (namedlinks fuel') self skipself
      | KChainList _ => ChainList_namedlinks (namedlinks fuel') self skipself
      | KSequential _ _ _ => ChainList_namedlinks (namedlinks fuel') self skipself
      end
  end.

(** ** Loops over [self.params()]

    [for param in self.params(): body]: the generator runs as far as the
    next parameter, then [body] runs on it, and so on in turns.  [body]
    answers [Some r] for [return r], which leaves the loop and the
    generator, and [None] to go on.  The names and the children are those
    held when their loop starts; the attributes are read as the generator
    reaches them. *)
Fixpoint Link_params_visit {A} (self : addr) (names : list string)
    (include_uninit : bool) (body : addr → M (option A)) : M (option A) :=
  match names with
  | [] => ret None
  | nm :: rest =>
      do v <- dict_get self nm;
      do p <- as_param v;
      do po <- get_param p;
      do r <- (if include_uninit || bool_decide (is_Some (p_data po))
               then body p else ret None);
      match r with
      | Some x => ret (Some x)
      | None => Link_params_visit self rest include_uninit body
      end
  end.

Definition Link_params_for {A} (self : addr) (include_uninit : bool)
    (body : addr → M (option A)) : M (option A) :=
  do l <- get_link self;
  Link_params_visit self (elements (_params l)) include_uninit body.

(** [for name in self._children: for param in d[name].params(): body] *)
Fixpoint Chain_children_visit {A} (child_for : addr → M (option A))
    (self : addr) (names : list string) : M (option A) :=
  match names with
  | [] => ret None
  | nm :: rest =>
      do v <- dict_get self nm;
      match v with
      | VRef c =>
          do r <- child_for c;
          match r with
          | Some x => ret (Some x)
          | None => Chain_children_visit child_for self rest
          end
      | _ => raise (AttributeError "params")
      end
  end.

(** [for link in self._children: for param in link.params(): body] *)
Fixpoint ChainList_children_visit {A} (child_for : addr → M (option A))
    (children : list addr) : M (option A) :=
  match children with
  | [] => ret None
  | c :: rest =>
      do r <- child_for c;
      match r with
      | Some x => ret (Some x)
      | None => ChainList_children_visit child_for rest
      end
  end.

Definition Chain_params_for {A}
    (child_for : addr → bool → (addr → M (option A)) → M (option A))
    (self : addr) (include_uninit : bool) (body : addr → M (option A))
    : M (option A) :=
  do r <- Link_params_for self include_uninit body;
  match r with
  | Some x => ret (Some x)
  | None =>
      do ch <- Chain_children_names self;
      Chain_children_visit (λ c, child_for c include_uninit body) self
        (elements ch)
  end.

Definition ChainList_params_for {A}
    (child_for : addr → bool → (addr → M (option A)) → M (option A))
    (self : addr) (include_uninit : bool) (body : addr → M (option A))
    : M (option A) :=
  do r <- Link_params_for self include_uninit body;
  match r with
  | Some x => ret (Some x)
  | None =>
      do cs <- ChainList_children self;
      ChainList_children_visit (λ c, child_for c include_uninit body) cs
  end.

Fixpoint params_for {A} (fuel : nat) (self : addr) (include_uninit : bool)
    (body : addr → M (option A)) : M (option A) :=
  match fuel with
  | 0 => raise RecursionError
  | S fuel' =>
      do l <- get_link self;
      match ext l with
      | KLink => Link_params_for self include_uninit body
      | KChain _ => Chain_params_for (params_for fuel') self include_uninit body
      | KChainList _ =>
          ChainList_params_for (params_for fuel') self include_uninit body
      | KSequential _ _ _ =>
          ChainList_params_for (params_for fuel') self include_uninit body
      end
  end.

Definition set_p_update_rule (r : option bool) (p : ParameterObj)
    : ParameterObj :=
  {| p_name := p_name p; p_data := p_data p; p_grad := p_grad p;
     p_update_rule := r |}.

(** [param.cleargrad()] is the [grad] setter with [None]. *)
Definition Link_cleargrads (fuel : nat) (self : addr) : M unit :=
  params_for fuel self true (λ param,
    Parameter_set_grad param None;;
    ret (@None unit));;
  ret tt.

(** [rule = param.update_rule; if rule is not None: rule.enabled = flag] *)
Definition set_rule_enabled (flag : bool) (param : addr) : M unit :=
  do po <- get_param param;
  match p_update_rule po with
  | Some _ => update_param param (set_p_update_rule (Some flag))
  | None => ret tt
  end.

Definition Link_enable_update (fuel : nat) (self : addr) : M unit :=
  params_for fuel self true (λ param,
    set_rule_enabled true param;;
    ret (@None unit));;
  ret tt.

Definition Link_disable_update (fuel : nat) (self : addr) : M unit :=
  params_for fuel self true (λ param,
    set_rule_enabled false param;;
    ret (@None unit));;
  ret tt.

Definition Link_update_enabled (fuel : nat) (self : addr) : M bool :=
  do r <- params_for fuel self true (λ param,
            do po <- get_param param;
            match p_update_rule po with
            | Some true => ret (Some true)
            | _ => ret None
            end);
  match r with
  | Some b => ret b
  | None => ret false
  end.

(** ** The list interface of ChainList *)

(** [self._children[index]] *)
Definition ChainList___getitem__ (self : addr) (index : Z) : M addr :=
  do ch <- ChainList_children self;
  match py_index (length ch) index with
  | Some j => match ch !! j with
              | Some c => ret c
              | None => raise (IndexError "list index out of range")
              end
  | None => raise (IndexError "list index out of range")
  end.

(** ** The list interface of Sequential *)

(** [x == y] on layers: functions and links define no [__eq__], they are
    equal when they are the same object. *)
Definition layer_eq (x y : value) : bool := value_is x y.

(** [item in self._layers] *)
Definition Sequential___contains__ (self : addr) (item : value) : M bool :=
  do ls <- Sequential_layers self;
  ret (existsb (λ e, layer_eq e item) ls).

(** The bound of a slice [l[start:end]] of a list of [n] items: [None] is
    the default, an integer is clipped to [0..n] like an insert index. *)
Definition py_slice_bound (n : nat) (default : nat) (i : option Z) : nat :=
  match i with
  | None => default
  | Some i => py_insert_index n i
  end.

(** [l[start:end]] *)
Definition py_slice {A} (l : list A) (start end_ : option Z) : list A :=
  let lo := py_slice_bound (length l) 0 start in
  let hi := py_slice_bound (length l) (length l) end_ in
  take (hi - lo) (drop lo l).

(** [l.index(x)]: the first position that holds [x] *)
Fixpoint list_index (x : value) (l : list value) : option nat :=
  match l with
  | [] => None
  | e :: rest =>
      if layer_eq e x then Some 0 else S <$> list_index x rest
  end.

Definition Sequential_index (self : addr) (layer : value)
    (start end_ : option Z) : M nat :=
  do ls <- Sequential_layers self;
  match list_index layer (py_slice ls start end_) with
  | Some i => ret i
  | None => raise (ValueError "layer is not in list")
  end.

Definition Sequential_count (self : addr) (layer : value) : M nat :=
  do ls <- Sequential_layers self;
  ret (length (filter (λ e, layer_eq e layer = true) ls)).

Definition Sequential_remove (self : addr) (layer : value) : M unit :=
  do c <- Sequential___contains__ self layer;
  if c then
    do i <- Sequential_index self layer None None;
    Sequential___delitem__ self (Z.of_nat i)
  else
    raise (ValueError "There is no layer object that is same as layer").

(** [layer.__class__.__name__] for a Link, [layer.__name__] for another
    layer *)
Definition layer_type_name (layer : value) : M string :=
  do isl <- is_Link layer;
  match layer with
  | VRef a =>
      if isl then do l <- get_link a; ret (cls_name (cls l))
      else raise (AttributeError "__name__")
  | VFunc f =>
      match fn_name f with
      | Some nm => ret nm
      | None => raise (AttributeError "__name__")
      end
  | _ => raise (AttributeError "__name__")
  end.

Fixpoint layer_type_names (layers : list value) : M (list (string * value)) :=
  match layers with
  | [] => ret []
  | layer :: rest =>
      do nm <- layer_type_name layer;
      do names <- layer_type_names rest;
      ret ((nm, layer) :: names)
  end.

Definition Sequential_remove_by_layer_type (self : addr) (type_name : string)
    : M unit :=
  do ls <- Sequential_layers self;
  do names <- layer_type_names ls;
  for_each names (λ entry,
    if bool_decide (type_name = entry.1)
    then Sequential_remove self entry.2
    else ret tt).

Fixpoint Sequential_count_by_layer_type_loop (layers : list value)
    (type_name : string) (num : nat) : M nat :=
  match layers with
  | [] => ret num
  | layer :: rest =>
      do nm <- layer_type_name layer;
      Sequential_count_by_layer_type_loop rest type_name
        (if bool_decide (nm = type_name) then S num else num)
  end.

Definition Sequential_count_by_layer_type (self : addr) (type_name : string)
    : M nat :=
  do ls <- Sequential_layers self;
  Sequential_count_by_layer_type_loop ls type_name 0.

(** [isinstance(other, Sequential)] *)
Definition is_Sequential (v : value) : M bool :=
  λ h, match v with
       | VRef a => match h !! a with
                   | Some (OLink l) => (Ok (is_sequential (ext l)), h)
                   | _ => (Ok false, h)
                   end
       | _ => (Ok false, h)
       end.

Definition Sequential___add__ (self : addr) (other : value) : M addr :=
  do iss <- is_Sequential other;
  if iss then
    match other with
    | VRef o =>
        do ret_ <- Sequential___init__ Sequential_class [];
        do ls <- Sequential_layers self;
        for_each ls (Sequential_append ret_);;
        do ls' <- Sequential_layers o;
        for_each ls' (Sequential_append ret_);;
        ret ret_
    | _ => raise (TypeError "a Sequential is an object")
    end
  else
    do c <- callable other;
    if c then Sequential_append self other;; ret self
    else raise (ValueError
                  "add (+) operator is support only callable objects").

Definition Sequential___radd__ (self : addr) (other : value) : M addr :=
  do c <- callable other;
  if c then
    do s <- Sequential___init__ Sequential_class [other];
    Sequential___add__ s (VRef self)
  else raise (ValueError
                "add (+) operator is support only callable objects").

(** [for layer in other: self.append(layer)]: the iterator reads the
    list of [other] at each step, so that it sees what the loop appends when
    [other] is [self].  [fuel] bounds the number of steps. *)
Fixpoint Sequential___iadd___loop (fuel : nat) (self other : addr) (i : nat)
    : M unit :=
  match fuel with
  | 0 => raise RecursionError
  | S fuel' =>
      do ls <- Sequential_layers other;
      match ls !! i with
      | None => ret tt
      | Some layer =>
          Sequential_append self layer;;
          Sequential___iadd___loop fuel' self other (S i)
      end
  end.

Definition Sequential___iadd__ (fuel : nat) (self : addr) (other : value)
    : M addr :=
  do iss <- is_Sequential other;
  if iss then
    match other with
    | VRef o => Sequential___iadd___loop fuel self o 0;; ret self
    | _ => raise (TypeError "a Sequential is an object")
    end
  else
    do c <- callable other;
    if c then Sequential_append self other;; ret self
    else raise (ValueError
                  "add (+) operator is support only callable objects").

(** The body of the loops of [__imul__].  [layer] is the local variable
    of that name: it has no value until the first Link layer is copied, and
    copying a layer that is no Link reads it. *)
Fixpoint Sequential___imul___inner (fuel : nat) (self : addr)
    (indices : list nat) (layer : option value) : M (option value) :=
  match indices with
  | [] => ret layer
  | i :: rest =>
      do item <- Sequential___getitem__ self (Z.of_nat i);
      do isl <- is_Link item;
      do layer' <-
        (if isl then
           do item' <- Sequential___getitem__ self (Z.of_nat i);
           do r <- deepcopy fuel item' ∅;
           (match r.1 with
            | VRef a =>
                do ps <- params fuel a false;
                for_each ps (λ p,
                  do shape <- Parameter_shape p;
                  Parameter_initialize p shape)
            | _ => raise (TypeError "deepcopy of a link is a link")
            end);;
           ret r.1
         else
           match layer with
           | None => raise (UnboundLocalError "layer")
           | Some v => copy_copy v
           end);
      Sequential_append self layer';;
      Sequential___imul___inner fuel self rest (Some layer')
  end.

Fixpoint Sequential___imul___outer (fuel : nat) (self : addr) (times : nat)
    (n_layers : nat) (layer : option value) : M (option value) :=
  match times with
  | 0 => ret layer
  | S times' =>
      do layer' <- Sequential___imul___inner fuel self (seq 0 n_layers) layer;
      Sequential___imul___outer fuel self times' n_layers layer'
  end.

Definition Sequential___imul__ (fuel : nat) (self : addr) (n_repeat : Z)
    : M addr :=
  if bool_decide (n_repeat ≤ 0)%Z then
    Sequential_clear self;;
    ret self
  else
    do n_layers <- Sequential___len__ self;
    Sequential___imul___outer fuel self (Z.to_nat (n_repeat - 1)) n_layers None;;
    ret self.

(** [sort] and [reverse] are not supported. *)
Definition Sequential_sort (self : addr) : M unit := raise NotImplementedError.
Definition Sequential_reverse (self : addr) : M unit := raise NotImplementedError.

(** ** Predicates of the properties of Sequential *)

(** The object at [self] is a Sequential with these children, layers and
    counter of anonymous functions. *)
Definition Sequential_at (h : heap) (self : addr) (ch : list addr)
    (ls : list value) (n : Z) : Prop :=
  ∃ l, h !! self = Some (OLink l) ∧ ext l = KSequential ch ls n.

(** The link that a layer is, if it is one. *)
Definition link_of (h : heap) (v : value) : option addr :=
  match v with
  | VRef a => match h !! a with
              | Some (OLink _) => Some a
              | _ => None
              end
  | _ => None
  end.

(** The layers that are links, in the order of the layers. *)
Definition link_layers (h : heap) (ls : list value) : list addr :=
  omap (link_of h) ls.

(** Two states of an object that differ at most in the [name] of a link
    and, when [own] holds, in its children, layers and counter. *)
Definition alike (own : bool) (o o' : obj) : Prop :=
  match o, o' with
  | OLink l, OLink l' =>
      if own then l' = set_ext (ext l') (set_name (name l') l)
      else l' = set_name (name l') l
  | _, _ => o' = o
  end.

(** Between [h] and [h'] the links were at most renamed, and the link at
    [self] at most changed its children, layers and counter. *)
Definition evolves (self : addr) (h h' : heap) : Prop :=
  length h' = length h ∧
  ∀ a o, h !! a = Some o →
    ∃ o', h' !! a = Some o' ∧ alike (bool_decide (a = self)) o o'.

(** The counter of a Sequential counts its anonymous layers, and its
    children are its Link layers, each as often as it occurs. *)
Definition Sequential_consistent (self : addr) (h : heap) : Prop :=
  ∃ ch ls n, Sequential_at h self ch ls n ∧
    n = Z.of_nat (count_lambda ls) ∧ ch ≡ₚ link_layers h ls.

(** Every layer of the Sequential is callable. *)
Definition Sequential_callable (self : addr) (h : heap) : Prop :=
  ∃ ch ls n, Sequential_at h self ch ls n ∧
    Forall (λ v, (callable v h).1 = Ok true) ls.

(** The class name of a Link layer, the function name of another
    layer. *)
Definition type_name_of (h : heap) (v : value) : option string :=
  match v with
  | VRef a => match h !! a with
              | Some (OLink l) => Some (cls_name (cls l))
              | _ => None
              end
  | VFunc f => fn_name f
  | _ => None
  end.

(** The items at the odd positions of a list. *)
Fixpoint odds {A} (l : list A) : list A :=
  match l with
  | _ :: y :: rest => y :: odds rest
  | _ => []
  end.

(** Calls of the methods that change the layers of a Sequential one at a
    time. *)
Inductive seq_op :=
| SInsert (i : Z) (layer : value)
| SAppend (layer : value)
| SExtend (layers : list value)
| SSetitem (i : Z) (layer : value)
| SDelitem (i : Z)
| SPop (i : Z)
| SRemove (layer : value).

Definition run_seq_op (self : addr) (op : seq_op) : M unit :=
  match op with
  | SInsert i layer => Sequential_insert self i layer
  | SAppend layer => Sequential_append self layer
  | SExtend layers => Sequential_extend self layers
  | SSetitem i layer => Sequential___setitem__ self i layer
  | SDelitem i => Sequential___delitem__ self i
  | SPop i => Sequential_pop self i;; ret tt
  | SRemove layer => Sequential_remove self layer
  end.

(** A client program: the calls run in order, and the client goes on
    after a call that raises. *)
Fixpoint run_seq_ops (self : addr) (ops : list seq_op) (h : heap) : heap :=
  match ops with
  | [] => h
  | op :: rest => run_seq_ops self rest (run_seq_op self op h).2
  end.

(** ** Predicates of the properties of Chain *)

(** Every registered child name holds a Link. *)
Definition children_registered (h : heap) (l : LinkObj) (ch : gset string)
    : Prop :=
  ∀ nm, nm ∈ ch →
    ∃ c lc, attrs l !! nm = Some (VRef c) ∧ h !! c = Some (OLink lc).

(** ** Predicates of the properties of the loops over parameters *)

(** [f] applied to the Parameter at [p]. *)
Definition alter_param (f : ParameterObj → ParameterObj) (h : heap) (p : addr)
    : heap :=
  match h !! p with
  | Some (OParam po) => <[p := OParam (f po)]> h
  | _ => h
  end.

Definition apply_all (f : ParameterObj → ParameterObj) (ps : list addr)
    (h : heap) : heap :=
  foldl (alter_param f) h ps.

(** Two states of an object that differ at most in the name, the
    gradient and the update rule of a Parameter. *)
Definition tweaked (o o' : obj) : Prop :=
  match o, o' with
  | OParam p, OParam p' => p_data p' = p_data p
  | _, _ => o' = o
  end.

Definition tweaks (h h' : heap) : Prop :=
  length h' = length h ∧
  ∀ a o, h !! a = Some o → ∃ o', h' !! a = Some o' ∧ tweaked o o'.

(** What [rule.enabled = flag] makes of a Parameter. *)
Definition with_rule_enabled (flag : bool) (po : ParameterObj) : ParameterObj :=
  match p_update_rule po with
  | Some _ => set_p_update_rule (Some flag) po
  | None => po
  end.

(** The loop [for param in ps: body] for a body that at [p] in [h]
    answers [g p h] and leaves the heap [T p h]: the answer that ends the
    loop, if any, and the final heap. *)
Fixpoint run_visit {A} (g : addr → heap → option A) (T : addr → heap → heap)
    (ps : list addr) (h : heap) : option A * heap :=
  match ps with
  | [] => (None, h)
  | p :: rest =>
      match g p h with
      | Some x => (Some x, T p h)
      | None => run_visit g T rest (T p h)
      end
  end.

(** A computation that reads the heap only, and only what [tweaks]
    keeps. *)
Definition reads_only {A} (m : M A) : Prop :=
  (∀ h, (m h).2 = h) ∧ (∀ h h', tweaks h h' → (m h).1 = (m h').1).

(** * Properties *)

(** ** Running the monad *)

Lemma bind_run {A B} (m : M A) (k : A → M B) h a h1 :
  m h = (Ok a, h1) → bind m k h = k a h1.
Proof. intros E. unfold bind. by rewrite E. Qed.

Lemma bind_raise {A B} (m : M A) (k : A → M B) h e h1 :
  m h = (Raise e, h1) → bind m k h = (Raise e, h1).
Proof. intros E. unfold bind. by rewrite E. Qed.

Lemma bind_ok_inv {A B} (m : M A) (k : A → M B) h b h' :
  bind m k h = (Ok b, h') →
  ∃ a h1, m h = (Ok a, h1) ∧ k a h1 = (Ok b, h').
Proof.
  unfold bind. destruct (m h) as [[a|e] h1] eqn:E; intros R.
  - by exists a, h1.
  - discriminate.
Qed.

Lemma bind_assoc {A B C} (m : M A) (k1 : A → M B) (k2 : B → M C) h :
  bind (bind m k1) k2 h = bind m (λ x, bind (k1 x) k2) h.
Proof. unfold bind. by destruct (m h) as [[]?]. Qed.

Lemma get_obj_run h a o : h !! a = Some o → get_obj a h = (Ok o, h).
Proof. intros E. unfold get_obj. by rewrite E. Qed.

Lemma get_link_run h a l : h !! a = Some (OLink l) → get_link a h = (Ok l, h).
Proof. intros E. unfold get_link. by rewrite (bind_run _ _ _ _ _ (get_obj_run _ _ _ E)). Qed.

Lemma get_param_run h a p : h !! a = Some (OParam p) → get_param a h = (Ok p, h).
Proof. intros E. unfold get_param. by rewrite (bind_run _ _ _ _ _ (get_obj_run _ _ _ E)). Qed.

Lemma get_link_inv h a r h' :
  get_link a h = (r, h') →
  h' = h ∧ ∀ l, r = Ok l → h !! a = Some (OLink l).
Proof.
  unfold get_link, bind, get_obj. destruct (h !! a) as [[x|p|l]|] eqn:E; cbn;
    intros [= <- <-]; split; try done; by intros ? [= ->].
Qed.

Lemma update_link_run h a l f :
  h !! a = Some (OLink l) →
  update_link a f h = (Ok tt, <[a := OLink (f l)]> h).
Proof. intros E. unfold update_link. by rewrite (bind_run _ _ _ _ _ (get_link_run _ _ _ E)). Qed.

Lemma update_param_run h a p f :
  h !! a = Some (OParam p) →
  update_param a f h = (Ok tt, <[a := OParam (f p)]> h).
Proof. intros E. unfold update_param. by rewrite (bind_run _ _ _ _ _ (get_param_run _ _ _ E)). Qed.

Lemma lookup_updated (h : heap) a o o' :
  h !! a = Some o → <[a := o']> h !! a = Some o'.
Proof. intros E. apply list_lookup_insert_eq. by eapply lookup_lt_Some. Qed.

(** Two updates of one link in a row are one update. *)
Lemma update_link_twice a f g h :
  (update_link a f;; update_link a g) h = update_link a (λ l, g (f l)) h.
Proof.
  destruct (h !! a) as [[x|p|l]|] eqn:E.
  - unfold update_link, get_link, bind. by rewrite (get_obj_run _ _ _ E).
  - unfold update_link, get_link, bind. by rewrite (get_obj_run _ _ _ E).
  - rewrite (bind_run _ _ _ _ _ (update_link_run _ _ _ f E)). cbn beta.
    rewrite (update_link_run _ _ (f l) g (lookup_updated _ _ _ _ E)).
    rewrite (update_link_run _ _ l _ E). by rewrite list_insert_insert_eq.
  - unfold update_link, get_link, bind, get_obj. by rewrite E.
Qed.

(** ** Heap properties kept by a computation *)

Section preserves.
Context (I : heap → Prop).

Lemma preserves_ret {A} (a : A) : preserves I (ret a).
Proof. by intros h r h' HI [= <- <-]. Qed.

Lemma preserves_raise {A} e : preserves I (@raise A e).
Proof. by intros h r h' HI [= <- <-]. Qed.

Lemma preserves_bind {A B} (m : M A) (k : A → M B) :
  preserves I m → (∀ a, preserves I (k a)) → preserves I (bind m k).
Proof.
  intros Hm Hk h r h' HI. unfold bind.
  destruct (m h) as [[a|e] h1] eqn:E.
  - apply Hk. by eapply Hm.
  - intros [= <- <-]. by eapply Hm.
Qed.

Lemma preserves_try_finally {A} (m : M A) fin :
  preserves I m → preserves I fin → preserves I (try_finally m fin).
Proof.
  intros Hm Hf h r h' HI. unfold try_finally.
  destruct (m h) as [r1 h1] eqn:E.
  destruct (fin h1) as [[[]|e] h2] eqn:F; intros [= <- <-];
    eapply Hf; try exact F; by eapply Hm.
Qed.

Lemma preserves_for_each {A} (xs : list A) body :
  (∀ x, preserves I (body x)) → preserves I (for_each xs body).
Proof.
  intros Hb. induction xs as [|x xs IH]; cbn.
  - apply preserves_ret.
  - apply preserves_bind; [apply Hb | by intros _].
Qed.

Lemma preserves_pure {A} (m : M A) :
  (∀ h, (m h).2 = h) → preserves I m.
Proof. intros Hp h r h' HI E. specialize (Hp h). rewrite E in Hp. by subst. Qed.

Lemma preserves_ext {A} (m m' : M A) :
  (∀ h, m h = m' h) → preserves I m' → preserves I m.
Proof. intros E Hm h r h' HI R. rewrite E in R. by eapply Hm. Qed.
End preserves.

Lemma get_obj_pure a h : (get_obj a h).2 = h.
Proof. unfold get_obj. by destruct (h !! a). Qed.

Lemma get_link_pure a h : (get_link a h).2 = h.
Proof. unfold get_link, bind, get_obj. by destruct (h !! a) as [[]|]. Qed.

Lemma get_param_pure a h : (get_param a h).2 = h.
Proof. unfold get_param, bind, get_obj. by destruct (h !! a) as [[]|]. Qed.

Lemma get_array_pure a h : (get_array a h).2 = h.
Proof. unfold get_array, bind, get_obj. by destruct (h !! a) as [[]|]. Qed.

Lemma is_Parameter_pure v h : (is_Parameter v h).2 = h.
Proof. unfold is_Parameter. destruct v; try done. by destruct (h !! a) as [[]|]. Qed.

Lemma is_Link_pure v h : (is_Link v h).2 = h.
Proof. unfold is_Link. destruct v; try done. by destruct (h !! a) as [[]|]. Qed.

Lemma as_param_pure v h : (as_param v h).2 = h.
Proof.
  unfold as_param. destruct v; try done. unfold bind.
  pose proof (get_param_pure a h). by destruct (get_param a h) as [[]?]; simplify_eq/=.
Qed.

(** ** C1: parameter names and persistent names stay disjoint *)

Lemma disjoint_alloc o : obj_disjoint o → preserves heap_disjoint (alloc o).
Proof.
  intros Ho h r h' HI [= <- <-]. apply Forall_app. split; [done|]. by constructor.
Qed.

Lemma disjoint_put a o : obj_disjoint o → preserves heap_disjoint (put_obj a o).
Proof. intros Ho h r h' HI [= <- <-]. by apply Forall_insert. Qed.

Lemma disjoint_update_param a f : preserves heap_disjoint (update_param a f).
Proof.
  apply preserves_bind; [apply preserves_pure, get_param_pure|].
  intros p. by apply disjoint_put.
Qed.

Lemma disjoint_update_link a f :
  (∀ l, _params l ## _persistent l → _params (f l) ## _persistent (f l)) →
  preserves heap_disjoint (update_link a f).
Proof.
  intros Hf h r h' HI. unfold update_link, bind.
  destruct (get_link a h) as [[l|e] h1] eqn:E;
    destruct (get_link_inv _ _ _ _ E) as [-> Hl].
  - intros [= <- <-]. apply Forall_insert; [done|].
    apply Hf. by apply (Forall_lookup_1 _ _ _ _ HI (Hl _ eq_refl)).
  - by intros [= <- <-].
Qed.

Lemma disjoint_cuda_to_gpu a d : preserves heap_disjoint (cuda_to_gpu a d).
Proof.
  apply preserves_bind; [apply preserves_pure, get_array_pure|].
  intros x. destruct (arr_device x); [apply preserves_ret | by apply disjoint_alloc].
Qed.

Lemma disjoint_cuda_to_cpu a : preserves heap_disjoint (cuda_to_cpu a).
Proof.
  apply preserves_bind; [apply preserves_pure, get_array_pure|].
  intros x. destruct (arr_device x); [|apply preserves_ret].
  apply preserves_bind; [apply preserves_pure, get_array_pure|].
  intros y. by apply disjoint_alloc.
Qed.

Lemma disjoint_move_opt move o :
  (∀ a, preserves heap_disjoint (move a)) → preserves heap_disjoint (move_opt move o).
Proof.
  intros Hm. destruct o; cbn; [|apply preserves_ret].
  apply preserves_bind; [apply Hm | intros; apply preserves_ret].
Qed.

Lemma disjoint_Parameter_to_gpu a d : preserves heap_disjoint (Parameter_to_gpu a d).
Proof.
  apply preserves_bind; [apply preserves_pure, get_param_pure|]. intros p.
  apply preserves_bind; [apply disjoint_move_opt; intros; apply disjoint_cuda_to_gpu|].
  intros x.
  apply preserves_bind; [apply disjoint_move_opt; intros; apply disjoint_cuda_to_gpu|].
  intros y. apply disjoint_update_param.
Qed.

(** The two set updates of a registration, taken together. *)
Lemma disjoint_register a (f g : LinkObj → LinkObj) :
  (∀ l, _params l ## _persistent l → _params (g (f l)) ## _persistent (g (f l))) →
  preserves heap_disjoint (update_link a f;; update_link a g).
Proof.
  intros H. eapply preserves_ext; [apply update_link_twice|].
  by apply disjoint_update_link.
Qed.

Lemma disjoint_dict_set a attr v : preserves heap_disjoint (dict_set a attr v).
Proof. by apply disjoint_update_link. Qed.

Lemma disjoint_Link___setattr__ self attr v :
  preserves heap_disjoint (Link___setattr__ self attr v).
Proof.
  apply preserves_bind.
  { apply preserves_bind; [apply preserves_pure, get_link_pure|].
    intros; apply preserves_ret. }
  intros scope.
  apply preserves_bind; [apply preserves_pure, is_Parameter_pure|]. intros isp.
  apply preserves_bind; [|intros; apply disjoint_dict_set].
  destruct (scope && isp); [|apply preserves_ret].
  apply preserves_bind; [apply preserves_pure, as_param_pure|]. intros p.
  apply preserves_bind; [apply disjoint_update_param|]. intros _.
  apply preserves_bind; [apply preserves_pure, get_link_pure|]. intros l.
  apply preserves_bind.
  { destruct (negb (_cpu l)); [apply disjoint_Parameter_to_gpu | apply preserves_ret]. }
  intros _. apply disjoint_register. intros l0 Hl0; cbn. set_solver.
Qed.

Lemma disjoint_object_delattr self attr :
  preserves heap_disjoint (object_delattr self attr).
Proof.
  apply preserves_bind; [apply preserves_pure, get_link_pure|]. intros l.
  case_bool_decide; [by apply disjoint_update_link | apply preserves_raise].
Qed.

Lemma disjoint_Link___delattr__ self attr :
  preserves heap_disjoint (Link___delattr__ self attr).
Proof.
  unfold Link___delattr__.
  apply preserves_bind.
  { apply disjoint_update_link. intros l Hl; cbn. set_solver. }
  intros _. apply preserves_bind; [|intros; apply disjoint_object_delattr].
  apply disjoint_update_link. intros l Hl; cbn. set_solver.
Qed.

Lemma disjoint_Link_add_persistent self attr v :
  preserves heap_disjoint (Link_add_persistent self attr v).
Proof.
  apply preserves_bind; [apply preserves_pure, get_link_pure|]. intros l.
  destruct (in_dict l attr); [apply preserves_raise|].
  eapply preserves_ext with
    (m' := (update_link self (λ l, set_persistent ({[attr]} ∪ _persistent l) l);;
            update_link self (λ l, set_params (_params l ∖ {[attr]}) l));;
           dict_set self attr v).
  { intros h. unfold bind. by destruct (update_link self _ h) as [[[]|?] ?]. }
  apply preserves_bind; [|intros; apply disjoint_dict_set].
  apply disjoint_register. intros l0 Hl0; cbn. set_solver.
Qed.

Lemma disjoint_Link_register_persistent self attr :
  preserves heap_disjoint (Link_register_persistent self attr).
Proof.
  apply preserves_bind; [apply preserves_pure, get_link_pure|]. intros l.
  destruct (negb (hasattr l attr)); [apply preserves_raise|].
  apply disjoint_register. intros l0 Hl0; cbn. set_solver.
Qed.

Lemma disjoint_Chain_set_children self f :
  preserves heap_disjoint (Chain_set_children self f).
Proof.
  apply preserves_bind.
  { apply preserves_pure. intros h. unfold Chain_children_names, bind.
    pose proof (get_link_pure self h).
    destruct (get_link self h) as [[l|?] ?]; simplify_eq/=; [|done].
    by destruct (ext l). }
  intros ch. by apply disjoint_update_link.
Qed.

Lemma disjoint_Chain___setattr__ self attr v :
  preserves heap_disjoint (Chain___setattr__ self attr v).
Proof.
  apply preserves_bind.
  { apply preserves_bind; [apply preserves_pure, get_link_pure|].
    intros; apply preserves_ret. }
  intros scope.
  apply preserves_bind; [apply preserves_pure, is_Link_pure|]. intros isl.
  apply preserves_bind; [|intros; apply disjoint_Link___setattr__].
  destruct (scope && isl); [|apply preserves_ret].
  apply preserves_bind; [apply preserves_pure, get_link_pure|]. intros l.
  destruct (hasattr l attr); [apply preserves_raise|].
  destruct v; try apply preserves_ret.
  apply preserves_bind; [by apply disjoint_update_link|].
  intros _. apply disjoint_Chain_set_children.
Qed.

Lemma disjoint_setattr self attr v : preserves heap_disjoint (setattr self attr v).
Proof.
  apply preserves_bind; [apply preserves_pure, get_link_pure|]. intros l.
  destruct (ext l); auto using disjoint_Link___setattr__, disjoint_Chain___setattr__.
Qed.

Lemma disjoint_delattr self attr : preserves heap_disjoint (delattr self attr).
Proof.
  apply preserves_bind; [apply preserves_pure, get_link_pure|]. intros l.
  destruct (ext l); try apply disjoint_Link___delattr__.
  apply preserves_bind; [apply disjoint_Chain_set_children|].
  intros _. apply disjoint_Link___delattr__.
Qed.

Lemma disjoint_Link_init_scope {A} self (body : M A) :
  preserves heap_disjoint body → preserves heap_disjoint (Link_init_scope self body).
Proof.
  intros Hb. apply preserves_bind.
  { apply preserves_bind; [apply preserves_pure, get_link_pure|].
    intros; apply preserves_ret. }
  intros old. apply preserves_bind; [by apply disjoint_update_link|].
  intros _. apply preserves_try_finally; [done|]. by apply disjoint_update_link.
Qed.

Lemma disjoint_run_op op : preserves heap_disjoint (run_op op).
Proof.
  destruct op; cbn [run_op].
  - apply preserves_bind; [|intros; apply preserves_ret].
    apply disjoint_alloc. cbn. set_solver.
  - apply preserves_bind; [|intros; apply preserves_ret].
    apply disjoint_alloc. cbn. set_solver.
  - apply preserves_bind; [|intros; apply preserves_ret]. by apply disjoint_alloc.
  - apply preserves_bind; [|intros; apply preserves_ret]. by apply disjoint_alloc.
  - apply disjoint_setattr.
  - apply disjoint_Link_init_scope, disjoint_setattr.
  - apply disjoint_Link_add_persistent.
  - apply disjoint_Link_register_persistent.
  - apply disjoint_delattr.
Qed.

(** C1. Whatever sequence of constructions, assignments (inside or
    outside an initialization scope), [add_persistent],
    [register_persistent] and attribute deletions a client runs, and
    whether or not some of them raise, a heap in which the parameter names
    and the persistent names of every link are disjoint stays such a heap:
    no name is ever in both sets of a link. *)
Theorem C1_registry_sets_disjoint (ops : list reg_op) (h : heap) :
  heap_disjoint h → heap_disjoint (run_ops ops h).
Proof.
  revert h. induction ops as [|op ops IH]; intros h Hh; cbn; [done|].
  apply IH. destruct (run_op op h) as [r h'] eqn:E.
  by eapply disjoint_run_op.
Qed.


Lemma C1_registry_sets_disjoint_witness :
  heap_disjoint [] ∧
  heap_disjoint
    (run_ops [NewLink Link_class; NewParameter demo_param;
              AddPersistent 0 "W" (VInt 1);
              ScopedAssign 0 "W" (VRef 1);
              RegisterPersistent 0 "W"; Delete 0 "W"] []).
Proof.
  split; [constructor|]. apply C1_registry_sets_disjoint. constructor.
Defined.

(** ** C9: deleting an attribute *)




(** ** C6: registering a child under a name that is taken *)

Lemma insert_same_link (h : heap) a l : h !! a = Some (OLink l) → <[a := OLink l]> h = h.
Proof. apply list_insert_id. Qed.

Lemma is_Link_run (h : heap) a l : h !! a = Some (OLink l) → is_Link (VRef a) h = (Ok true, h).
Proof. intros E. unfold is_Link. by rewrite E. Qed.

Lemma Link_within_init_scope_run (h : heap) self l :
  h !! self = Some (OLink l) →
  Link_within_init_scope self h = (Ok (_within_init_scope l), h).
Proof.
  intros E. unfold Link_within_init_scope.
  by rewrite (bind_run _ _ _ _ _ (get_link_run _ _ _ E)).
Qed.

Lemma Chain___setattr___conflict (h : heap) self l child lc attr :
  h !! self = Some (OLink l) → h !! child = Some (OLink lc) →
  _within_init_scope l = true → hasattr l attr = true →
  Chain___setattr__ self attr (VRef child) h =
    (Raise (AttributeError
              ("cannot register a new link " ++ attr ++ ": attribute exists")), h).
Proof.
  intros Hl Hc Hs Ha. unfold Chain___setattr__.
  rewrite (bind_run _ _ _ _ _ (Link_within_init_scope_run _ _ _ Hl)).
  rewrite (bind_run _ _ _ _ _ (is_Link_run _ _ _ Hc)). rewrite Hs. cbn [andb].
  erewrite bind_raise; [done|].
  rewrite (bind_run _ _ _ _ _ (get_link_run _ _ _ Hl)). by rewrite Ha.
Qed.

(** C6. On a Chain that has an attribute [attr] (in its instance
    dictionary or on its class), registering a link under that name fails
    with the attribute-exists [AttributeError], both through [add_link]
    and through an assignment inside [with self.init_scope():], and the
    heap afterwards is the heap before: the registry of the chain, the
    child that holds the name and the rejected link are untouched. *)
Theorem C6_register_existing_name_fails (h : heap) self l ch child lc attr :
  h !! self = Some (OLink l) → ext l = KChain ch →
  h !! child = Some (OLink lc) →
  hasattr l attr = true →
  let conflict := AttributeError
                    ("cannot register a new link " ++ attr ++ ": attribute exists") in
  Chain_add_link self attr (VRef child) h = (Raise conflict, h) ∧
  Link_init_scope self (Chain___setattr__ self attr (VRef child)) h
    = (Raise conflict, h).
Proof.
  intros Hl Hk Hc Ha conflict.
  assert (Hscope : Link_init_scope self (Chain___setattr__ self attr (VRef child)) h
                   = (Raise conflict, h)).
  { unfold Link_init_scope.
    rewrite (bind_run _ _ _ _ _ (Link_within_init_scope_run _ _ _ Hl)).
    rewrite (bind_run _ _ _ _ _ (update_link_run _ _ _ _ Hl)). cbn beta.
    set (l1 := set_within_init_scope true l). set (h1 := <[self := OLink l1]> h).
    assert (Hl1 : h1 !! self = Some (OLink l1)) by (by eapply lookup_updated).
    destruct (decide (child = self)) as [->|Hne].
    - unfold try_finally.
      rewrite (Chain___setattr___conflict h1 self l1 self l1 attr Hl1 Hl1 eq_refl Ha).
      rewrite (update_link_run _ _ _ _ Hl1). unfold h1.
      rewrite list_insert_insert_eq.
      f_equal. apply list_insert_id. rewrite Hl. by destruct l.
    - assert (Hc1 : h1 !! child = Some (OLink lc)).
      { unfold h1. by rewrite list_lookup_insert_ne. }
      unfold try_finally.
      rewrite (Chain___setattr___conflict h1 self l1 child lc attr Hl1 Hc1 eq_refl Ha).
      rewrite (update_link_run _ _ _ _ Hl1). unfold h1.
      rewrite list_insert_insert_eq.
      f_equal. apply list_insert_id. rewrite Hl. by destruct l. }
  split; [|done].
  unfold Chain_add_link. rewrite (bind_run _ _ _ _ _ (get_link_run _ _ _ Hl)).
  destruct (in_dict l attr) eqn:Hd; [done|].
  by rewrite (bind_run _ _ _ _ _ (is_Link_run _ _ _ Hc)).
Qed.


Lemma C6_register_existing_name_fails_witness :
  let h := [OLink (demo_link Chain_class (KChain {["x"]}) {["x" := VRef 1]});
            OLink (set_name (Some "x") (demo_link Link_class KLink ∅));
            OLink (demo_link Link_class KLink ∅)] in
  Chain_add_link 0 "x" (VRef 2) h =
    (Raise (AttributeError "cannot register a new link x: attribute exists"), h) ∧
  Link_init_scope 0 (Chain___setattr__ 0 "x" (VRef 2)) h =
    (Raise (AttributeError "cannot register a new link x: attribute exists"), h).
Proof.
  intros h.
  eapply (C6_register_existing_name_fails h 0 _ {["x"]} 2 _ "x");
    [reflexivity | reflexivity | reflexivity | vm_compute; reflexivity].
Defined.

(** ** C5: [to_cpu] on a link that is on the host *)

Lemma update_link_ok_inv a f h h' :
  update_link a f h = (Ok tt, h') →
  ∃ l, h !! a = Some (OLink l) ∧ h' = <[a := OLink (f l)]> h.
Proof.
  unfold update_link. intros R.
  apply bind_ok_inv in R as (l & h1 & E & R).
  apply get_link_inv in E as [-> Hl]. injection R as <-.
  exists l. by split; [apply Hl|].
Qed.

(** C5. [Link.to_cpu] on a link whose [_cpu] flag is set returns the link
    and leaves the whole heap as it is: device state, parameters and
    persistent values are unchanged and nothing is raised.  So the second
    of two consecutive calls is such a call: whenever a first call returns,
    the call that follows it returns the same link and changes nothing. *)
Theorem C5_to_cpu_idempotent (h : heap) self :
  (∀ l, h !! self = Some (OLink l) → _cpu l = true →
        Link_to_cpu self h = (Ok self, h)) ∧
  (∀ r h', Link_to_cpu self h = (Ok r, h') →
           r = self ∧ Link_to_cpu self h' = (Ok self, h')).
Proof.
  assert (Hnoop : ∀ (h0 : heap) l, h0 !! self = Some (OLink l) → _cpu l = true →
                    Link_to_cpu self h0 = (Ok self, h0)).
  { intros h0 l Hl Hc. unfold Link_to_cpu.
    rewrite (bind_run _ _ _ _ _ (get_link_run _ _ _ Hl)). by rewrite Hc. }
  split; [apply Hnoop|].
  intros r h' R. unfold Link_to_cpu in R.
  apply bind_ok_inv in R as (l & h1 & E & R).
  apply get_link_inv in E as [-> Hl]. specialize (Hl l eq_refl).
  destruct (_cpu l) eqn:Hc.
  - injection R as <- <-. split; [done|]. by eapply Hnoop.
  - apply bind_ok_inv in R as ([] & h2 & _ & R).
    apply bind_ok_inv in R as ([] & h3 & _ & R).
    apply bind_ok_inv in R as ([] & h4 & U1 & R).
    apply bind_ok_inv in R as ([] & h5 & U2 & R).
    injection R as <- <-. split; [done|].
    apply update_link_ok_inv in U1 as (l3 & Hl3 & ->).
    apply update_link_ok_inv in U2 as (l4 & Hl4 & ->).
    rewrite (lookup_updated _ _ _ _ Hl3) in Hl4. injection Hl4 as <-.
    eapply Hnoop; [eapply lookup_updated, lookup_updated, Hl3|done].
Qed.

(** ** C3 and C10: the forward pass of a Sequential *)

Lemma Sequential_layers_run (h : heap) self l ch ls n :
  h !! self = Some (OLink l) → ext l = KSequential ch ls n →
  Sequential_layers self h = (Ok ls, h).
Proof.
  intros Hl Hk. unfold Sequential_layers.
  rewrite (bind_run _ _ _ _ _ (get_link_run _ _ _ Hl)). by rewrite Hk.
Qed.



Lemma value_size_tuple_neq v : VTuple [v] ≠ v.
Proof.
  intros E. apply (f_equal value_size) in E. cbn in E. lia.
Qed.

(** C10. Calling a Sequential without layers on one argument [v] returns
    the argument tuple [(v,)] as it came in, which is not [v], and leaves
    the heap unchanged. *)
Theorem C10_empty_sequential_returns_tuple
    (call_layer : value → list value → M value)
    (h : heap) self l ch n (v : value) :
  h !! self = Some (OLink l) → ext l = KSequential ch [] n →
  Sequential___call__ call_layer self [v] h = (Ok (VTuple [v]), h) ∧
  VTuple [v] ≠ v.
Proof.
  intros Hl Hk. split; [|apply value_size_tuple_neq].
  unfold Sequential___call__.
  by rewrite (bind_run _ _ _ _ _ (Sequential_layers_run _ _ _ _ _ _ Hl Hk)).
Qed.



(** ** C2: names of the children of a ChainList *)

(** C2 (what the code does). A Sequential is built from three links,
    which [add_link] names ["0"], ["1"] and ["2"]; [del seq[0]] then
    removes the first one from the layers and from the children and gives
    no new names: the two children that remain are still called ["1"] and
    ["2"], not ["0"] and ["1"]. *)
Theorem C2_delitem_keeps_old_names :
  ∃ h0 h,
    (do a <- Link___init__ Linear_class;
     do b <- Link___init__ Linear_class;
     do c <- Link___init__ Linear_class;
     Sequential___init__ Sequential_class [VRef a; VRef b; VRef c]) []
      = (Ok 3, h0) ∧
    ChainList_children 3 h0 = (Ok [0; 1; 2], h0) ∧
    (name_of h0 0, name_of h0 1, name_of h0 2) = (Some "0", Some "1", Some "2") ∧
    Sequential___delitem__ 3 0 h0 = (Ok tt, h) ∧
    ChainList_children 3 h = (Ok [1; 2], h) ∧
    (name_of h 1, name_of h 2) = (Some "1", Some "2").
Proof.
  eexists _, _. split; [vm_compute; reflexivity|].
  split; [vm_compute; reflexivity|].
  split; [vm_compute; reflexivity|].
  split; [vm_compute; reflexivity|].
  split; vm_compute; reflexivity.
Qed.

(** ** C7: pickling a Sequential *)

(** C7 (what the code does). A Sequential is built from one anonymous
    function and then cleared.  Its layer list is empty, so it holds no
    anonymous function, but [clear] leaves [_n_lambda] at 1 and
    [__reduce__] still raises the [ValueError] about lambda functions. *)
Theorem C7_clear_keeps_lambda_counter :
  ∃ h0 h,
    Sequential___init__ Sequential_class [anonymous] [] = (Ok 0, h0) ∧
    Sequential_clear 0 h0 = (Ok tt, h) ∧
    Sequential_layers 0 h = (Ok [], h) ∧
    count_lambda [] = 0 ∧
    Sequential_n_lambda 0 h = (Ok 1%Z, h) ∧
    Sequential___reduce__ 0 h = (Raise (ValueError lambda_message), h).
Proof.
  eexists _, _. split; [vm_compute; reflexivity|].
  split; [vm_compute; reflexivity|].
  split; [vm_compute; reflexivity|].
  split; [reflexivity|].
  split; vm_compute; reflexivity.
Qed.

(** ** C4: [Link.copy] *)

Lemma insert_middle {A} (l1 l2 : list A) x y :
  <[length l1 := y]> (l1 ++ x :: l2) = l1 ++ y :: l2.
Proof. rewrite insert_app_r_alt by lia. by rewrite Nat.sub_diag. Qed.

Lemma lookup_end {A} (l1 l2 : list A) x y :
  (l1 ++ x :: (l2 ++ [y])) !! (length l1 + S (length l2)) = Some y.
Proof.
  rewrite lookup_app_r by lia.
  replace (length l1 + S (length l2) - length l1) with (S (length l2)) by lia.
  cbn. by apply list_lookup_middle.
Qed.

Lemma insert_end {A} (l1 l2 : list A) x y z :
  <[length l1 + S (length l2) := z]> (l1 ++ x :: (l2 ++ [y]))
  = l1 ++ x :: (l2 ++ [z]).
Proof.
  rewrite insert_app_r. cbn. f_equal. f_equal. apply insert_middle.
Qed.

Lemma alloc_run (h : heap) o : alloc o h = (Ok (length h), h ++ [o]).
Proof. done. Qed.

Lemma dict_get_run (h : heap) a l attr v :
  h !! a = Some (OLink l) → attrs l !! attr = Some v →
  dict_get a attr h = (Ok v, h).
Proof.
  intros Hl Hv. unfold dict_get.
  rewrite (bind_run _ _ _ _ _ (get_link_run _ _ _ Hl)). by rewrite Hv.
Qed.

(** One round of the loop of [Link.copy] over a registered name: the
    parameter gets a new holder with an empty gradient and the same
    arrays, appended to the heap. *)
Lemma Link_copy_step (h hx : heap) lr nm a p :
  attrs lr !! nm = Some (VRef a) → h !! a = Some (OParam p) →
  (do v <- dict_get (length h) nm;
   do c <- copy_copy v;
   dict_set (length h) nm c;;
   do q <- as_param c;
   Parameter_set_grad q None) (h ++ OLink lr :: hx)
  = (Ok tt,
     h ++ OLink (set_attrs (<[nm := VRef (length h + S (length hx))]> (attrs lr)) lr)
       :: (hx ++ [OParam (set_p_grad None p)])).
Proof.
  intros Hv Ha.
  assert (Hr : (h ++ OLink lr :: hx) !! length h = Some (OLink lr))
    by (by apply list_lookup_middle).
  rewrite (bind_run _ _ _ _ _ (dict_get_run _ _ _ _ _ Hr Hv)).
  assert (Hcopy : copy_copy (VRef a) (h ++ OLink lr :: hx)
                  = (Ok (VRef (length h + S (length hx))),
                     h ++ OLink lr :: (hx ++ [OParam p]))).
  { unfold copy_copy.
    rewrite (bind_run _ _ _ _ _ (get_obj_run _ _ _ (lookup_app_l_Some _ _ _ _ Ha))).
    rewrite (bind_run _ _ _ _ _ (alloc_run _ _)). unfold ret.
    rewrite length_app. cbn [length]. by rewrite <- app_assoc. }
  rewrite (bind_run _ _ _ _ _ Hcopy).
  set (lr1 := set_attrs _ lr).
  assert (Hset : dict_set (length h) nm (VRef (length h + S (length hx)))
                   (h ++ OLink lr :: (hx ++ [OParam p]))
                 = (Ok tt, h ++ OLink lr1 :: (hx ++ [OParam p]))).
  { unfold dict_set. rewrite (update_link_run _ _ lr); [|by apply list_lookup_middle].
    by rewrite insert_middle. }
  rewrite (bind_run _ _ _ _ _ Hset). cbn beta.
  assert (Hq : (h ++ OLink lr1 :: (hx ++ [OParam p])) !! (length h + S (length hx))
               = Some (OParam p)) by apply lookup_end.
  assert (Has : as_param (VRef (length h + S (length hx)))
                  (h ++ OLink lr1 :: (hx ++ [OParam p]))
                = (Ok (length h + S (length hx)), h ++ OLink lr1 :: (hx ++ [OParam p]))).
  { unfold as_param. by rewrite (bind_run _ _ _ _ _ (get_param_run _ _ _ Hq)). }
  rewrite (bind_run _ _ _ _ _ Has).
  unfold Parameter_set_grad. rewrite (update_param_run _ _ _ _ Hq).
  by rewrite insert_end.
Qed.

Lemma Link_copy_loop (h : heap) (names : list string) :
  ∀ (hx : heap) lr,
    NoDup names →
    (∀ nm, nm ∈ names → ∃ a p, attrs lr !! nm = Some (VRef a) ∧ h !! a = Some (OParam p)) →
    ∃ d hy,
      for_each names (λ nm,
        do v <- dict_get (length h) nm;
        do c <- copy_copy v;
        dict_set (length h) nm c;;
        do q <- as_param c;
        Parameter_set_grad q None) (h ++ OLink lr :: hx)
      = (Ok tt, h ++ OLink (set_attrs d lr) :: (hx ++ hy)) ∧
      (∀ nm, nm ∉ names → d !! nm = attrs lr !! nm) ∧
      (∀ nm a p, nm ∈ names → attrs lr !! nm = Some (VRef a) →
                 h !! a = Some (OParam p) →
                 ∃ a', d !! nm = Some (VRef a') ∧ length h < a' ∧
                       (h ++ OLink (set_attrs d lr) :: (hx ++ hy)) !! a'
                       = Some (OParam (set_p_grad None p))).
Proof.
  induction names as [|nm names IH]; intros hx lr Hnd Hreg.
  - exists (attrs lr), []. rewrite app_nil_r. split; [by destruct lr|].
    split; [done|]. intros ??? Hin. by apply elem_of_nil in Hin.
  - apply NoDup_cons in Hnd as [Hnm Hnd].
    destruct (Hreg nm) as (a & p & Hv & Ha); [by left|].
    cbn [for_each]. rewrite (bind_run _ _ _ _ _ (Link_copy_step h hx lr nm a p Hv Ha)).
    cbn beta.
    set (lr1 := set_attrs _ lr).
    destruct (IH (hx ++ [OParam (set_p_grad None p)]) lr1 Hnd) as (d & hy & E & Hout & Hin).
    { intros nm' Hin'. destruct (Hreg nm') as (a' & p' & Hv' & Ha'); [by right|].
      exists a', p'. split; [|done]. cbn. rewrite lookup_insert_ne; [done|].
      intros ->. done. }
    exists d, ([OParam (set_p_grad None p)] ++ hy).
    replace (hx ++ [OParam (set_p_grad None p)] ++ hy)
      with ((hx ++ [OParam (set_p_grad None p)]) ++ hy) by (by rewrite <- app_assoc).
    change (set_attrs d lr) with (set_attrs d lr1).
    split; [exact E|]. split.
    + intros nm' Hnot. rewrite Hout by set_solver. cbn.
      rewrite lookup_insert_ne; [done|]. set_solver.
    + intros nm' a' p' Hin' Hv' Ha'. apply elem_of_cons in Hin' as [->|Hin'].
      * rewrite Hv in Hv'. injection Hv' as <-. rewrite Ha in Ha'. injection Ha' as <-.
        exists (length h + S (length hx)). rewrite (Hout nm Hnm). cbn.
        rewrite lookup_insert_eq. split; [done|]. split; [lia|].
        match goal with
        | |- (h ++ ?x :: ((hx ++ [?y]) ++ hy)) !! _ = _ =>
            replace (h ++ x :: ((hx ++ [y]) ++ hy))
              with ((h ++ x :: (hx ++ [y])) ++ hy)
              by (by rewrite <- app_assoc)
        end.
        apply lookup_app_l_Some, lookup_end.
      * apply (Hin nm' a' p' Hin'); [|done]. cbn. rewrite lookup_insert_ne; [done|].
        intros ->. done.
Qed.

Lemma reduce_ex_run (h : heap) self l :
  h !! self = Some (OLink l) →
  (∀ ch ls n, ext l = KSequential ch ls n → (n ≤ 0)%Z) →
  reduce_ex self h = (Ok l, h).
Proof.
  intros Hl Hseq. unfold reduce_ex.
  rewrite (bind_run _ _ _ _ _ (get_link_run _ _ _ Hl)).
  destruct (ext l) as [| | |ch ls n] eqn:Hk; try done.
  unfold Sequential___reduce__.
  rewrite (bind_run _ _ _ _ _ (get_link_run _ _ _ Hl)), Hk.
  case_bool_decide; [|done]. specialize (Hseq _ _ _ eq_refl). lia.
Qed.

Lemma Link_copy_spec (h : heap) self l :
  h !! self = Some (OLink l) →
  (∀ ch ls n, ext l = KSequential ch ls n → (n ≤ 0)%Z) →
  params_registered h l →
  ∃ l' h',
    Link_copy self h = (Ok (length h), h') ∧
    h `prefix_of` h' ∧
    h' !! length h = Some (OLink l') ∧
    cls l' = cls l ∧ name l' = None ∧
    _params l' = _params l ∧ _persistent l' = _persistent l ∧
    _cpu l' = _cpu l ∧ _device_id l' = _device_id l ∧ ext l' = ext l ∧
    (∀ nm, nm ∉ _params l → attrs l' !! nm = attrs l !! nm) ∧
    (∀ nm a p, nm ∈ _params l → attrs l !! nm = Some (VRef a) →
               h !! a = Some (OParam p) →
               ∃ a' p', attrs l' !! nm = Some (VRef a') ∧
                        length h < a' ∧ a' ≠ a ∧
                        h' !! a' = Some (OParam p') ∧
                        p_data p' = p_data p ∧ p_grad p' = None ∧
                        p_name p' = p_name p ∧
                        p_update_rule p' = p_update_rule p).
Proof.
  intros Hl Hseq Hreg.
  set (l0 := set_name None (set_persistent (_persistent l) (set_params (_params l) l))).
  destruct (Link_copy_loop h (elements (_params l)) [] l0) as (d & hy & E & Hout & Hin).
  { apply NoDup_elements. }
  { intros nm Hnm. apply Hreg. by apply elem_of_elements. }
  exists (set_attrs d l0), (h ++ OLink (set_attrs d l0) :: hy).
  split; [|split; [by apply prefix_app_r|]].
  - unfold Link_copy.
    assert (Hc : copy_copy (VRef self) h = (Ok (VRef (length h)), h ++ [OLink l])).
    { unfold copy_copy. rewrite (bind_run _ _ _ _ _ (get_obj_run _ _ _ Hl)).
      by rewrite (bind_run _ _ _ _ _ (reduce_ex_run _ _ _ Hl Hseq)). }
    rewrite (bind_run _ _ _ _ _ Hc).
    rewrite (bind_run _ _ _ _ _ (get_link_run _ _ _ (lookup_app_l_Some _ _ _ _ Hl))).
    assert (Hr : ∀ x, (h ++ [OLink x]) !! length h = Some (OLink x))
      by (intros; by apply list_lookup_middle).
    rewrite (bind_run _ _ _ _ _ (update_link_run _ _ _ _ (Hr _))). cbn beta.
    rewrite insert_middle.
    rewrite (bind_run _ _ _ _ _ (update_link_run _ _ _ _ (Hr _))). cbn beta.
    rewrite insert_middle.
    rewrite (bind_run _ _ _ _ _ (update_link_run _ _ _ _ (Hr _))). cbn beta.
    rewrite insert_middle. fold l0.
    rewrite (bind_run _ _ _ _ _ (get_link_run _ _ _ (Hr _))).
    change (_params l0) with (_params l).
    by rewrite (bind_run _ _ _ _ _ E).
  - split; [by apply list_lookup_middle|].
    do 7 (split; [done|]). split.
    + intros nm Hnm. cbn. apply Hout. by rewrite elem_of_elements.
    + intros nm a p Hnm Hv Ha.
      destruct (Hin nm a p) as (a' & Hd & Hlt & Hp); [by apply elem_of_elements|done..|].
      exists a', (set_p_grad None p). split; [done|]. split; [done|].
      split; [|done]. apply lookup_lt_Some in Ha. lia.
Qed.


(** ** C8: repetition of a Sequential *)

Lemma is_array_app (h hx : heap) d : is_array h d → is_array (h ++ hx) d.
Proof. intros [x Hx]. exists x. by apply lookup_app_l_Some. Qed.

Lemma is_array_prefix (h h' : heap) d : h `prefix_of` h' → is_array h d → is_array h' d.
Proof. intros [hx ->]. apply is_array_app. Qed.




Lemma memo_ok_empty N h hc : memo_ok N h hc ∅.
Proof. intros x y Hxy. by rewrite lookup_empty in Hxy. Qed.















Lemma prefix_insert_ge (h H : heap) x o :
  h `prefix_of` H → length h ≤ x → h `prefix_of` <[x := o]> H.
Proof.
  intros [hx ->] Hx. rewrite insert_app_r_alt by done. by apply prefix_app_r.
Qed.




Lemma py_insert_index_end n : py_insert_index n (Z.of_nat n) = n.
Proof.
  unfold py_insert_index.
  rewrite (bool_decide_eq_false_2 (Z.of_nat n < 0)%Z) by lia.
  rewrite (bool_decide_eq_false_2 (Z.of_nat n < 0)%Z) by lia.
  rewrite (bool_decide_eq_false_2 (Z.of_nat n < Z.of_nat n)%Z) by lia.
  apply Nat2Z.id.
Qed.

Lemma list_insert_at_end {A} (x : A) l : list_insert_at (length l) x l = l ++ [x].
Proof. unfold list_insert_at. by rewrite take_ge, drop_ge by lia. Qed.

Lemma ChainList_children_run (H : heap) R lr chs lys nl :
  H !! R = Some (OLink lr) → ext lr = KSequential chs lys nl →
  ChainList_children R H = (Ok chs, H).
Proof.
  intros HR Hk. unfold ChainList_children.
  rewrite (bind_run _ _ _ _ _ (get_link_run _ _ _ HR)). by rewrite Hk.
Qed.







Lemma Sequential_n_lambda_run (h : heap) self l ch ls n :
  h !! self = Some (OLink l) → ext l = KSequential ch ls n →
  Sequential_n_lambda self h = (Ok n, h).
Proof.
  intros Hl Hk. unfold Sequential_n_lambda.
  rewrite (bind_run _ _ _ _ _ (get_link_run _ _ _ Hl)). by rewrite Hk.
Qed.





Lemma demo_model_heap : demo_model [] = (Ok 3, demo_heap).
Proof. vm_compute. reflexivity. Qed.





Lemma C5_to_cpu_idempotent_witness :
  Link_to_cpu 2 demo_heap = (Ok 2, demo_heap) ∧
  Link_to_cpu 2 (Link_to_cpu 2 demo_gpu_heap).2
  = (Ok 2, (Link_to_cpu 2 demo_gpu_heap).2).
Proof.
  split.
  - apply (proj1 (C5_to_cpu_idempotent demo_heap 2) demo_W_link); reflexivity.
  - apply (proj2 (C5_to_cpu_idempotent demo_gpu_heap 2) 2). vm_compute. reflexivity.
Defined.


Lemma C10_empty_sequential_returns_tuple_witness :
  Sequential___call__ demo_call 0 [VInt 5] [OLink (demo_sequential [])]
  = (Ok (VTuple [VInt 5]), [OLink (demo_sequential [])]) ∧
  VTuple [VInt 5] ≠ VInt 5.
Proof.
  apply (C10_empty_sequential_returns_tuple demo_call [OLink (demo_sequential [])] 0
           (demo_sequential []) [] 0 (VInt 5) eq_refl eq_refl).
Defined.

(** * Further properties *)

Lemma bind_ext {A B} (m : M A) (k1 k2 : A → M B) h :
  (∀ a h1, k1 a h1 = k2 a h1) → bind m k1 h = bind m k2 h.
Proof. intros E. unfold bind. destruct (m h) as [[a|e] h1]; [apply E|done]. Qed.

Lemma bind_cong_l {A B} (m1 m2 : M A) (k : A → M B) h :
  m1 h = m2 h → bind m1 k h = bind m2 k h.
Proof. intros E. unfold bind. by rewrite E. Qed.

Lemma with_prefix_snd {A} prefix (xs : list (string * A)) :
  (with_prefix prefix xs).*2 = xs.*2.
Proof. unfold with_prefix. rewrite <-list_fmap_compose. done. Qed.

Lemma Link_namedparams_loop_params self names b h :
  (do nps <- Link_namedparams_loop self names b; ret (nps.*2)) h
  = Link_params_loop self names b h.
Proof.
  revert h. induction names as [|nm rest IH]; intros h; [done|].
  cbn [Link_namedparams_loop Link_params_loop].
  rewrite !bind_assoc. apply bind_ext; intros v h1.
  rewrite !bind_assoc. apply bind_ext; intros p h2.
  rewrite !bind_assoc. apply bind_ext; intros po h3.
  rewrite bind_assoc. rewrite <-(bind_cong_l _ _ _ _ (IH h3)).
  rewrite bind_assoc. apply bind_ext; intros ps h4.
  by destruct (b || _).
Qed.

Lemma concat_named_params {K} (f : K → addr → M (list (string * addr)))
    (g : addr → M (list addr)) (prefix : K → string) cs h :
  (∀ k c h, (do nps <- f k c; ret (nps.*2)) h = g c h) →
  (do nps <- concat_named f prefix cs; ret (nps.*2)) h
  = concat_params g cs.*2 h.
Proof.
  intros Hf. revert h. induction cs as [|[k c] rest IH]; intros h; [done|].
  cbn [concat_named concat_params fmap list_fmap snd].
  rewrite <-(bind_cong_l _ _ _ _ (Hf k c h)).
  rewrite !bind_assoc. apply bind_ext; intros ps h1.
  change (bind (ret (ps.*2)) ?k h1) with (k (ps.*2) h1). cbn beta.
  rewrite <-(bind_cong_l _ _ _ _ (IH h1)).
  rewrite !bind_assoc. apply bind_ext; intros qs h2.
  unfold bind, ret. by rewrite fmap_app, with_prefix_snd.
Qed.

Lemma bind_ext_ok {A B} (m : M A) (k1 k2 : A → M B) h :
  (∀ a h1, m h = (Ok a, h1) → k1 a h1 = k2 a h1) →
  bind m k1 h = bind m k2 h.
Proof. intros E. unfold bind. destruct (m h) as [[a|e] h1]; [by apply E|done]. Qed.

Lemma Chain_child_links_length self names h cs h' :
  Chain_child_links self names h = (Ok cs, h') → length cs = length names.
Proof.
  revert h cs h'. induction names as [|nm rest IH]; intros h cs h' E.
  - by injection E as <- _.
  - cbn [Chain_child_links] in E.
    apply bind_ok_inv in E as (v & h1 & _ & E).
    apply bind_ok_inv in E as (cs' & h2 & E1 & E).
    destruct v; try discriminate. injection E as <- _.
    cbn. f_equal. eauto.
Qed.

Lemma Link_namedparams_params self b h :
  (do nps <- Link_namedparams self b; ret (nps.*2)) h = Link_params self b h.
Proof.
  unfold Link_namedparams, Link_params. rewrite bind_assoc.
  apply bind_ext; intros l h1. apply Link_namedparams_loop_params.
Qed.

(** X1. [namedparams] and [params] agree on every hierarchy: dropping the
    paths from what [namedparams] yields gives what [params] yields, the
    same parameters in the same order, and when one of the two raises the
    other raises the same exception. *)
Theorem namedparams_params fuel self include_uninit h :
  (do nps <- namedparams fuel self include_uninit; ret (nps.*2)) h
  = params fuel self include_uninit h.
Proof.
  revert self h. induction fuel as [|fuel IH]; intros self h; [done|].
  cbn [namedparams params]. rewrite bind_assoc.
  apply bind_ext; intros l h1.
  assert (HCL : ∀ h, (do nps <- ChainList_namedparams (namedparams fuel) self
                                  include_uninit; ret (nps.*2)) h
                = ChainList_params (params fuel) self include_uninit h).
  { clear h h1. intros h. unfold ChainList_namedparams, ChainList_params.
    rewrite <-(bind_cong_l _ _ _ _ (Link_namedparams_params self include_uninit h)).
    rewrite !bind_assoc. apply bind_ext; intros own h1.
    change (bind (ret (own.*2)) ?k h1) with (k (own.*2) h1). cbn beta.
    unfold ChainList_enumerate. rewrite !bind_assoc.
    apply bind_ext; intros cs h2.
    change (bind (ret ?x) ?k h2) with (k x h2). cbn beta.
    rewrite bind_assoc.
    pose proof (concat_named_params (λ _ c, namedparams fuel c include_uninit)
      (λ c, params fuel c include_uninit) (λ idx, ("/" ++ str idx)%string)
      (zip (seq 0 (length cs)) cs) h2 (λ _ c h, IH c h)) as E.
    rewrite snd_zip in E by (by rewrite length_seq).
    rewrite <-(bind_cong_l _ _ _ _ E).
    rewrite bind_assoc. apply bind_ext; intros sub h3.
    unfold bind, ret. by rewrite fmap_app. }
  destruct (ext l); [apply Link_namedparams_params| |apply HCL|apply HCL].
  unfold Chain_namedparams, Chain_params.
  rewrite <-(bind_cong_l _ _ _ _ (Link_namedparams_params self include_uninit h1)).
  rewrite !bind_assoc. apply bind_ext; intros own h2.
  change (bind (ret (own.*2)) ?k h2) with (k (own.*2) h2). cbn beta.
  unfold Chain_named_children. rewrite !bind_assoc.
  apply bind_ext; intros ch h3.
  rewrite !bind_assoc. apply bind_ext_ok; intros cs h4 Ecs.
  apply Chain_child_links_length in Ecs.
  change (bind (ret ?x) ?k h4) with (k x h4). cbn beta.
  rewrite bind_assoc.
  pose proof (concat_named_params (λ _ c, namedparams fuel c include_uninit)
    (λ c, params fuel c include_uninit) (λ nm, ("/" ++ nm)%string)
    (zip (elements ch) cs) h4 (λ _ c h, IH c h)) as E.
  rewrite snd_zip in E by lia.
  rewrite <-(bind_cong_l _ _ _ _ E).
  rewrite bind_assoc. apply bind_ext; intros sub h5.
  unfold bind, ret. by rewrite fmap_app.
Qed.

Lemma links_skipself fuel c h :
  links fuel c false h = (do ls <- links fuel c true; ret (c :: ls)) h.
Proof.
  destruct fuel as [|fuel]; [done|]. cbn [links].
  rewrite bind_assoc. apply bind_ext; intros l h1.
  assert (HCL : ChainList_links (links fuel) c false h1
    = (do ls <- ChainList_links (links fuel) c true; ret (c :: ls)) h1).
  { unfold ChainList_links. rewrite !bind_assoc.
    apply bind_ext; intros cs h2. rewrite !bind_assoc.
    by apply bind_ext; intros sub h3. }
  destruct (ext l); [done| |done|done].
  unfold Chain_links. rewrite !bind_assoc.
  apply bind_ext; intros cs h2. rewrite !bind_assoc.
  by apply bind_ext; intros sub h3.
Qed.

Lemma concat_namedlinks_links {K}
    (f : addr → bool → M (list (string * addr)))
    (g : addr → bool → M (list addr)) (prefix : K → string) cs h :
  (∀ c h, (do nls <- f c true; ret (nls.*2)) h = g c true h) →
  (∀ c h, g c false h = (do ls <- g c true; ret (c :: ls)) h) →
  (do nls <- concat_namedlinks f prefix cs; ret (nls.*2)) h
  = concat_params (λ c, g c false) cs.*2 h.
Proof.
  intros Hf Hg. revert h. induction cs as [|[k c] rest IH]; intros h; [done|].
  cbn [concat_namedlinks concat_params fmap list_fmap snd].
  rewrite (bind_cong_l _ _ _ _ (Hg c h)).
  rewrite !bind_assoc.
  rewrite <-(bind_cong_l _ _ _ _ (Hf c h)).
  rewrite !bind_assoc. apply bind_ext; intros ps h1.
  change (bind (ret (ps.*2)) ?k h1) with (k (ps.*2) h1). cbn beta.
  change (bind (ret ?x) ?k h1) with (k x h1). cbn beta.
  rewrite <-(bind_cong_l _ _ _ _ (IH h1)).
  rewrite !bind_assoc. apply bind_ext; intros qs h2.
  unfold bind, ret. cbn. by rewrite fmap_app, with_prefix_snd.
Qed.

(** X2. [namedlinks] and [links] agree on every hierarchy, with and without
    [skipself]: dropping the paths from what [namedlinks] yields gives what
    [links] yields, the same links in the same order, and when one of the
    two raises the other raises the same exception. *)
Theorem namedlinks_links fuel self skipself h :
  (do nls <- namedlinks fuel self skipself; ret (nls.*2)) h
  = links fuel self skipself h.
Proof.
  revert self skipself h.
  induction fuel as [|fuel IH]; intros self skipself h; [done|].
  cbn [namedlinks links]. rewrite bind_assoc.
  apply bind_ext; intros l h1.
  assert (HCL : ∀ h, (do nls <- ChainList_namedlinks (namedlinks fuel) self
                                  skipself; ret (nls.*2)) h
                = ChainList_links (links fuel) self skipself h).
  { clear h h1. intros h. unfold ChainList_namedlinks, ChainList_links.
    unfold ChainList_enumerate. rewrite !bind_assoc.
    apply bind_ext; intros cs h2.
    change (bind (ret ?x) ?k h2) with (k x h2). cbn beta.
    rewrite bind_assoc.
    pose proof (concat_namedlinks_links (namedlinks fuel) (links fuel)
      (λ idx, ("/" ++ str idx)%string)
      (zip (seq 0 (length cs)) cs) h2 (λ c h, IH c true h)
      (links_skipself fuel)) as E.
    rewrite snd_zip in E by (by rewrite length_seq).
    rewrite <-(bind_cong_l _ _ _ _ E).
    rewrite bind_assoc. apply bind_ext; intros sub h3.
    unfold bind, ret. rewrite fmap_app. by destruct skipself. }
  destruct (ext l); [by destruct skipself| |apply HCL|apply HCL].
  unfold Chain_namedlinks, Chain_links, Chain_children, Chain_named_children.
  rewrite !bind_assoc. apply bind_ext; intros ch h3.
  rewrite !bind_assoc. apply bind_ext_ok; intros cs h4 Ecs.
  apply Chain_child_links_length in Ecs.
  change (bind (ret ?x) ?k h4) with (k x h4). cbn beta.
  rewrite bind_assoc.
  pose proof (concat_namedlinks_links (namedlinks fuel) (links fuel)
    (λ nm, ("/" ++ nm)%string)
    (zip (elements ch) cs) h4 (λ c h, IH c true h)
    (links_skipself fuel)) as E.
  rewrite snd_zip in E by lia.
  rewrite <-(bind_cong_l _ _ _ _ E).
  rewrite bind_assoc. apply bind_ext; intros sub h5.
  unfold bind, ret. rewrite fmap_app. by destruct skipself.
Qed.

(** ** How the list methods of Sequential change the heap *)

Lemma alike_refl own o : alike own o o.
Proof. destruct o as [x|p|l]; cbn; try done. by destruct own, l. Qed.

Lemma alike_trans own o1 o2 o3 :
  alike own o1 o2 → alike own o2 o3 → alike own o1 o3.
Proof.
  destruct o1 as [x1|p1|l1], o2 as [x2|p2|l2], o3 as [x3|p3|l3]; cbn;
    try congruence; try (by destruct own); try (intros ->; by destruct own).
  destruct own, l1, l2, l3; cbn; intros H1 H2;
    injection H1; injection H2; intros; subst; reflexivity.
Qed.

Lemma evolves_refl self h : evolves self h h.
Proof. split; [done|]. intros a o E. exists o. split; [done|apply alike_refl]. Qed.

Lemma evolves_trans self h1 h2 h3 :
  evolves self h1 h2 → evolves self h2 h3 → evolves self h1 h3.
Proof.
  intros [L1 E1] [L2 E2]. split; [congruence|]. intros a o Ho.
  destruct (E1 a o Ho) as (o' & Ho' & A1).
  destruct (E2 a o' Ho') as (o'' & Ho'' & A2).
  exists o''. split; [done|]. by eapply alike_trans.
Qed.

Lemma evolves_insert self (h : heap) a o o' :
  h !! a = Some o → alike (bool_decide (a = self)) o o' →
  evolves self h (<[a := o']> h).
Proof.
  intros Ho A. split; [by rewrite length_insert|]. intros b ob Hb.
  destruct (decide (b = a)) as [->|Hne].
  - exists o'. split; [by eapply lookup_updated|]. congruence.
  - exists ob. split; [by rewrite list_lookup_insert_ne|apply alike_refl].
Qed.

Lemma evolves_set_ext self (h : heap) l k :
  h !! self = Some (OLink l) → evolves self h (<[self := OLink (set_ext k l)]> h).
Proof.
  intros Hl. eapply evolves_insert; [done|]. rewrite bool_decide_eq_true_2 by done.
  by destruct l.
Qed.

Lemma evolves_set_name self (h : heap) a l nm :
  h !! a = Some (OLink l) → evolves self h (<[a := OLink (set_name nm l)]> h).
Proof.
  intros Hl. eapply evolves_insert; [done|]. cbn.
  destruct (bool_decide (a = self)); by destruct l.
Qed.

Lemma evolves_link_of self h h' v : evolves self h h' → link_of h' v = link_of h v.
Proof.
  intros [L E]. destruct v as [| | | | | |a]; try done. cbn.
  destruct (h !! a) as [o|] eqn:Ho.
  - destruct (E a o Ho) as (o' & -> & A).
    destruct o as [x|p|l], o' as [x'|p'|l']; cbn in A; try done; try congruence;
      by destruct (bool_decide _).
  - apply lookup_ge_None in Ho.
    assert (h' !! a = None) as -> by (apply lookup_ge_None; lia). done.
Qed.

Lemma evolves_link_layers self h h' ls :
  evolves self h h' → link_layers h' ls = link_layers h ls.
Proof.
  intros E. unfold link_layers. induction ls as [|v ls IH]; [done|].
  cbn. by rewrite (evolves_link_of _ _ _ _ E), IH.
Qed.

Lemma callable_pure v h : callable v h = ((callable v h).1, h).
Proof.
  unfold callable. destruct v as [| | | | | |a]; try done.
  by destruct (h !! a) as [[x|p|l]|].
Qed.

Lemma evolves_callable self h h' v :
  evolves self h h' → (callable v h').1 = (callable v h).1.
Proof.
  intros [L E]. destruct v as [| | | | | |a]; try done. cbn.
  destruct (h !! a) as [o|] eqn:Ho.
  - destruct (E a o Ho) as (o' & -> & A).
    destruct o as [x|p|l], o' as [x'|p'|l']; cbn in A; try done; try congruence.
    destruct (bool_decide _); rewrite A; by destruct l.
  - apply lookup_ge_None in Ho.
    assert (h' !! a = None) as -> by (apply lookup_ge_None; lia). done.
Qed.

Lemma evolves_other self h h' o ch ls n :
  evolves self h h' → o ≠ self →
  Sequential_at h o ch ls n → Sequential_at h' o ch ls n.
Proof.
  intros [L E] Hne (l & Hl & Hk).
  destruct (E o _ Hl) as (o' & Ho' & A).
  rewrite bool_decide_eq_false_2 in A by done.
  destruct o' as [x'|p'|l']; cbn in A; try done.
  exists l'. split; [done|]. rewrite A. by destruct l.
Qed.

Lemma Sequential_set_layers_run (h : heap) self l ch ls n f :
  h !! self = Some (OLink l) → ext l = KSequential ch ls n →
  Sequential_set_layers self f h
  = (Ok tt, <[self := OLink (set_ext (KSequential ch (f ls) n) l)]> h).
Proof.
  intros Hl Hk. unfold Sequential_set_layers.
  rewrite (bind_run _ _ _ _ _ (Sequential_layers_run _ _ _ _ _ _ Hl Hk)).
  rewrite (update_link_run _ _ _ _ Hl). by rewrite Hk.
Qed.

Lemma Sequential_set_n_lambda_run (h : heap) self l ch ls n f :
  h !! self = Some (OLink l) → ext l = KSequential ch ls n →
  Sequential_set_n_lambda self f h
  = (Ok tt, <[self := OLink (set_ext (KSequential ch ls (f n)) l)]> h).
Proof.
  intros Hl Hk. unfold Sequential_set_n_lambda.
  rewrite (bind_run _ _ _ _ _ (Sequential_n_lambda_run _ _ _ _ _ _ Hl Hk)).
  rewrite (update_link_run _ _ _ _ Hl). by rewrite Hk.
Qed.

Lemma ChainList_set_children_run (h : heap) self l ch ls n f :
  h !! self = Some (OLink l) → ext l = KSequential ch ls n →
  ChainList_set_children self f h
  = (Ok tt, <[self := OLink (set_ext (KSequential (f ch) ls n) l)]> h).
Proof.
  intros Hl Hk. unfold ChainList_set_children.
  rewrite (bind_run _ _ _ _ _ (ChainList_children_run _ _ _ _ _ _ Hl Hk)).
  rewrite (update_link_run _ _ _ _ Hl). by rewrite Hk.
Qed.

Lemma Sequential_at_updated (h : heap) self l k ch ls n :
  h !! self = Some (OLink l) → k = KSequential ch ls n →
  Sequential_at (<[self := OLink (set_ext k l)]> h) self ch ls n.
Proof.
  intros Hl ->. exists (set_ext (KSequential ch ls n) l).
  split; [by eapply lookup_updated|done].
Qed.

(** [insert] of a callable layer: the layer is put at the clipped
    position, a Link is added at the end of the children, an anonymous
    function is counted. *)
Lemma Sequential_insert_spec h self ch ls n i layer :
  Sequential_at h self ch ls n → (callable layer h).1 = Ok true →
  ∃ h', Sequential_insert self i layer h = (Ok tt, h') ∧
    Sequential_at h' self (ch ++ option_list (link_of h layer))
      (list_insert_at (py_insert_index (length ls) i) layer ls)
      (n + (if is_lambda layer then 1 else 0)) ∧
    evolves self h h'.
Proof.
  intros (l & Hl & Hk) Hc.
  assert (Hc' : callable layer h = (Ok true, h)) by (by rewrite callable_pure, Hc).
  unfold Sequential_insert. rewrite (bind_run _ _ _ _ _ Hc'). cbn [negb].
  set (ls' := list_insert_at (py_insert_index (length ls) i) layer ls).
  set (l1 := set_ext (KSequential ch ls' n) l).
  set (h1 := <[self := OLink l1]> h).
  assert (E1 : evolves self h h1) by (by apply evolves_set_ext).
  assert (Hl1 : h1 !! self = Some (OLink l1)) by (by eapply lookup_updated).
  rewrite (bind_run _ _ _ _ _ (Sequential_set_layers_run _ _ _ _ _ _ _ Hl Hk)).
  fold ls' l1 h1.
  destruct layer as [| | | |vs|f|a]; try discriminate.
  - change (is_Link (VFunc f) h1) with (@Ok bool true, h1) || idtac.
    unfold is_Link at 1. unfold bind at 1. cbn [link_of option_list].
    rewrite app_nil_r. destruct (is_lambda (VFunc f)) eqn:Hlam.
    + rewrite (Sequential_set_n_lambda_run _ _ _ _ _ _ _ Hl1 eq_refl).
      eexists. split; [done|]. split.
      * by apply Sequential_at_updated.
      * eapply evolves_trans; [done|]. by apply evolves_set_ext.
    + eexists. split; [done|]. split; [|done].
      exists l1. split; [done|]. cbn. by rewrite Z.add_0_r.
  - cbn in Hc. destruct (h !! a) as [[x|p|la]|] eqn:Ha; try discriminate.
    cbn [link_of]. rewrite Ha. cbn [option_list is_lambda]. rewrite Z.add_0_r.
    assert (∃ la1, h1 !! a = Some (OLink la1)) as [la1 Ha1].
    { destruct (decide (a = self)) as [->|Hne]; [by eexists|].
      exists la. unfold h1. by rewrite list_lookup_insert_ne. }
    rewrite (bind_run _ _ _ _ _ (is_Link_run _ _ _ Ha1)).
    unfold ChainList_add_link.
    rewrite (bind_run _ _ _ _ _ (ChainList_children_run _ _ _ _ _ _ Hl1 eq_refl)).
    rewrite (bind_run _ _ _ _ _ (update_link_run _ _ _ _ Ha1)).
    set (h2 := <[a := _]> h1).
    assert (E2 : evolves self h1 h2) by (by apply evolves_set_name).
    assert (∃ l2, h2 !! self = Some (OLink l2) ∧ ext l2 = KSequential ch ls' n)
      as (l2 & Hl2 & Hk2).
    { destruct (decide (a = self)) as [->|Hne].
      - eexists. split; [by eapply lookup_updated|].
        rewrite Hl1 in Ha1. by injection Ha1 as <-.
      - exists l1. split; [|done]. unfold h2. by rewrite list_lookup_insert_ne. }
    rewrite (ChainList_set_children_run _ _ _ _ _ _ _ Hl2 Hk2).
    eexists. split; [done|]. split.
    + by apply Sequential_at_updated.
    + eapply evolves_trans; [done|]. eapply evolves_trans; [done|].
      by apply evolves_set_ext.
Qed.

Lemma py_index_lt n i j : py_index n i = Some j → j < n.
Proof.
  unfold py_index. repeat case_bool_decide; cbn; intros [= <-]; lia.
Qed.

(** [del self[i]] for an index in range: the layer leaves the list, a
    Link leaves the children at its first occurrence there, an anonymous
    function is no longer counted. *)
Lemma Sequential___delitem___spec h self ch ls n i j layer :
  Sequential_at h self ch ls n →
  py_index (length ls) i = Some j → ls !! j = Some layer →
  ∃ h', Sequential___delitem__ self i h = (Ok tt, h') ∧
    Sequential_at h' self
      (match link_of h layer with Some a => remove_first a ch | None => ch end)
      (delete j ls) (n - (if is_lambda layer then 1 else 0)) ∧
    evolves self h h'.
Proof.
  intros (l & Hl & Hk) Hi Hj. unfold Sequential___delitem__.
  rewrite (bind_run _ _ _ _ _ (Sequential_layers_run _ _ _ _ _ _ Hl Hk)), Hi, Hj.
  set (l1 := set_ext (KSequential ch (delete j ls) n) l).
  set (h1 := <[self := OLink l1]> h).
  assert (E1 : evolves self h h1) by (by apply evolves_set_ext).
  assert (Hl1 : h1 !! self = Some (OLink l1)) by (by eapply lookup_updated).
  rewrite (bind_run _ _ _ _ _ (Sequential_set_layers_run _ _ _ _ _ _ _ Hl Hk)).
  fold l1 h1.
  assert (Hlo : link_of h1 layer = link_of h layer) by (by eapply evolves_link_of).
  assert (Hplain : ∀ v, link_of h v = None → is_lambda v = false →
            ∃ h', (do isl <- is_Link v;
                   match v with
                   | VRef a => if isl then ChainList_set_children self (remove_first a)
                               else ret tt
                   | _ => if is_lambda v
                          then Sequential_set_n_lambda self (λ n, n - 1)%Z
                          else ret tt
                   end) h1 = (Ok tt, h') ∧
                  Sequential_at h' self
                    (match link_of h v with
                     | Some a => remove_first a ch | None => ch end)
                    (delete j ls) (n - (if is_lambda v then 1 else 0)) ∧
                  evolves self h h').
  { intros v Hv Hlam. exists h1. rewrite Hv, Hlam. split; [|split; [|done]].
    - rewrite <-(evolves_link_of _ _ _ v E1) in Hv.
      unfold is_Link, bind. destruct v as [| | | | |f|a]; cbn in Hv;
        try done.
      by destruct (h1 !! a) as [[x|p|la]|].
    - exists l1. split; [done|]. cbn. by rewrite Z.sub_0_r. }
  destruct layer as [| |z|s|vs|f|a]; try (by apply Hplain).
  - destruct (decide (is_lambda (VFunc f) = true))
      as [Hlam|Hlam%not_true_is_false]; [|by apply Hplain].
    unfold is_Link at 1. unfold bind at 1. rewrite Hlam.
    rewrite (Sequential_set_n_lambda_run _ _ _ _ _ _ _ Hl1 eq_refl).
    eexists. split; [done|]. split.
    + by apply Sequential_at_updated.
    + eapply evolves_trans; [done|]. by apply evolves_set_ext.
  - destruct (decide (link_of h (VRef a) = None)) as [Hb|Hn];
      [by apply Hplain|].
    destruct (link_of h (VRef a)) as [b|] eqn:Hb; [clear Hn|done].
    assert (b = a) as ->.
    { cbn in Hb. destruct (h !! a) as [[x|p|la]|]; try discriminate.
      congruence. }
    cbn [is_lambda]. rewrite Z.sub_0_r.
    assert (∃ la1, h1 !! a = Some (OLink la1)) as [la1 Ha1].
    { cbn in Hlo.
      destruct (h1 !! a) as [[x|p|la]|]; try discriminate. by eexists. }
    rewrite (bind_run _ _ _ _ _ (is_Link_run _ _ _ Ha1)).
    rewrite (ChainList_set_children_run _ _ _ _ _ _ _ Hl1 eq_refl).
    eexists. split; [done|]. split.
    + by apply Sequential_at_updated.
    + eapply evolves_trans; [done|]. by apply evolves_set_ext.
Qed.

Lemma Sequential___delitem___out_of_range h self ch ls n i :
  Sequential_at h self ch ls n → py_index (length ls) i = None →
  Sequential___delitem__ self i h = (Raise (IndexError "pop index out of range"), h).
Proof.
  intros (l & Hl & Hk) Hi. unfold Sequential___delitem__.
  by rewrite (bind_run _ _ _ _ _ (Sequential_layers_run _ _ _ _ _ _ Hl Hk)), Hi.
Qed.

(** ** The consistency of the children and the counter *)

Lemma link_layers_app h ls1 ls2 :
  link_layers h (ls1 ++ ls2) = link_layers h ls1 ++ link_layers h ls2.
Proof. apply omap_app. Qed.

Lemma link_layers_cons h v ls :
  link_layers h (v :: ls) = option_list (link_of h v) ++ link_layers h ls.
Proof. unfold link_layers. cbn. by destruct (link_of h v). Qed.

Lemma count_lambda_app ls1 ls2 :
  count_lambda (ls1 ++ ls2) = count_lambda ls1 + count_lambda ls2.
Proof. unfold count_lambda. by rewrite filter_app, length_app. Qed.

Lemma count_lambda_cons v ls :
  count_lambda (v :: ls) = (if is_lambda v then 1 else 0) + count_lambda ls.
Proof.
  unfold count_lambda. rewrite filter_cons.
  destruct (decide (is_lambda v = true)) as [->|Hn]; [done|].
  by destruct (is_lambda v).
Qed.

Lemma remove_first_perm a ch : a ∈ ch → ch ≡ₚ a :: remove_first a ch.
Proof.
  induction ch as [|c ch IH]; [by intros ?%elem_of_nil|].
  intros Ha. cbn. case_bool_decide as Hc; [by subst|].
  apply elem_of_cons in Ha as [->|Ha]; [done|].
  rewrite (IH Ha) at 1. apply Permutation_swap.
Qed.

Lemma consistent_insert h h' self ch ls n i layer :
  n = Z.of_nat (count_lambda ls) → ch ≡ₚ link_layers h ls →
  evolves self h h' →
  let ls' := list_insert_at i layer ls in
  (n + (if is_lambda layer then 1 else 0))%Z = Z.of_nat (count_lambda ls') ∧
  ch ++ option_list (link_of h layer) ≡ₚ link_layers h' ls'.
Proof.
  intros Hn Hch E ls'. unfold ls', list_insert_at. split.
  - rewrite count_lambda_app, count_lambda_cons, Hn.
    rewrite <-(take_drop i ls) at 1. rewrite count_lambda_app.
    destruct (is_lambda layer); lia.
  - rewrite (evolves_link_layers _ _ _ _ E), link_layers_app, link_layers_cons.
    rewrite Hch. rewrite <-(take_drop i ls) at 1. rewrite link_layers_app.
    rewrite <-!app_assoc. apply Permutation_app_head.
    apply Permutation_app_comm.
Qed.

Lemma consistent_delete h h' self ch ls n j layer :
  n = Z.of_nat (count_lambda ls) → ch ≡ₚ link_layers h ls →
  evolves self h h' → ls !! j = Some layer →
  (n - (if is_lambda layer then 1 else 0))%Z = Z.of_nat (count_lambda (delete j ls)) ∧
  match link_of h layer with Some a => remove_first a ch | None => ch end
    ≡ₚ link_layers h' (delete j ls).
Proof.
  intros Hn Hch E Hj.
  pose proof (take_drop_middle _ _ _ Hj) as Hls.
  rewrite delete_take_drop. split.
  - rewrite Hn. rewrite <-Hls at 1.
    rewrite !count_lambda_app, count_lambda_cons.
    destruct (is_lambda layer); lia.
  - rewrite (evolves_link_layers _ _ _ _ E), link_layers_app.
    rewrite <-Hls, link_layers_app, link_layers_cons in Hch.
    destruct (link_of h layer) as [a|]; [|done]. cbn in Hch.
    assert (Ha : a ∈ ch) by (rewrite Hch; set_solver).
    rewrite (remove_first_perm _ _ Ha) in Hch.
    rewrite <-Permutation_middle in Hch.
    by apply Permutation_cons_inv in Hch.
Qed.

Lemma Sequential_insert_consistent self i layer :
  preserves (Sequential_consistent self) (Sequential_insert self i layer).
Proof.
  intros h r h' (ch & ls & n & Hat & Hn & Hch) R.
  destruct (callable layer h).1 as [[]|e] eqn:Hc.
  - destruct (Sequential_insert_spec _ _ _ _ _ i _ Hat Hc) as (h1 & R1 & Hat1 & E).
    rewrite R1 in R. injection R as <- <-.
    destruct (consistent_insert _ _ _ _ _ _ (py_insert_index (length ls) i) layer
                Hn Hch E) as [Hn' Hch'].
    by eexists _, _, _.
  - unfold Sequential_insert, bind in R. rewrite callable_pure, Hc in R.
    cbn in R. injection R as <- <-. by eexists _, _, _.
  - unfold callable in Hc. destruct layer as [| | | | | |a]; try done.
    by destruct (h !! a) as [[x|p|la]|].
Qed.

Lemma Sequential___delitem___consistent self i :
  preserves (Sequential_consistent self) (Sequential___delitem__ self i).
Proof.
  intros h r h' (ch & ls & n & Hat & Hn & Hch) R.
  destruct (py_index (length ls) i) as [j|] eqn:Hi.
  - pose proof (py_index_lt _ _ _ Hi) as Hlt.
    destruct (lookup_lt_is_Some_2 ls j Hlt) as [layer Hj].
    destruct (Sequential___delitem___spec _ _ _ _ _ _ _ _ Hat Hi Hj)
      as (h1 & R1 & Hat1 & E).
    rewrite R1 in R. injection R as <- <-.
    destruct (consistent_delete _ _ _ _ _ _ _ _ Hn Hch E Hj) as [Hn' Hch'].
    by eexists _, _, _.
  - rewrite (Sequential___delitem___out_of_range _ _ _ _ _ _ Hat Hi) in R.
    injection R as <- <-. by eexists _, _, _.
Qed.

Lemma Sequential_layers_pure self h : (Sequential_layers self h).2 = h.
Proof.
  unfold Sequential_layers, bind. pose proof (get_link_pure self h) as E.
  destruct (get_link self h) as [[l|e] h1]; cbn in *; subst; [|done].
  by destruct (ext l).
Qed.

Lemma bind_pure {A B} (m : M A) (k : A → M B) h :
  (∀ h, (m h).2 = h) → (∀ a h, (k a h).2 = h) → (bind m k h).2 = h.
Proof.
  intros Hm Hk. unfold bind. specialize (Hm h).
  destruct (m h) as [[a|e] h1]; cbn in *; subst; [apply Hk|done].
Qed.

Lemma Sequential___len___pure self h : (Sequential___len__ self h).2 = h.
Proof. apply bind_pure; [apply Sequential_layers_pure|done]. Qed.

Lemma Sequential___getitem___pure self i h : (Sequential___getitem__ self i h).2 = h.
Proof.
  apply bind_pure; [apply Sequential_layers_pure|]. intros ls h1.
  destruct (py_index _ _) as [j|]; [|done]. by destruct (ls !! j).
Qed.

Lemma Sequential___contains___pure self v h :
  (Sequential___contains__ self v h).2 = h.
Proof. apply bind_pure; [apply Sequential_layers_pure|done]. Qed.

Lemma Sequential_index_pure self v s e h : (Sequential_index self v s e h).2 = h.
Proof.
  apply bind_pure; [apply Sequential_layers_pure|]. intros ls h1.
  by destruct (list_index _ _).
Qed.

Lemma callable_pure' v h : (callable v h).2 = h.
Proof. by rewrite callable_pure. Qed.

Lemma run_seq_op_preserves (I : heap → Prop) self op :
  (∀ i layer, preserves I (Sequential_insert self i layer)) →
  (∀ i, preserves I (Sequential___delitem__ self i)) →
  preserves I (run_seq_op self op).
Proof.
  intros Hins Hdel.
  assert (Happ : ∀ layer, preserves I (Sequential_append self layer)).
  { intros layer. apply preserves_bind.
    - apply preserves_pure, Sequential___len___pure.
    - intros n. apply Hins. }
  destruct op as [i layer|layer|layers|i layer|i|i|layer]; cbn [run_seq_op].
  - apply Hins.
  - apply Happ.
  - by apply preserves_for_each.
  - apply preserves_bind; [apply preserves_pure, Sequential___len___pure|].
    intros n. case_bool_decide; [apply preserves_raise|].
    apply preserves_bind; [apply preserves_pure, callable_pure'|].
    intros [|]; cbn [negb]; [|apply preserves_raise].
    apply preserves_bind; [apply preserves_pure, Sequential___getitem___pure|].
    intros old. destruct (negb _); [|apply preserves_ret].
    apply preserves_bind; [apply Hdel|].
    intros _. apply Hins.
  - apply Hdel.
  - apply preserves_bind; [|intros; apply preserves_ret].
    apply preserves_bind; [apply preserves_pure, Sequential___getitem___pure|].
    intros layer. apply preserves_bind; [apply Hdel|].
    intros; apply preserves_ret.
  - apply preserves_bind; [apply preserves_pure, Sequential___contains___pure|].
    intros [|]; [|apply preserves_raise].
    apply preserves_bind; [apply preserves_pure, Sequential_index_pure|].
    intros j. apply Hdel.
Qed.

Lemma run_seq_ops_preserves (I : heap → Prop) self ops h :
  (∀ i layer, preserves I (Sequential_insert self i layer)) →
  (∀ i, preserves I (Sequential___delitem__ self i)) →
  I h → I (run_seq_ops self ops h).
Proof.
  intros Hins Hdel. revert h. induction ops as [|op ops IH]; intros h HI; [done|].
  cbn [run_seq_ops]. apply IH.
  destruct (run_seq_op self op h) as [r h1] eqn:R.
  by eapply (run_seq_op_preserves I self op).
Qed.

Lemma run_seq_ops_consistent self ops h :
  Sequential_consistent self h → Sequential_consistent self (run_seq_ops self ops h).
Proof.
  apply run_seq_ops_preserves.
  - apply Sequential_insert_consistent.
  - apply Sequential___delitem___consistent.
Qed.

(** X12. After any sequence of [insert], [append], [extend], item assignment,
    item deletion, [pop] and [remove], raising or not, a Sequential whose
    registered children were its Link layers and whose counter was the
    number of its anonymous layers is again such a Sequential: the
    children are the Link layers, each as often as it occurs among the
    layers, and the counter is the number of anonymous functions among the
    layers. *)
Theorem Sequential_methods_keep_consistency self ops h :
  Sequential_consistent self h →
  ∃ ch ls n, Sequential_at (run_seq_ops self ops h) self ch ls n ∧
    n = Z.of_nat (count_lambda ls) ∧
    ch ≡ₚ link_layers (run_seq_ops self ops h) ls.
Proof. intros HI. by apply run_seq_ops_consistent. Qed.

Lemma Sequential_methods_keep_consistency_witness :
  ∃ ch ls n,
    Sequential_at (run_seq_ops 3 [SInsert 0 anonymous; SAppend (VRef 2); SDelitem 1;
                                  SSetitem 5 succ_fn] demo_heap) 3 ch ls n ∧
    n = Z.of_nat (count_lambda ls) ∧
    ch ≡ₚ link_layers (run_seq_ops 3 [SInsert 0 anonymous; SAppend (VRef 2);
                                      SDelitem 1; SSetitem 5 succ_fn] demo_heap) ls.
Proof.
  apply (Sequential_methods_keep_consistency 3 _ demo_heap).
  exists [2], [VRef 2], 0%Z. split; [|split].
  - eexists. split; reflexivity.
  - reflexivity.
  - reflexivity.
Defined.

(** X13. Pickling after any sequence of [insert], [append], [extend], item
    assignment, item deletion, [pop] and [remove] on a consistent
    Sequential: [__reduce__] raises the [ValueError] about lambda
    functions exactly when an anonymous function is among the layers. *)
Theorem Sequential___reduce___raises_iff_lambda self ops h :
  Sequential_consistent self h →
  ∃ ls, Sequential_layers self (run_seq_ops self ops h)
        = (Ok ls, run_seq_ops self ops h) ∧
    (Sequential___reduce__ self (run_seq_ops self ops h)
       = (Raise (ValueError lambda_message), run_seq_ops self ops h)
     ↔ ∃ v, v ∈ ls ∧ is_lambda v = true).
Proof.
  intros HI. apply (run_seq_ops_consistent self ops) in HI.
  destruct HI as (ch & ls & n & (l & Hl & Hk) & Hn & _).
  exists ls. split; [by eapply Sequential_layers_run|].
  unfold Sequential___reduce__.
  rewrite (bind_run _ _ _ _ _ (get_link_run _ _ _ Hl)), Hk.
  assert (Hpos : (n > 0)%Z ↔ ∃ v, v ∈ ls ∧ is_lambda v = true).
  { rewrite Hn. unfold count_lambda. split.
    - intros Hlen. destruct (filter _ ls) as [|v vs] eqn:Hf; [cbn in Hlen; lia|].
      exists v. apply and_comm.
      apply (list_elem_of_filter (λ v, is_lambda v = true)).
      rewrite Hf. left.
    - intros (v & Hv & Hlam).
      assert (v ∈ filter (λ v, is_lambda v = true) ls) as Hin
        by (by apply list_elem_of_filter).
      destruct (filter _ ls); [by apply elem_of_nil in Hin|cbn; lia]. }
  case_bool_decide as Hc.
  - split; [intros _; by apply Hpos|done].
  - split; [done|]. intros Hex. by apply Hpos in Hex.
Qed.

Lemma Sequential___reduce___raises_iff_lambda_witness :
  ∃ ls, Sequential_layers 3 (run_seq_ops 3 [SAppend anonymous; SPop 0] demo_heap)
        = (Ok ls, run_seq_ops 3 [SAppend anonymous; SPop 0] demo_heap) ∧
    (Sequential___reduce__ 3 (run_seq_ops 3 [SAppend anonymous; SPop 0] demo_heap)
       = (Raise (ValueError lambda_message),
          run_seq_ops 3 [SAppend anonymous; SPop 0] demo_heap)
     ↔ ∃ v, v ∈ ls ∧ is_lambda v = true).
Proof.
  apply (Sequential___reduce___raises_iff_lambda 3 _ demo_heap).
  exists [2], [VRef 2], 0%Z. split; [|split].
  - eexists. split; reflexivity.
  - reflexivity.
  - reflexivity.
Defined.

(** ** Appending layers *)

Lemma Sequential_at_layers h self ch ls n :
  Sequential_at h self ch ls n → Sequential_layers self h = (Ok ls, h).
Proof. intros (l & Hl & Hk). by eapply Sequential_layers_run. Qed.

Lemma Sequential_at_n_lambda h self ch ls n :
  Sequential_at h self ch ls n → Sequential_n_lambda self h = (Ok n, h).
Proof. intros (l & Hl & Hk). by eapply Sequential_n_lambda_run. Qed.

Lemma Sequential_at_children h self ch ls n :
  Sequential_at h self ch ls n → ChainList_children self h = (Ok ch, h).
Proof. intros (l & Hl & Hk). by eapply ChainList_children_run. Qed.

Lemma Sequential_at_len h self ch ls n :
  Sequential_at h self ch ls n → Sequential___len__ self h = (Ok (length ls), h).
Proof.
  intros Hat. unfold Sequential___len__.
  by rewrite (bind_run _ _ _ _ _ (Sequential_at_layers _ _ _ _ _ Hat)).
Qed.

Lemma Sequential_at_inj h self ch ls n ch' ls' n' :
  Sequential_at h self ch ls n → Sequential_at h self ch' ls' n' →
  ch' = ch ∧ ls' = ls ∧ n' = n.
Proof.
  intros (l & Hl & Hk) (l' & Hl' & Hk'). rewrite Hl in Hl'. injection Hl' as <-.
  rewrite Hk in Hk'. by injection Hk' as <- <- <-.
Qed.

Lemma Sequential_append_spec h self ch ls n layer :
  Sequential_at h self ch ls n → (callable layer h).1 = Ok true →
  ∃ h', Sequential_append self layer h = (Ok tt, h') ∧
    Sequential_at h' self (ch ++ option_list (link_of h layer)) (ls ++ [layer])
      (n + (if is_lambda layer then 1 else 0)) ∧
    evolves self h h'.
Proof.
  intros Hat Hc. unfold Sequential_append.
  rewrite (bind_run _ _ _ _ _ (Sequential_at_len _ _ _ _ _ Hat)).
  destruct (Sequential_insert_spec _ _ _ _ _ (Z.of_nat (length ls)) _ Hat Hc)
    as (h' & R & Hat' & E).
  rewrite py_insert_index_end, list_insert_at_end in Hat'. by exists h'.
Qed.

Lemma Sequential_extend_spec h self ch ls n layers :
  Sequential_at h self ch ls n →
  Forall (λ v, (callable v h).1 = Ok true) layers →
  ∃ h', for_each layers (Sequential_append self) h = (Ok tt, h') ∧
    Sequential_at h' self (ch ++ link_layers h layers) (ls ++ layers)
      (n + Z.of_nat (count_lambda layers)) ∧
    evolves self h h'.
Proof.
  intros Hat Hc. revert h ch ls n Hat Hc.
  induction layers as [|v vs IH]; intros h ch ls n Hat Hc.
  - exists h. rewrite !app_nil_r, Z.add_0_r. split; [done|].
    split; [done|apply evolves_refl].
  - apply Forall_cons in Hc as [Hv Hvs]. cbn [for_each].
    destruct (Sequential_append_spec _ _ _ _ _ _ Hat Hv) as (h1 & R1 & Hat1 & E1).
    rewrite (bind_run _ _ _ _ _ R1).
    destruct (IH h1 _ _ _ Hat1) as (h2 & R2 & Hat2 & E2).
    { eapply Forall_impl; [exact Hvs|]. intros w Hw. cbn in Hw |- *.
      by rewrite (evolves_callable _ _ _ _ E1). }
    exists h2. split; [done|]. split; [|by eapply evolves_trans].
    rewrite (evolves_link_layers _ _ _ _ E1) in Hat2.
    rewrite link_layers_cons, count_lambda_cons.
    rewrite <-!app_assoc in Hat2. cbn [app] in Hat2.
    replace (n + Z.of_nat ((if is_lambda v then 1 else 0) + count_lambda vs))%Z
      with (n + (if is_lambda v then 1 else 0) + Z.of_nat (count_lambda vs))%Z
      by (destruct (is_lambda v); lia).
    done.
Qed.

Lemma callable_app (h h2 : heap) v :
  (callable v h).1 = Ok true → (callable v (h ++ h2)).1 = Ok true.
Proof.
  destruct v as [| | | | | |a]; try done. cbn.
  destruct (h !! a) as [o|] eqn:Ho; [|done].
  rewrite (lookup_app_l_Some _ _ _ _ Ho). by destruct o.
Qed.

Lemma link_of_app (h h2 : heap) v :
  (callable v h).1 = Ok true → link_of (h ++ h2) v = link_of h v.
Proof.
  destruct v as [| | | | | |a]; try done. cbn.
  destruct (h !! a) as [o|] eqn:Ho; [|done].
  rewrite (lookup_app_l_Some _ _ _ _ Ho). by destruct o.
Qed.

Lemma link_layers_app_heap (h h2 : heap) ls :
  Forall (λ v, (callable v h).1 = Ok true) ls →
  link_layers (h ++ h2) ls = link_layers h ls.
Proof.
  induction 1 as [|v ls Hv _ IH]; [done|].
  by rewrite !link_layers_cons, IH, link_of_app.
Qed.

Lemma Sequential_at_app (h h2 : heap) a ch ls n :
  Sequential_at h a ch ls n → Sequential_at (h ++ h2) a ch ls n.
Proof.
  intros (l & Hl & Hk). exists l. split; [|done]. by apply lookup_app_l_Some.
Qed.

Lemma Forall_callable_evolves self h h' ls :
  evolves self h h' →
  Forall (λ v, (callable v h).1 = Ok true) ls →
  Forall (λ v, (callable v h').1 = Ok true) ls.
Proof.
  intros E Hc. eapply Forall_impl; [exact Hc|]. intros v Hv. cbn in Hv |- *.
  by rewrite (evolves_callable _ _ _ _ E).
Qed.

Lemma callable_run_ok v h : (callable v h).1 = Ok true → callable v h = (Ok true, h).
Proof. intros E. by rewrite callable_pure, E. Qed.

Lemma Sequential_consistent_intro h self ls :
  Sequential_at h self (link_layers h ls) ls (Z.of_nat (count_lambda ls)) →
  Sequential_consistent self h.
Proof. intros Hat. by exists (link_layers h ls), ls, (Z.of_nat (count_lambda ls)). Qed.

Lemma Sequential___init___spec (h : heap) c layers :
  Forall (λ v, (callable v h).1 = Ok true) layers →
  ∃ h', Sequential___init__ c layers h = (Ok (length h), h') ∧
    Sequential_at h' (length h) (link_layers h layers) layers
      (Z.of_nat (count_lambda layers)) ∧
    Sequential___len__ (length h) h' = (Ok (length layers), h') ∧
    Sequential_consistent (length h) h' ∧
    length h' = S (length h) ∧
    (∀ a ch ls n, Sequential_at h a ch ls n → Sequential_at h' a ch ls n) ∧
    (∀ v, (callable v h).1 = Ok true → (callable v h').1 = Ok true).
Proof.
  intros Hc. unfold Sequential___init__.
  rewrite (bind_run _ _ _ _ _ (alloc_run _ _)).
  set (l0 := {| cls := c; ext := KSequential [] [] 0 |}).
  assert (Hat0 : Sequential_at (h ++ [OLink l0]) (length h) [] [] 0).
  { exists l0. split; [|done]. by rewrite list_lookup_middle. }
  destruct (Sequential_extend_spec _ _ _ _ _ layers Hat0)
    as (h1 & R & Hat1 & E).
  { eapply Forall_impl; [exact Hc|]. intros v Hv. by apply callable_app. }
  rewrite (bind_run _ _ _ _ _ R). exists h1.
  rewrite (link_layers_app_heap _ _ _ Hc) in Hat1. cbn in Hat1.
  split; [done|]. split; [done|]. split; [by eapply Sequential_at_len|].
  split; [|split; [|split]].
  - apply (Sequential_consistent_intro _ _ layers).
    rewrite (evolves_link_layers _ _ _ _ E).
    by rewrite (link_layers_app_heap _ _ _ Hc).
  - destruct E as [-> _]. rewrite length_app. cbn. lia.
  - intros a ch ls n Hat. eapply evolves_other; [exact E| |by apply Sequential_at_app].
    destruct Hat as (l & Hl & _). apply lookup_lt_Some in Hl. lia.
  - intros v Hv. rewrite (evolves_callable _ _ _ _ E). by apply callable_app.
Qed.

(** X11. The constructor of Sequential on callable layers: the new object
    holds the layers in the order given, its children are the Link layers
    in that order, its counter is the number of anonymous functions, and
    the list methods keep it consistent from there. *)
Theorem Sequential___init___registers_layers (h : heap) c layers :
  Forall (λ v, (callable v h).1 = Ok true) layers →
  ∃ h', Sequential___init__ c layers h = (Ok (length h), h') ∧
    Sequential_at h' (length h) (link_layers h layers) layers
      (Z.of_nat (count_lambda layers)) ∧
    Sequential___len__ (length h) h' = (Ok (length layers), h') ∧
    Sequential_consistent (length h) h'.
Proof.
  intros Hc. destruct (Sequential___init___spec h c layers Hc)
    as (h' & R & Hat & Hlen & Hcons & _).
  by exists h'.
Qed.

Lemma Sequential___init___registers_layers_witness :
  ∃ h', Sequential___init__ Sequential_class [VRef 2; anonymous; succ_fn] demo_heap
        = (Ok (length demo_heap), h') ∧
    Sequential_at h' (length demo_heap)
      (link_layers demo_heap [VRef 2; anonymous; succ_fn])
      [VRef 2; anonymous; succ_fn]
      (Z.of_nat (count_lambda [VRef 2; anonymous; succ_fn])) ∧
    Sequential___len__ (length demo_heap) h' = (Ok 3, h') ∧
    Sequential_consistent (length demo_heap) h'.
Proof.
  apply (Sequential___init___registers_layers demo_heap Sequential_class
           [VRef 2; anonymous; succ_fn]).
  repeat constructor.
Defined.

Lemma Sequential___add___spec (h : heap) self o ch1 ls1 n1 ch2 ls2 n2 :
  Sequential_at h self ch1 ls1 n1 → Sequential_at h o ch2 ls2 n2 →
  Forall (λ v, (callable v h).1 = Ok true) ls1 →
  Forall (λ v, (callable v h).1 = Ok true) ls2 →
  ∃ h', Sequential___add__ self (VRef o) h = (Ok (length h), h') ∧
    Sequential_at h' (length h) (link_layers h (ls1 ++ ls2)) (ls1 ++ ls2)
      (Z.of_nat (count_lambda (ls1 ++ ls2))) ∧
    Sequential_at h' self ch1 ls1 n1 ∧ Sequential_at h' o ch2 ls2 n2.
Proof.
  intros Hs Ho Hc1 Hc2.
  assert (Hlt : ∀ a ch ls n, Sequential_at h a ch ls n → a ≠ length h).
  { intros a ch ls n (l & Hl & _) ->. apply lookup_lt_Some in Hl. lia. }
  unfold Sequential___add__.
  assert (His : is_Sequential (VRef o) h = (Ok true, h)).
  { destruct Ho as (l & Hl & Hk). unfold is_Sequential. by rewrite Hl, Hk. }
  rewrite (bind_run _ _ _ _ _ His). cbv iota.
  set (l0 := demo_link Sequential_class (KSequential [] [] 0) ∅).
  set (h0 := h ++ [OLink l0]).
  assert (R0 : Sequential___init__ Sequential_class [] h = (Ok (length h), h0)) by done.
  rewrite (bind_run _ _ _ _ _ R0).
  assert (Hat0 : Sequential_at h0 (length h) [] [] 0).
  { exists l0. split; [|done]. unfold h0. by rewrite list_lookup_middle. }
  pose proof (Sequential_at_app _ [OLink l0] _ _ _ _ Hs) as Hs0.
  pose proof (Sequential_at_app _ [OLink l0] _ _ _ _ Ho) as Ho0.
  fold h0 in Hs0, Ho0.
  rewrite (bind_run _ _ _ _ _ (Sequential_at_layers _ _ _ _ _ Hs0)).
  assert (Hc10 : Forall (λ v, (callable v h0).1 = Ok true) ls1).
  { eapply Forall_impl; [exact Hc1|]. intros v Hv. by apply callable_app. }
  assert (Hc20 : Forall (λ v, (callable v h0).1 = Ok true) ls2).
  { eapply Forall_impl; [exact Hc2|]. intros v Hv. by apply callable_app. }
  destruct (Sequential_extend_spec _ _ _ _ _ ls1 Hat0 Hc10) as (h1 & R1 & Hat1 & E1).
  rewrite (bind_run _ _ _ _ _ R1).
  pose proof (evolves_other _ _ _ _ _ _ _ E1 (Hlt _ _ _ _ Ho) Ho0) as Ho1.
  rewrite (bind_run _ _ _ _ _ (Sequential_at_layers _ _ _ _ _ Ho1)).
  destruct (Sequential_extend_spec _ _ _ _ _ ls2 Hat1
              (Forall_callable_evolves _ _ _ _ E1 Hc20)) as (h2 & R2 & Hat2 & E2).
  rewrite (bind_run _ _ _ _ _ R2).
  pose proof (evolves_trans _ _ _ _ E1 E2) as E.
  exists h2. split; [done|]. split; [|split].
  - rewrite (evolves_link_layers _ _ _ _ E1) in Hat2. unfold h0 in Hat2.
    rewrite !link_layers_app_heap in Hat2 by done.
    rewrite link_layers_app, count_lambda_app, Nat2Z.inj_add.
    cbn [app] in Hat2. by rewrite Z.add_0_l in Hat2.
  - by eapply evolves_other; [exact E|eapply Hlt|].
  - by eapply evolves_other; [exact E|eapply Hlt|].
Qed.

(** X23. [s1 + s2] on two Sequentials of callable layers returns a new
    Sequential whose layers are those of [s1] followed by those of [s2],
    whose children are the Link layers in that order and whose counter
    counts the anonymous layers again; the operands keep their layers,
    children and counters. *)
Theorem Sequential___add___concatenates (h : heap) self o ch1 ls1 n1 ch2 ls2 n2 :
  Sequential_at h self ch1 ls1 n1 → Sequential_at h o ch2 ls2 n2 →
  Forall (λ v, (callable v h).1 = Ok true) ls1 →
  Forall (λ v, (callable v h).1 = Ok true) ls2 →
  ∃ h', Sequential___add__ self (VRef o) h = (Ok (length h), h') ∧
    Sequential_at h' (length h) (link_layers h (ls1 ++ ls2)) (ls1 ++ ls2)
      (Z.of_nat (count_lambda (ls1 ++ ls2))) ∧
    Sequential_at h' self ch1 ls1 n1 ∧ Sequential_at h' o ch2 ls2 n2.
Proof. apply Sequential___add___spec. Qed.

Lemma Sequential___add___concatenates_witness :
  ∃ h', Sequential___add__ 3 (VRef 3) demo_heap = (Ok (length demo_heap), h') ∧
    Sequential_at h' (length demo_heap)
      (link_layers demo_heap ([VRef 2] ++ [VRef 2])) ([VRef 2] ++ [VRef 2])
      (Z.of_nat (count_lambda ([VRef 2] ++ [VRef 2]))) ∧
    Sequential_at h' 3 [2] [VRef 2] 0 ∧ Sequential_at h' 3 [2] [VRef 2] 0.
Proof.
  apply (Sequential___add___concatenates demo_heap 3 3 [2] [VRef 2] 0 [2] [VRef 2] 0).
  - eexists. split; reflexivity.
  - eexists. split; reflexivity.
  - repeat constructor.
  - repeat constructor.
Defined.

(** X24. [+] with a callable that is no Sequential is not symmetric: [s + f]
    appends [f] to [s] itself and returns [s], while [f + s] leaves the
    layers of [s] alone and returns a new Sequential that holds [f]
    followed by the layers of [s]. *)
Theorem Sequential___add___callable_in_place (h : heap) self ch ls n other :
  Sequential_at h self ch ls n → (callable other h).1 = Ok true →
  (is_Sequential other h).1 = Ok false →
  Forall (λ v, (callable v h).1 = Ok true) ls →
  (∃ h', Sequential___add__ self other h = (Ok self, h') ∧
         Sequential_layers self h' = (Ok (ls ++ [other]), h')) ∧
  (∃ h', Sequential___radd__ self other h = (Ok (S (length h)), h') ∧
         Sequential_layers (S (length h)) h' = (Ok (other :: ls), h') ∧
         Sequential_layers self h' = (Ok ls, h')).
Proof.
  intros Hat Hc Hs Hls. split.
  - unfold Sequential___add__.
    assert (His : is_Sequential other h = (Ok false, h)).
    { unfold is_Sequential in Hs |- *. destruct other as [| | | | | |a]; try done.
      destruct (h !! a) as [[x|p|l]|]; try done. cbn in Hs. by injection Hs as ->. }
    rewrite (bind_run _ _ _ _ _ His).
    rewrite (bind_run _ _ _ _ _ (callable_run_ok _ _ Hc)).
    destruct (Sequential_append_spec _ _ _ _ _ _ Hat Hc) as (h1 & R1 & Hat1 & E1).
    rewrite (bind_run _ _ _ _ _ R1). exists h1. split; [done|].
    by eapply Sequential_at_layers.
  - unfold Sequential___radd__.
    rewrite (bind_run _ _ _ _ _ (callable_run_ok _ _ Hc)).
    destruct (Sequential___init___spec h Sequential_class [other])
      as (h1 & R1 & Hat1 & _ & _ & Hlen & Hframe & Hcall).
    { by apply Forall_singleton. }
    rewrite (bind_run _ _ _ _ _ R1).
    destruct (Sequential___add___spec h1 (length h) self _ _ _ _ _ _
                Hat1 (Hframe _ _ _ _ Hat)) as (h2 & R2 & Hat2 & _ & Hself).
    { apply Forall_singleton. by apply Hcall. }
    { eapply Forall_impl; [exact Hls|]. intros v Hv. by apply Hcall. }
    rewrite Hlen in R2, Hat2. exists h2. split; [done|].
    split; by eapply Sequential_at_layers.
Qed.

Lemma Sequential___add___callable_in_place_witness :
  (∃ h', Sequential___add__ 3 succ_fn demo_heap = (Ok 3, h') ∧
         Sequential_layers 3 h' = (Ok ([VRef 2] ++ [succ_fn]), h')) ∧
  (∃ h', Sequential___radd__ 3 succ_fn demo_heap = (Ok (S (length demo_heap)), h') ∧
         Sequential_layers (S (length demo_heap)) h' = (Ok (succ_fn :: [VRef 2]), h') ∧
         Sequential_layers 3 h' = (Ok [VRef 2], h')).
Proof.
  apply (Sequential___add___callable_in_place demo_heap 3 [2] [VRef 2] 0 succ_fn).
  - eexists. split; reflexivity.
  - reflexivity.
  - reflexivity.
  - repeat constructor.
Defined.

(** ** Item assignment *)

Lemma Sequential___getitem___run h self ch ls n i j v :
  Sequential_at h self ch ls n → py_index (length ls) i = Some j →
  ls !! j = Some v → Sequential___getitem__ self i h = (Ok v, h).
Proof.
  intros Hat Hi Hj. unfold Sequential___getitem__.
  by rewrite (bind_run _ _ _ _ _ (Sequential_at_layers _ _ _ _ _ Hat)), Hi, Hj.
Qed.

Lemma callable_run v h b : (callable v h).1 = Ok b → callable v h = (Ok b, h).
Proof. intros E. by rewrite callable_pure, E. Qed.

Lemma list_insert_at_delete {A} (l : list A) j x :
  j < length l → list_insert_at j x (delete j l) = <[j := x]> l.
Proof.
  intros Hj. unfold list_insert_at.
  rewrite delete_take_drop, (insert_take_drop _ _ _ Hj).
  rewrite take_app_length' by (rewrite length_take; lia).
  by rewrite drop_app_length' by (rewrite length_take; lia).
Qed.

(** X15. Item assignment [self[i] = layer] for an index in range and a
    callable layer.  When the layer at [i] is the given one nothing
    changes.  Otherwise the old layer is deleted and the new one inserted
    at [i] in the shorter list: for [i >= 0] this replaces the layer at
    [i]; for a negative [i] the new layer lands one position before that
    of the deleted one (on [[a; b; c]], [self[-1] = g] gives
    [[a; g; b]]), except for [i = -len(self)]. *)
Theorem Sequential___setitem___places_layer h self ch ls n i j layer old :
  Sequential_at h self ch ls n → (callable layer h).1 = Ok true →
  py_index (length ls) i = Some j → ls !! j = Some old →
  ∃ h', Sequential___setitem__ self i layer h = (Ok tt, h') ∧
    Sequential_layers self h'
    = (Ok (if value_is old layer then ls
           else if bool_decide (0 ≤ i)%Z then <[j := layer]> ls
           else list_insert_at (Nat.pred j) layer (delete j ls)), h').
Proof.
  intros Hat Hc Hi Hj. pose proof (py_index_lt _ _ _ Hi) as Hlt.
  unfold Sequential___setitem__.
  rewrite (bind_run _ _ _ _ _ (Sequential_at_len _ _ _ _ _ Hat)).
  assert (Hrange : (i < Z.of_nat (length ls))%Z).
  { unfold py_index in Hi. repeat case_bool_decide; cbn in Hi; try done; lia. }
  rewrite bool_decide_eq_false_2 by lia.
  rewrite (bind_run _ _ _ _ _ (callable_run _ _ _ Hc)). cbn [negb].
  rewrite (bind_run _ _ _ _ _ (Sequential___getitem___run _ _ _ _ _ _ _ _ Hat Hi Hj)).
  destruct (value_is old layer); cbn [negb].
  { exists h. split; [done|]. by eapply Sequential_at_layers. }
  destruct (Sequential___delitem___spec _ _ _ _ _ _ _ _ Hat Hi Hj)
    as (h1 & R1 & Hat1 & E1).
  rewrite (bind_run _ _ _ _ _ R1).
  destruct (Sequential_insert_spec _ _ _ _ _ i layer Hat1) as (h2 & R2 & Hat2 & E2).
  { by rewrite (evolves_callable _ _ _ _ E1). }
  exists h2. split; [done|].
  rewrite (Sequential_at_layers _ _ _ _ _ Hat2). do 2 f_equal.
  rewrite length_delete by (by eexists).
  unfold py_index in Hi. unfold py_insert_index.
  destruct (decide (i < 0)%Z) as [Hneg|Hneg].
  - rewrite (bool_decide_eq_false_2 (0 ≤ i)%Z) by lia.
    rewrite (bool_decide_eq_true_2 (i < 0)%Z) in Hi |- * by lia.
    destruct (bool_decide (0 ≤ i + Z.of_nat (length ls))%Z) eqn:H0;
      [apply bool_decide_eq_true in H0|done].
    destruct (bool_decide (i + Z.of_nat (length ls) < Z.of_nat (length ls))%Z);
      [|done].
    injection Hi as <-. f_equal.
    repeat case_bool_decide; lia.
  - rewrite (bool_decide_eq_false_2 (i < 0)%Z) in Hi |- * by lia.
    rewrite (bool_decide_eq_true_2 (0 ≤ i)%Z) in Hi |- * by lia.
    rewrite (bool_decide_eq_true_2 (i < Z.of_nat (length ls))%Z) in Hi by lia.
    injection Hi as <-.
    rewrite !bool_decide_eq_false_2 by lia.
    by apply list_insert_at_delete.
Qed.

Lemma Sequential___setitem___places_layer_witness :
  ∃ h', Sequential___setitem__ 0 (-1) anonymous
          [OLink (demo_sequential [succ_fn; dup_fn; add_fn])] = (Ok tt, h') ∧
    Sequential_layers 0 h'
    = (Ok (if value_is add_fn anonymous then [succ_fn; dup_fn; add_fn]
           else if bool_decide (0 ≤ -1)%Z
                then <[2 := anonymous]> [succ_fn; dup_fn; add_fn]
                else list_insert_at (Nat.pred 2) anonymous
                       (delete 2 [succ_fn; dup_fn; add_fn])), h').
Proof.
  apply (Sequential___setitem___places_layer
           [OLink (demo_sequential [succ_fn; dup_fn; add_fn])] 0 []
           [succ_fn; dup_fn; add_fn] 0 (-1) 2 anonymous add_fn).
  - eexists. split; reflexivity.
  - reflexivity.
  - reflexivity.
  - reflexivity.
Defined.

(** X16. Item assignment of a callable layer at an index out of range: an
    index at or beyond the length is a [ValueError], an index below
    [-len(self)] an [IndexError]; the Sequential is left as it was. *)
Theorem Sequential___setitem___out_of_range h self ch ls n i layer :
  Sequential_at h self ch ls n → (callable layer h).1 = Ok true →
  py_index (length ls) i = None →
  Sequential___setitem__ self i layer h
  = (Raise (if bool_decide (0 ≤ i)%Z
            then ValueError "index should be less than the length"
            else IndexError "list index out of range"), h).
Proof.
  intros Hat Hc Hi. unfold Sequential___setitem__.
  rewrite (bind_run _ _ _ _ _ (Sequential_at_len _ _ _ _ _ Hat)).
  unfold py_index in Hi. destruct (decide (i < 0)%Z) as [Hneg|Hneg].
  - rewrite (bool_decide_eq_true_2 (i < 0)%Z) in Hi by lia.
    rewrite (bool_decide_eq_false_2 (0 ≤ i)%Z) by lia.
    rewrite bool_decide_eq_false_2 by lia.
    rewrite (bind_run _ _ _ _ _ (callable_run _ _ _ Hc)). cbn [negb].
    unfold Sequential___getitem__. rewrite bind_assoc.
    rewrite (bind_run _ _ _ _ _ (Sequential_at_layers _ _ _ _ _ Hat)).
    unfold py_index. rewrite (bool_decide_eq_true_2 (i < 0)%Z) by lia.
    by destruct (_ && _).
  - rewrite (bool_decide_eq_false_2 (i < 0)%Z) in Hi by lia.
    rewrite (bool_decide_eq_true_2 (0 ≤ i)%Z) in Hi |- * by lia.
    destruct (decide (Z.of_nat (length ls) ≤ i)%Z) as [Hle|Hle].
    + by rewrite bool_decide_eq_true_2.
    + by rewrite (bool_decide_eq_true_2 (i < _)%Z) in Hi by lia.
Qed.

Lemma Sequential___setitem___out_of_range_witness :
  Sequential___setitem__ 0 1 dup_fn [OLink (demo_sequential [succ_fn])]
  = (Raise (if bool_decide (0 ≤ 1)%Z
            then ValueError "index should be less than the length"
            else IndexError "list index out of range"),
     [OLink (demo_sequential [succ_fn])]).
Proof.
  apply (Sequential___setitem___out_of_range [OLink (demo_sequential [succ_fn])] 0 []
           [succ_fn] 0 1 dup_fn).
  - eexists. split; reflexivity.
  - reflexivity.
  - reflexivity.
Defined.

(** ** Layers that are not callable *)

Lemma Sequential_insert_callable self i layer :
  preserves (Sequential_callable self) (Sequential_insert self i layer).
Proof.
  intros h r h' (ch & ls & n & Hat & Hc) R.
  destruct (callable layer h).1 as [[]|e] eqn:Hl.
  - destruct (Sequential_insert_spec _ _ _ _ _ i _ Hat Hl) as (h1 & R1 & Hat1 & E).
    rewrite R1 in R. injection R as <- <-.
    eexists _, _, _. split; [done|].
    apply (Forall_callable_evolves _ _ _ _ E). unfold list_insert_at.
    apply Forall_app. split; [by apply Forall_take|].
    apply Forall_cons. split; [done|by apply Forall_drop].
  - unfold Sequential_insert, bind in R. rewrite callable_pure, Hl in R.
    cbn in R. injection R as <- <-. by eexists _, _, _.
  - unfold callable in Hl. destruct layer as [| | | | | |a]; try done.
    by destruct (h !! a) as [[x|p|la]|].
Qed.

Lemma Sequential___delitem___callable self i :
  preserves (Sequential_callable self) (Sequential___delitem__ self i).
Proof.
  intros h r h' (ch & ls & n & Hat & Hc) R.
  destruct (py_index (length ls) i) as [j|] eqn:Hi.
  - pose proof (py_index_lt _ _ _ Hi) as Hlt.
    destruct (lookup_lt_is_Some_2 ls j Hlt) as [layer Hj].
    destruct (Sequential___delitem___spec _ _ _ _ _ _ _ _ Hat Hi Hj)
      as (h1 & R1 & Hat1 & E).
    rewrite R1 in R. injection R as <- <-.
    eexists _, _, _. split; [done|].
    apply (Forall_callable_evolves _ _ _ _ E). by apply Forall_delete.
  - rewrite (Sequential___delitem___out_of_range _ _ _ _ _ _ Hat Hi) in R.
    injection R as <- <-. by eexists _, _, _.
Qed.

(** X14. A Sequential never comes to hold a layer that is not callable: after
    any sequence of [insert], [append], [extend], item assignment, item
    deletion, [pop] and [remove], raising or not, every layer of a
    Sequential of callable layers is callable. *)
Theorem Sequential_layers_stay_callable self ops h :
  Sequential_callable self h →
  ∃ ls, Sequential_layers self (run_seq_ops self ops h)
        = (Ok ls, run_seq_ops self ops h) ∧
    ∀ v, v ∈ ls → callable v (run_seq_ops self ops h)
                  = (Ok true, run_seq_ops self ops h).
Proof.
  intros HI.
  apply (run_seq_ops_preserves (Sequential_callable self) self ops) in HI;
    [|apply Sequential_insert_callable|apply Sequential___delitem___callable].
  destruct HI as (ch & ls & n & Hat & Hc). exists ls.
  split; [by eapply Sequential_at_layers|].
  intros v Hv. apply callable_run. by eapply (proj1 (Forall_forall _ _) Hc).
Qed.

Lemma Sequential_layers_stay_callable_witness :
  ∃ ls, Sequential_layers 3 (run_seq_ops 3 [SAppend (VInt 5); SInsert 0 succ_fn;
                                            SSetitem 1 VNone] demo_heap)
        = (Ok ls, run_seq_ops 3 [SAppend (VInt 5); SInsert 0 succ_fn;
                                 SSetitem 1 VNone] demo_heap) ∧
    ∀ v, v ∈ ls →
      callable v (run_seq_ops 3 [SAppend (VInt 5); SInsert 0 succ_fn;
                                 SSetitem 1 VNone] demo_heap)
      = (Ok true, run_seq_ops 3 [SAppend (VInt 5); SInsert 0 succ_fn;
                                 SSetitem 1 VNone] demo_heap).
Proof.
  apply (Sequential_layers_stay_callable 3 _ demo_heap).
  exists [2], [VRef 2], 0%Z. split.
  - eexists. split; reflexivity.
  - repeat constructor.
Defined.

(** ** [append] and [pop] *)

Lemma remove_first_app_last a ch : remove_first a (ch ++ [a]) ≡ₚ ch.
Proof.
  assert (Ha : a ∈ ch ++ [a]) by set_solver.
  pose proof (remove_first_perm _ _ Ha) as Hp.
  apply (Permutation_cons_inv (a:=a)).
  etransitivity; [symmetry; exact Hp|]. symmetry. apply Permutation_cons_append.
Qed.

(** X17. [append] followed by [pop()] gives the layer back and leaves the
    layers and the counter as they were, for every callable layer; the
    children are the same links as before, possibly in another order. *)
Theorem Sequential_append_pop h self ch ls n layer :
  Sequential_at h self ch ls n → (callable layer h).1 = Ok true →
  ∃ h' ch', (Sequential_append self layer;; Sequential_pop self (-1)) h
            = (Ok layer, h') ∧
    Sequential_at h' self ch' ls n ∧ ch' ≡ₚ ch.
Proof.
  intros Hat Hc.
  destruct (Sequential_append_spec _ _ _ _ _ _ Hat Hc) as (h1 & R1 & Hat1 & E1).
  rewrite (bind_run _ _ _ _ _ R1). unfold Sequential_pop.
  assert (Hi : py_index (length (ls ++ [layer])) (-1) = Some (length ls)).
  { unfold py_index. rewrite length_app. cbn [length].
    rewrite (bool_decide_eq_true_2 (-1 < 0)%Z) by lia.
    rewrite !bool_decide_eq_true_2 by lia. cbn. f_equal. lia. }
  assert (Hj : (ls ++ [layer]) !! length ls = Some layer)
    by (by rewrite list_lookup_middle).
  rewrite (bind_run _ _ _ _ _
             (Sequential___getitem___run _ _ _ _ _ _ _ _ Hat1 Hi Hj)).
  destruct (Sequential___delitem___spec _ _ _ _ _ _ _ _ Hat1 Hi Hj)
    as (h2 & R2 & Hat2 & E2).
  rewrite (bind_run _ _ _ _ _ R2).
  eexists h2, _. split; [done|].
  rewrite (evolves_link_of _ _ _ _ E1) in Hat2.
  assert (Hdel : delete (length ls) (ls ++ [layer]) = ls).
  { rewrite delete_take_drop, take_app_length.
    rewrite drop_ge by (rewrite length_app; cbn; lia). apply app_nil_r. }
  rewrite Hdel in Hat2.
  replace (n + (if is_lambda layer then 1 else 0) - (if is_lambda layer then 1 else 0))%Z
    with n in Hat2 by lia.
  split; [exact Hat2|].
  destruct (link_of h layer) as [a|]; cbn [option_list].
  - apply remove_first_app_last.
  - by rewrite app_nil_r.
Qed.

Lemma Sequential_append_pop_witness :
  ∃ h' ch', (Sequential_append 3 (VRef 2);; Sequential_pop 3 (-1)) demo_heap
            = (Ok (VRef 2), h') ∧
    Sequential_at h' 3 ch' [VRef 2] 0 ∧ ch' ≡ₚ [2].
Proof.
  apply (Sequential_append_pop demo_heap 3 [2] [VRef 2] 0 (VRef 2)).
  - eexists. split; reflexivity.
  - reflexivity.
Defined.

(** ** [clear] *)

Lemma clear_loop_odds steps (pre rest : list addr) :
  length rest ≤ steps →
  clear_loop steps (length pre) (pre ++ rest) = pre ++ odds rest.
Proof.
  revert pre rest. induction steps as [|steps IH]; intros pre rest Hs.
  - destruct rest; [done|cbn in Hs; lia].
  - cbn [clear_loop]. destruct rest as [|x [|y rest]].
    + rewrite bool_decide_eq_false_2 by (rewrite length_app; cbn; lia). done.
    + rewrite bool_decide_eq_true_2 by (rewrite length_app; cbn; lia).
      rewrite delete_middle. cbn [odds].
      destruct steps as [|steps']; [done|]. cbn [clear_loop].
      rewrite bool_decide_eq_false_2 by (rewrite length_app; cbn; lia). done.
    + rewrite bool_decide_eq_true_2 by (rewrite length_app; cbn; lia).
      rewrite delete_middle. cbn [odds].
      specialize (IH (pre ++ [y]) rest). rewrite length_app in IH. cbn in IH.
      rewrite Nat.add_1_r, <-app_assoc in IH. cbn in IH. rewrite IH.
      * by rewrite <-app_assoc.
      * cbn in Hs. lia.
Qed.

Lemma length_odds {A} (l : list A) : length (odds l) = length l / 2.
Proof.
  induction l as [l IH] using (induction_ltof1 _ (@length A)).
  unfold ltof in IH.
  destruct l as [|x [|y l]]; [done|done|].
  cbn [odds length]. rewrite IH by (cbn; lia).
  change (S (S (length l))) with (1 * 2 + length l).
  by rewrite (Nat.div_add_l 1 2 (length l)) by done.
Qed.

(** X18. [clear] empties the layers but unregisters only every second child:
    the loop deletes from the list it iterates over, so that the children
    at the odd positions, half of them rounded down, stay registered
    while [len(self)] is [0]. *)
Theorem Sequential_clear_keeps_odd_children h self ch ls n :
  Sequential_at h self ch ls n →
  ∃ h', Sequential_clear self h = (Ok tt, h') ∧
    Sequential_at h' self (odds ch) [] n ∧
    Sequential___len__ self h' = (Ok 0, h') ∧
    length (odds ch) = length ch / 2.
Proof.
  intros (l & Hl & Hk). unfold Sequential_clear.
  rewrite (bind_run _ _ _ _ _ (ChainList_set_children_run _ _ _ _ _ _ _ Hl Hk)).
  set (l1 := set_ext _ l).
  assert (Hl1 : <[self := OLink l1]> h !! self = Some (OLink l1))
    by (by eapply lookup_updated).
  rewrite (Sequential_set_layers_run _ _ _ _ _ _ _ Hl1 eq_refl).
  rewrite list_insert_insert_eq.
  pose proof (clear_loop_odds (length ch) [] ch (le_n _)) as Hodds.
  cbn in Hodds. rewrite Hodds.
  eexists. split; [done|].
  assert (Hat : Sequential_at
            (<[self := OLink (set_ext (KSequential (odds ch) [] n) l1)]> h)
            self (odds ch) [] n).
  { eexists. split; [by eapply lookup_updated|done]. }
  split; [done|]. split; [by rewrite (Sequential_at_len _ _ _ _ _ Hat)|].
  apply length_odds.
Qed.

Lemma Sequential_clear_keeps_odd_children_witness :
  ∃ h', Sequential_clear 0
          [OLink (demo_link Sequential_class
                    (KSequential [1; 2; 3] [VRef 1; VRef 2; VRef 3] 0) ∅)]
        = (Ok tt, h') ∧
    Sequential_at h' 0 (odds [1; 2; 3]) [] 0 ∧
    Sequential___len__ 0 h' = (Ok 0, h') ∧
    length (odds [1; 2; 3]) = length [1; 2; 3] / 2.
Proof.
  apply (Sequential_clear_keeps_odd_children
           [OLink (demo_link Sequential_class
                     (KSequential [1; 2; 3] [VRef 1; VRef 2; VRef 3] 0) ∅)]
           0 [1; 2; 3] [VRef 1; VRef 2; VRef 3] 0).
  eexists. split; reflexivity.
Defined.

(** ** In-place repetition *)

Lemma is_Link_link_of v h :
  is_Link v h = (Ok (bool_decide (is_Some (link_of h v))), h).
Proof.
  unfold is_Link, link_of. destruct v as [| | | | | |a];
    try (by rewrite bool_decide_eq_false_2 by (by intros [? ?])).
  destruct (h !! a) as [[x|p|l]|];
    try (by rewrite bool_decide_eq_false_2 by (by intros [? ?])).
  by rewrite bool_decide_eq_true_2 by (by eexists).
Qed.

(** X27. [self *= n] on a Sequential whose first layer is no Link: for [n = 1]
    nothing happens; for [n >= 2] the loop reads the local variable
    [layer] before it was ever assigned, [UnboundLocalError], and the
    Sequential is left as it was. *)
Theorem Sequential___imul___first_layer_no_link fuel h self ch v ls n n_repeat :
  Sequential_at h self ch (v :: ls) n → link_of h v = None →
  (1 ≤ n_repeat)%Z →
  Sequential___imul__ fuel self n_repeat h
  = (if bool_decide (n_repeat = 1)%Z then Ok self
     else Raise (UnboundLocalError "layer"), h).
Proof.
  intros Hat Hv Hn. unfold Sequential___imul__.
  rewrite bool_decide_eq_false_2 by lia.
  rewrite (bind_run _ _ _ _ _ (Sequential_at_len _ _ _ _ _ Hat)).
  case_bool_decide as H1.
  - subst. done.
  - destruct (Z.to_nat (n_repeat - 1)) as [|m] eqn:Hm; [lia|].
    cbn [Sequential___imul___outer length seq Sequential___imul___inner].
    rewrite !bind_assoc.
    assert (Hg : Sequential___getitem__ self (Z.of_nat 0) h = (Ok v, h)).
    { by eapply (Sequential___getitem___run _ _ _ _ _ _ 0). }
    rewrite (bind_run _ _ _ _ _ Hg). rewrite !bind_assoc.
    rewrite (bind_run _ _ _ _ _ (is_Link_link_of _ _)), Hv.
    rewrite bool_decide_eq_false_2 by (by intros [? ?]). done.
Qed.

Lemma Sequential___imul___first_layer_no_link_witness :
  Sequential___imul__ 5 0 2 [OLink (demo_sequential [succ_fn])]
  = (if bool_decide (2 = 1)%Z then Ok 0 else Raise (UnboundLocalError "layer"),
     [OLink (demo_sequential [succ_fn])]).
Proof.
  apply (Sequential___imul___first_layer_no_link 5
           [OLink (demo_sequential [succ_fn])] 0 [] succ_fn [] 0 2).
  - eexists. split; reflexivity.
  - reflexivity.
  - lia.
Defined.

(** ** [index] and [remove] *)

Lemma list_index_first x l p e :
  l !! p = Some e → layer_eq e x = true →
  (∀ q e', q < p → l !! q = Some e' → layer_eq e' x = false) →
  list_index x l = Some p.
Proof.
  revert p. induction l as [|y l IH]; intros p Hp He Hq; [done|].
  destruct p as [|p]; cbn in Hp |- *.
  - injection Hp as ->. by rewrite He.
  - rewrite (Hq 0 y) by (done || lia).
    rewrite (IH p Hp He); [done|].
    intros q e' Hlt Hq'. apply (Hq (S q) e'); [lia|done].
Qed.

Lemma list_index_none x l :
  (∀ e, e ∈ l → layer_eq e x = false) → list_index x l = None.
Proof.
  induction l as [|y l IH]; intros Hl; [done|]. cbn.
  rewrite (Hl y) by left. rewrite IH; [done|].
  intros e He. apply Hl. by right.
Qed.

Lemma py_slice_all {A} (l : list A) : py_slice l None None = l.
Proof. unfold py_slice. cbn. rewrite Nat.sub_0_r. by rewrite take_ge. Qed.

Lemma py_slice_from {A} (l : list A) s :
  s ≤ length l → py_slice l (Some (Z.of_nat s)) None = drop s l.
Proof.
  intros Hs. unfold py_slice, py_slice_bound, py_insert_index.
  rewrite (bool_decide_eq_false_2 (Z.of_nat s < 0)%Z) by lia.
  rewrite (bool_decide_eq_false_2 (Z.of_nat s < 0)%Z) by lia.
  rewrite (bool_decide_eq_false_2 (_ < Z.of_nat s)%Z) by lia.
  rewrite Nat2Z.id.
  apply take_ge. rewrite length_drop. lia.
Qed.

(** X19. [index(layer, start)] answers with the position inside the slice
    [layers[start:]], not inside the layers: the first position [p] at or
    after [start] that holds the layer is reported as [p - start]. *)
Theorem Sequential_index_counts_from_start h self ch ls n layer start p e :
  Sequential_at h self ch ls n →
  start ≤ p → ls !! p = Some e → layer_eq e layer = true →
  (∀ q e', start ≤ q < p → ls !! q = Some e' → layer_eq e' layer = false) →
  Sequential_index self layer (Some (Z.of_nat start)) None h = (Ok (p - start), h).
Proof.
  intros Hat Hsp Hp He Hq. unfold Sequential_index.
  rewrite (bind_run _ _ _ _ _ (Sequential_at_layers _ _ _ _ _ Hat)).
  pose proof (lookup_lt_Some _ _ _ Hp) as Hlt.
  rewrite py_slice_from by lia.
  rewrite (list_index_first layer (drop start ls) (p - start) e); [done| |done|].
  - rewrite lookup_drop. by replace (start + (p - start)) with p by lia.
  - intros q e' Hlt' Hq'. rewrite lookup_drop in Hq'.
    apply (Hq (start + q) e'); [lia|done].
Qed.

Lemma Sequential_index_counts_from_start_witness :
  Sequential_index 0 add_fn (Some (Z.of_nat 1)) None
    [OLink (demo_sequential [succ_fn; dup_fn; add_fn])]
  = (Ok (2 - 1), [OLink (demo_sequential [succ_fn; dup_fn; add_fn])]).
Proof.
  apply (Sequential_index_counts_from_start
           [OLink (demo_sequential [succ_fn; dup_fn; add_fn])] 0 []
           [succ_fn; dup_fn; add_fn] 0 add_fn 1 2 add_fn).
  - eexists. split; reflexivity.
  - lia.
  - reflexivity.
  - reflexivity.
  - intros q e' Hq. assert (q = 1) as -> by lia. by intros [= <-].
Defined.

Lemma existsb_layer_eq x l :
  existsb (λ e, layer_eq e x) l
  = match list_index x l with Some _ => true | None => false end.
Proof.
  induction l as [|y l IH]; [done|]. cbn [existsb list_index].
  destruct (layer_eq y x); [done|]. cbn [orb]. rewrite IH.
  by destruct (list_index x l).
Qed.

Lemma Sequential_remove_spec h self ch ls n layer p e :
  Sequential_at h self ch ls n →
  ls !! p = Some e → layer_eq e layer = true →
  (∀ q e', q < p → ls !! q = Some e' → layer_eq e' layer = false) →
  Sequential_index self layer None None h = (Ok p, h) ∧
  ∃ h' ch' n', Sequential_remove self layer h = (Ok tt, h') ∧
    Sequential_at h' self ch' (delete p ls) n' ∧ evolves self h h'.
Proof.
  intros Hat Hp He Hq.
  pose proof (list_index_first layer ls p e Hp He Hq) as Hidx.
  assert (Hi : Sequential_index self layer None None h = (Ok p, h)).
  { unfold Sequential_index.
    rewrite (bind_run _ _ _ _ _ (Sequential_at_layers _ _ _ _ _ Hat)).
    by rewrite py_slice_all, Hidx. }
  split; [done|]. unfold Sequential_remove, Sequential___contains__.
  rewrite bind_assoc.
  rewrite (bind_run _ _ _ _ _ (Sequential_at_layers _ _ _ _ _ Hat)).
  unfold ret at 1. unfold bind at 1.
  rewrite existsb_layer_eq, Hidx.
  rewrite (bind_run _ _ _ _ _ Hi).
  pose proof (lookup_lt_Some _ _ _ Hp) as Hlt.
  assert (Hpi : py_index (length ls) (Z.of_nat p) = Some p).
  { unfold py_index. rewrite (bool_decide_eq_false_2 (Z.of_nat p < 0)%Z) by lia.
    rewrite !bool_decide_eq_true_2 by lia. cbn. by rewrite Nat2Z.id. }
  destruct (Sequential___delitem___spec _ _ _ _ _ _ _ _ Hat Hpi Hp)
    as (h1 & R1 & Hat1 & E1).
  eexists h1, _, _. split; [done|]. split; [exact Hat1|done].
Qed.

(** X20. [remove(layer)] deletes the first occurrence of the layer, the
    position that [index(layer)] reports, and only that one. *)
Theorem Sequential_remove_first_occurrence h self ch ls n layer p e :
  Sequential_at h self ch ls n →
  ls !! p = Some e → layer_eq e layer = true →
  (∀ q e', q < p → ls !! q = Some e' → layer_eq e' layer = false) →
  Sequential_index self layer None None h = (Ok p, h) ∧
  ∃ h', Sequential_remove self layer h = (Ok tt, h') ∧
    Sequential_layers self h' = (Ok (delete p ls), h').
Proof.
  intros Hat Hp He Hq.
  destruct (Sequential_remove_spec _ _ _ _ _ _ _ _ Hat Hp He Hq)
    as (Hi & h' & ch' & n' & R & Hat' & _).
  split; [done|]. exists h'. split; [done|]. by eapply Sequential_at_layers.
Qed.

Lemma Sequential_remove_first_occurrence_witness :
  Sequential_index 0 succ_fn None None
    [OLink (demo_sequential [dup_fn; succ_fn; succ_fn])]
  = (Ok 1, [OLink (demo_sequential [dup_fn; succ_fn; succ_fn])]) ∧
  ∃ h', Sequential_remove 0 succ_fn
          [OLink (demo_sequential [dup_fn; succ_fn; succ_fn])] = (Ok tt, h') ∧
    Sequential_layers 0 h' = (Ok (delete 1 [dup_fn; succ_fn; succ_fn]), h').
Proof.
  apply (Sequential_remove_first_occurrence
           [OLink (demo_sequential [dup_fn; succ_fn; succ_fn])] 0 []
           [dup_fn; succ_fn; succ_fn] 0 succ_fn 1 succ_fn).
  - eexists. split; reflexivity.
  - reflexivity.
  - reflexivity.
  - intros q e' Hq. assert (q = 0) as -> by lia. by intros [= <-].
Defined.

(** X21. A layer that is not among the layers: [index], [remove] raise
    [ValueError], [in] and [count] answer [False] and [0], and nothing is
    changed. *)
Theorem Sequential_absent_layer h self ch ls n layer :
  Sequential_at h self ch ls n →
  (∀ e, e ∈ ls → layer_eq e layer = false) →
  Sequential___contains__ self layer h = (Ok false, h) ∧
  Sequential_count self layer h = (Ok 0, h) ∧
  Sequential_index self layer None None h
  = (Raise (ValueError "layer is not in list"), h) ∧
  Sequential_remove self layer h
  = (Raise (ValueError "There is no layer object that is same as layer"), h).
Proof.
  intros Hat Hno. pose proof (list_index_none _ _ Hno) as Hidx.
  assert (Hc : Sequential___contains__ self layer h = (Ok false, h)).
  { unfold Sequential___contains__.
    rewrite (bind_run _ _ _ _ _ (Sequential_at_layers _ _ _ _ _ Hat)).
    by rewrite existsb_layer_eq, Hidx. }
  split; [done|]. split; [|split].
  - unfold Sequential_count.
    rewrite (bind_run _ _ _ _ _ (Sequential_at_layers _ _ _ _ _ Hat)).
    unfold ret. do 3 f_equal. clear -Hno.
    induction ls as [|y ls IH]; [done|].
    rewrite filter_cons_False; [|by rewrite (Hno y) by left].
    apply IH. intros e He. apply Hno. by right.
  - unfold Sequential_index.
    rewrite (bind_run _ _ _ _ _ (Sequential_at_layers _ _ _ _ _ Hat)).
    by rewrite py_slice_all, Hidx.
  - unfold Sequential_remove. by rewrite (bind_run _ _ _ _ _ Hc).
Qed.

Lemma Sequential_absent_layer_witness :
  Sequential___contains__ 0 add_fn [OLink (demo_sequential [succ_fn])]
  = (Ok false, [OLink (demo_sequential [succ_fn])]) ∧
  Sequential_count 0 add_fn [OLink (demo_sequential [succ_fn])]
  = (Ok 0, [OLink (demo_sequential [succ_fn])]) ∧
  Sequential_index 0 add_fn None None [OLink (demo_sequential [succ_fn])]
  = (Raise (ValueError "layer is not in list"),
     [OLink (demo_sequential [succ_fn])]) ∧
  Sequential_remove 0 add_fn [OLink (demo_sequential [succ_fn])]
  = (Raise (ValueError "There is no layer object that is same as layer"),
     [OLink (demo_sequential [succ_fn])]).
Proof.
  apply (Sequential_absent_layer [OLink (demo_sequential [succ_fn])] 0 []
           [succ_fn] 0 add_fn).
  - eexists. split; reflexivity.
  - intros e ->%list_elem_of_singleton. reflexivity.
Defined.

(** ** In-place addition *)

Lemma Sequential___iadd___loop_other fuel h self o ch ls n ch2 ls2 n2 i :
  o ≠ self →
  Sequential_at h self ch ls n → Sequential_at h o ch2 ls2 n2 →
  Forall (λ v, (callable v h).1 = Ok true) ls2 →
  length ls2 - i < fuel →
  ∃ h', Sequential___iadd___loop fuel self o i h = (Ok tt, h') ∧
    Sequential_at h' self (ch ++ link_layers h (drop i ls2)) (ls ++ drop i ls2)
      (n + Z.of_nat (count_lambda (drop i ls2))) ∧
    evolves self h h'.
Proof.
  intros Hne. revert h ch ls n i.
  induction fuel as [|fuel IH]; intros h ch ls n i Hs Ho Hc Hf; [lia|].
  cbn [Sequential___iadd___loop].
  rewrite (bind_run _ _ _ _ _ (Sequential_at_layers _ _ _ _ _ Ho)).
  destruct (ls2 !! i) as [layer|] eqn:Hi.
  - assert (Hl : (callable layer h).1 = Ok true).
    { eapply (proj1 (Forall_forall _ _) Hc). by eapply list_elem_of_lookup_2. }
    destruct (Sequential_append_spec _ _ _ _ _ _ Hs Hl) as (h1 & R1 & Hs1 & E1).
    rewrite (bind_run _ _ _ _ _ R1).
    pose proof (lookup_lt_Some _ _ _ Hi) as Hlt.
    destruct (IH h1 _ _ _ (S i) Hs1 (evolves_other _ _ _ _ _ _ _ E1 Hne Ho)
                (Forall_callable_evolves _ _ _ _ E1 Hc)) as (h2 & R2 & Hs2 & E2);
      [lia|].
    exists h2. split; [done|]. split; [|by eapply evolves_trans].
    rewrite (drop_S _ _ _ Hi).
    rewrite link_layers_cons, count_lambda_cons.
    rewrite (evolves_link_layers _ _ _ _ E1) in Hs2.
    rewrite <-!app_assoc in Hs2. cbn [app] in Hs2.
    replace (n + Z.of_nat ((if is_lambda layer then 1 else 0)
                           + count_lambda (drop (S i) ls2)))%Z
      with (n + (if is_lambda layer then 1 else 0)
            + Z.of_nat (count_lambda (drop (S i) ls2)))%Z
      by (destruct (is_lambda layer); lia).
    done.
  - apply lookup_ge_None in Hi. rewrite drop_ge by lia.
    exists h. rewrite !app_nil_r, Z.add_0_r.
    split; [done|]. split; [done|apply evolves_refl].
Qed.

(** X25. [s1 += s2] for two different Sequentials, the layers of [s2]
    callable: the layers of [s2] are appended to [s1] in order, its Link
    layers registered as children and its anonymous layers counted; [s2]
    keeps its layers, children and counter. *)
Theorem Sequential___iadd___extends fuel h self o ch ls n ch2 ls2 n2 :
  o ≠ self →
  Sequential_at h self ch ls n → Sequential_at h o ch2 ls2 n2 →
  Forall (λ v, (callable v h).1 = Ok true) ls2 →
  length ls2 < fuel →
  ∃ h', Sequential___iadd__ fuel self (VRef o) h = (Ok self, h') ∧
    Sequential_at h' self (ch ++ link_layers h ls2) (ls ++ ls2)
      (n + Z.of_nat (count_lambda ls2)) ∧
    Sequential_at h' o ch2 ls2 n2.
Proof.
  intros Hne Hs Ho Hc Hf. unfold Sequential___iadd__.
  assert (His : is_Sequential (VRef o) h = (Ok true, h)).
  { destruct Ho as (l & Hl & Hk). unfold is_Sequential. by rewrite Hl, Hk. }
  rewrite (bind_run _ _ _ _ _ His). cbv iota.
  destruct (Sequential___iadd___loop_other fuel _ _ _ _ _ _ _ _ _ 0 Hne Hs Ho Hc)
    as (h1 & R1 & Hs1 & E1); [lia|].
  rewrite (bind_run _ _ _ _ _ R1). exists h1. rewrite drop_0 in Hs1.
  split; [done|]. split; [done|]. by eapply evolves_other.
Qed.

Lemma Sequential___iadd___extends_witness :
  ∃ h', Sequential___iadd__ 5 0 (VRef 1)
          [OLink (demo_sequential [succ_fn]); OLink (demo_sequential [anonymous; dup_fn])]
        = (Ok 0, h') ∧
    Sequential_at h' 0
      ([] ++ link_layers [OLink (demo_sequential [succ_fn]);
                          OLink (demo_sequential [anonymous; dup_fn])]
               [anonymous; dup_fn])
      ([succ_fn] ++ [anonymous; dup_fn])
      (0 + Z.of_nat (count_lambda [anonymous; dup_fn])) ∧
    Sequential_at h' 1 [] [anonymous; dup_fn] 0.
Proof.
  apply (Sequential___iadd___extends 5
           [OLink (demo_sequential [succ_fn]);
            OLink (demo_sequential [anonymous; dup_fn])]
           0 1 [] [succ_fn] 0 [] [anonymous; dup_fn] 0).
  - done.
  - eexists. split; reflexivity.
  - eexists. split; reflexivity.
  - repeat constructor.
  - cbn. lia.
Defined.

Lemma Sequential___iadd___loop_self fuel h self ch ls n i :
  Sequential_at h self ch ls n → i < length ls →
  Forall (λ v, (callable v h).1 = Ok true) ls →
  ∃ h', Sequential___iadd___loop fuel self self i h = (Raise RecursionError, h').
Proof.
  revert h ch ls n i. induction fuel as [|fuel IH]; intros h ch ls n i Hs Hi Hc.
  - by exists h.
  - cbn [Sequential___iadd___loop].
    rewrite (bind_run _ _ _ _ _ (Sequential_at_layers _ _ _ _ _ Hs)).
    destruct (lookup_lt_is_Some_2 ls i Hi) as [layer Hl]. rewrite Hl.
    assert (Hcl : (callable layer h).1 = Ok true).
    { eapply (proj1 (Forall_forall _ _) Hc). by eapply list_elem_of_lookup_2. }
    destruct (Sequential_append_spec _ _ _ _ _ _ Hs Hcl) as (h1 & R1 & Hs1 & E1).
    rewrite (bind_run _ _ _ _ _ R1).
    apply (IH h1 _ _ _ (S i) Hs1).
    + rewrite length_app. cbn. lia.
    + apply (Forall_callable_evolves _ _ _ _ E1).
      apply Forall_app. split; [done|]. by apply Forall_singleton.
Qed.

(** X26. [s += s] on a Sequential with at least one layer does not end: the
    loop iterates over the list that it appends to.  In the model every
    bound on the number of steps is exhausted. *)
Theorem Sequential___iadd___self_never_ends fuel h self ch ls n :
  Sequential_at h self ch ls n → ls ≠ [] →
  Forall (λ v, (callable v h).1 = Ok true) ls →
  ∃ h', Sequential___iadd__ fuel self (VRef self) h = (Raise RecursionError, h').
Proof.
  intros Hs Hne Hc. unfold Sequential___iadd__.
  assert (His : is_Sequential (VRef self) h = (Ok true, h)).
  { destruct Hs as (l & Hl & Hk). unfold is_Sequential. by rewrite Hl, Hk. }
  rewrite (bind_run _ _ _ _ _ His). cbv iota.
  destruct (Sequential___iadd___loop_self fuel _ _ _ _ _ 0 Hs) as (h1 & R1);
    [destruct ls; [done|cbn; lia]|done|].
  rewrite (bind_raise _ _ _ _ _ R1). by exists h1.
Qed.

Lemma Sequential___iadd___self_never_ends_witness :
  ∃ h', Sequential___iadd__ 100 0 (VRef 0) [OLink (demo_sequential [succ_fn])]
        = (Raise RecursionError, h').
Proof.
  apply (Sequential___iadd___self_never_ends 100
           [OLink (demo_sequential [succ_fn])] 0 [] [succ_fn] 0).
  - eexists. split; reflexivity.
  - done.
  - repeat constructor.
Defined.

(** ** The initialization scope and the registry of a Link *)

(** X3. [with self.init_scope(): body] hands on the outcome of [body], a
    result or an exception, and puts the flag back to what it was before
    the scope, whatever [body] did to the link in between. *)
Theorem Link_init_scope_restores_flag {A} (h : heap) self l (body : M A) r h1 l1 :
  h !! self = Some (OLink l) →
  body (<[self := OLink (set_within_init_scope true l)]> h) = (r, h1) →
  h1 !! self = Some (OLink l1) →
  Link_init_scope self body h
  = (r, <[self := OLink (set_within_init_scope (_within_init_scope l) l1)]> h1).
Proof.
  intros Hl Hb Hl1. unfold Link_init_scope.
  rewrite (bind_run _ _ _ _ _ (Link_within_init_scope_run _ _ _ Hl)).
  rewrite (bind_run _ _ _ _ _ (update_link_run _ _ _ _ Hl)).
  unfold try_finally. rewrite Hb.
  rewrite (update_link_run _ _ _ _ Hl1). done.
Qed.

Lemma Link_init_scope_restores_flag_witness :
  Link_init_scope 0 (Link_init_scope 0 (@raise unit (ValueError "oops")))
    [OLink (demo_link Link_class KLink ∅)]
  = (Raise (ValueError "oops"),
     <[0 := OLink (set_within_init_scope
                     (_within_init_scope (demo_link Link_class KLink ∅))
                     (set_within_init_scope true (demo_link Link_class KLink ∅)))]>
       [OLink (set_within_init_scope true (demo_link Link_class KLink ∅))]).
Proof.
  apply (Link_init_scope_restores_flag [OLink (demo_link Link_class KLink ∅)] 0
           (demo_link Link_class KLink ∅)
           (Link_init_scope 0 (@raise unit (ValueError "oops")))
           (Raise (ValueError "oops"))
           [OLink (set_within_init_scope true (demo_link Link_class KLink ∅))]
           (set_within_init_scope true (demo_link Link_class KLink ∅))).
  - reflexivity.
  - reflexivity.
  - reflexivity.
Defined.

Lemma is_Parameter_run (h : heap) p po :
  h !! p = Some (OParam po) → is_Parameter (VRef p) h = (Ok true, h).
Proof. intros E. unfold is_Parameter. by rewrite E. Qed.

Lemma as_param_ok (h : heap) p po :
  h !! p = Some (OParam po) → as_param (VRef p) h = (Ok p, h).
Proof.
  intros Hp. unfold as_param.
  by rewrite (bind_run _ _ _ _ _ (get_param_run _ _ _ Hp)).
Qed.

Lemma Link___setattr___registers (h : heap) self l p po attr :
  h !! self = Some (OLink l) → _within_init_scope l = true → _cpu l = true →
  h !! p = Some (OParam po) →
  Link___setattr__ self attr (VRef p) h
  = (Ok tt,
     <[self := OLink (set_attrs (<[attr := VRef p]> (attrs l))
                        (set_persistent (_persistent l ∖ {[attr]})
                           (set_params ({[attr]} ∪ _params l) l)))]>
       (<[p := OParam (set_p_name (Some attr) po)]> h)).
Proof.
  intros Hl Hscope Hcpu Hp.
  assert (Hne : p ≠ self) by (intros ->; congruence).
  set (h1 := <[p := OParam (set_p_name (Some attr) po)]> h).
  assert (Hl1 : h1 !! self = Some (OLink l))
    by (unfold h1; by rewrite list_lookup_insert_ne).
  unfold Link___setattr__.
  rewrite (bind_run _ _ _ _ _ (Link_within_init_scope_run _ _ _ Hl)).
  rewrite (bind_run _ _ _ _ _ (is_Parameter_run _ _ _ Hp)), Hscope. cbn [andb].
  rewrite bind_assoc.
  rewrite (bind_run _ _ _ _ _ (as_param_ok _ _ _ Hp)). rewrite bind_assoc.
  unfold Parameter_set_name.
  rewrite (bind_run _ _ _ _ _ (update_param_run _ _ _ _ Hp)).
  fold h1. rewrite bind_assoc.
  rewrite (bind_run _ _ _ _ _ (get_link_run _ _ _ Hl1)), Hcpu. cbn [negb].
  rewrite bind_assoc. unfold ret at 1. unfold bind at 1.
  rewrite bind_assoc.
  rewrite (bind_run _ _ _ _ _ (update_link_run _ _ _ _ Hl1)). cbn beta.
  rewrite (bind_run _ _ _ _ _ (update_link_run _ _ _ _ (lookup_updated _ _ _ _ Hl1))).
  cbn beta. rewrite list_insert_insert_eq.
  unfold object_setattr, dict_set.
  rewrite (update_link_run _ _ _ _ (lookup_updated _ _ _ _ Hl1)).
  by rewrite list_insert_insert_eq.
Qed.

(** The direct parameters of a link whose registered names all hold
    Parameters: one pair for each name, under the path ["/" ++ name]. *)
Lemma Link_namedparams_loop_run (h : heap) self l names :
  h !! self = Some (OLink l) →
  (∀ nm, nm ∈ names →
     ∃ a pa, attrs l !! nm = Some (VRef a) ∧ h !! a = Some (OParam pa)) →
  ∃ nps, Link_namedparams_loop self names true h = (Ok nps, h) ∧
    nps.*1 = (λ nm, ("/" ++ nm)%string) <$> names ∧
    ∀ nm a, nm ∈ names → attrs l !! nm = Some (VRef a) →
      (("/" ++ nm)%string, a) ∈ nps.
Proof.
  intros Hl. induction names as [|nm rest IH]; intros Hreg.
  - exists []. split; [done|]. split; [done|]. by intros ? ? ?%elem_of_nil.
  - destruct (Hreg nm) as (a & pa & Ha & Hpa); [left|].
    destruct IH as (nps & R & Hfst & Hin).
    { intros nm' Hnm'. apply Hreg. by right. }
    exists ((("/" ++ nm)%string, a) :: nps). split; [|split].
    + cbn [Link_namedparams_loop].
      rewrite (bind_run _ _ _ _ _ (dict_get_run _ _ _ _ _ Hl Ha)).
      rewrite (bind_run _ _ _ _ _ (as_param_ok _ _ _ Hpa)).
      rewrite (bind_run _ _ _ _ _ (get_param_run _ _ _ Hpa)).
      by rewrite (bind_run _ _ _ _ _ R).
    + cbn. by rewrite Hfst.
    + intros nm' a' [->|Hnm']%elem_of_cons Ha'.
      * rewrite Ha in Ha'. injection Ha' as <-. left.
      * right. by apply Hin.
Qed.

(** X4. Assigning a Parameter to an attribute inside an initialization scope
    registers it (on a link on the host whose registered names hold
    Parameters): [namedparams] then yields it under the path
    ["/" ++ attr], the Parameter is called [attr], the name is a parameter
    name and no persistent name, and the scope flag is as before. *)
Theorem Link_init_scope_setattr_registers (h : heap) self l p po attr :
  h !! self = Some (OLink l) → _cpu l = true →
  h !! p = Some (OParam po) → params_registered h l →
  ∃ h' nps l' po',
    Link_init_scope self (Link___setattr__ self attr (VRef p)) h = (Ok tt, h') ∧
    Link_namedparams self true h' = (Ok nps, h') ∧
    (("/" ++ attr)%string, p) ∈ nps ∧
    h' !! p = Some (OParam po') ∧ p_name po' = Some attr ∧
    h' !! self = Some (OLink l') ∧
    _within_init_scope l' = _within_init_scope l ∧
    attr ∈ _params l' ∧ attr ∉ _persistent l'.
Proof.
  intros Hl Hcpu Hp Hreg.
  assert (Hne : p ≠ self) by (intros ->; congruence).
  set (l0 := set_within_init_scope true l).
  set (h0 := <[self := OLink l0]> h).
  assert (Hl0 : h0 !! self = Some (OLink l0)) by (by eapply lookup_updated).
  assert (Hp0 : h0 !! p = Some (OParam po))
    by (unfold h0; by rewrite list_lookup_insert_ne).
  pose proof (Link___setattr___registers h0 self l0 p po attr Hl0 eq_refl Hcpu Hp0)
    as Hset.
  set (l1 := set_attrs _ _) in Hset. set (h1 := <[self := OLink l1]> _) in Hset.
  assert (Hl1 : h1 !! self = Some (OLink l1)).
  { unfold h1. apply list_lookup_insert_eq. rewrite length_insert.
    by eapply lookup_lt_Some. }
  exists (<[self := OLink (set_within_init_scope (_within_init_scope l) l1)]> h1).
  set (l2 := set_within_init_scope (_within_init_scope l) l1).
  set (h2 := <[self := OLink l2]> h1).
  assert (Hl2 : h2 !! self = Some (OLink l2)) by (by eapply lookup_updated).
  assert (Hp2 : h2 !! p = Some (OParam (set_p_name (Some attr) po))).
  { unfold h2, h1. rewrite !list_lookup_insert_ne by done.
    by eapply lookup_updated. }
  destruct (Link_namedparams_loop_run h2 self l2 (elements (_params l2)) Hl2)
    as (nps & R & _ & Hin).
  { intros nm Hnm%elem_of_elements. cbn in Hnm.
    destruct (decide (nm = attr)) as [->|Hna].
    - exists p, (set_p_name (Some attr) po). split; [|done].
      cbn. by rewrite lookup_insert_eq.
    - destruct (Hreg nm) as (a & pa & Ha & Hpa); [set_solver|].
      cbn. rewrite lookup_insert_ne by done.
      destruct (decide (a = p)) as [->|Hap].
      + by exists p, (set_p_name (Some attr) po).
      + exists a, pa. split; [done|]. unfold h2, h1, h0.
        by rewrite !list_lookup_insert_ne by congruence. }
  exists nps, l2, (set_p_name (Some attr) po).
  split; [|split; [|split; [|split; [|split; [|split; [|split; [|split]]]]]]].
  - unfold Link_init_scope.
    rewrite (bind_run _ _ _ _ _ (Link_within_init_scope_run _ _ _ Hl)).
    rewrite (bind_run _ _ _ _ _ (update_link_run _ _ _ _ Hl)).
    unfold try_finally. fold l0 h0. rewrite Hset.
    by rewrite (update_link_run _ _ _ _ Hl1).
  - unfold Link_namedparams. by rewrite (bind_run _ _ _ _ _ (get_link_run _ _ _ Hl2)).
  - apply Hin; [apply elem_of_elements; cbn; set_solver|].
    cbn. by rewrite lookup_insert_eq.
  - done.
  - done.
  - done.
  - done.
  - cbn. set_solver.
  - cbn. set_solver.
Qed.

Lemma Link_init_scope_setattr_registers_witness :
  ∃ h' nps l' po',
    Link_init_scope 1 (Link___setattr__ 1 "W" (VRef 0))
      [OParam demo_param; OLink (demo_link Link_class KLink ∅)] = (Ok tt, h') ∧
    Link_namedparams 1 true h' = (Ok nps, h') ∧
    (("/" ++ "W")%string, 0) ∈ nps ∧
    h' !! 0 = Some (OParam po') ∧ p_name po' = Some "W" ∧
    h' !! 1 = Some (OLink l') ∧
    _within_init_scope l' = _within_init_scope (demo_link Link_class KLink ∅) ∧
    "W" ∈ _params l' ∧ "W" ∉ _persistent l'.
Proof.
  apply (Link_init_scope_setattr_registers
           [OParam demo_param; OLink (demo_link Link_class KLink ∅)] 1
           (demo_link Link_class KLink ∅) 0 demo_param "W").
  - reflexivity.
  - reflexivity.
  - reflexivity.
  - intros nm Hnm. by apply elem_of_empty in Hnm.
Defined.

Lemma slash_inj (x y : string) : ("/" ++ x)%string = ("/" ++ y)%string → x = y.
Proof. cbn. intros H. by injection H. Qed.

(** X5. [register_persistent] on an attribute that exists makes the name a
    persistent name and removes it from the parameter names, so that
    [namedparams] no longer yields the path ["/" ++ attr]; the attribute
    itself is left as it is. *)
Theorem Link_register_persistent_reclassifies (h : heap) self l attr :
  h !! self = Some (OLink l) → hasattr l attr = true → params_registered h l →
  ∃ h' nps l',
    Link_register_persistent self attr h = (Ok tt, h') ∧
    h' !! self = Some (OLink l') ∧
    attr ∈ _persistent l' ∧ attr ∉ _params l' ∧ attrs l' = attrs l ∧
    Link_namedparams self true h' = (Ok nps, h') ∧
    ("/" ++ attr)%string ∉ nps.*1.
Proof.
  intros Hl Ha Hreg.
  set (l' := set_params (_params l ∖ {[attr]})
               (set_persistent ({[attr]} ∪ _persistent l) l)).
  set (h' := <[self := OLink l']> h).
  assert (Hl' : h' !! self = Some (OLink l')) by (by eapply lookup_updated).
  destruct (Link_namedparams_loop_run h' self l' (elements (_params l')) Hl')
    as (nps & R & Hfst & _).
  { intros nm Hnm%elem_of_elements. cbn in Hnm.
    destruct (Hreg nm) as (a & pa & Hna & Hpa); [set_solver|].
    exists a, pa. split; [done|]. unfold h'.
    by rewrite list_lookup_insert_ne by congruence. }
  exists h', nps, l'. split; [|split; [done|split; [|split; [|split; [done|split]]]]].
  - unfold Link_register_persistent.
    rewrite (bind_run _ _ _ _ _ (get_link_run _ _ _ Hl)), Ha. cbn [negb].
    rewrite update_link_twice. by rewrite (update_link_run _ _ _ _ Hl).
  - cbn. set_solver.
  - cbn. set_solver.
  - unfold Link_namedparams.
    by rewrite (bind_run _ _ _ _ _ (get_link_run _ _ _ Hl')).
  - rewrite Hfst. intros (nm & Heq & Hnm%elem_of_elements)%list_elem_of_fmap.
    apply slash_inj in Heq as <-. cbn in Hnm. set_solver.
Qed.

Lemma Link_register_persistent_reclassifies_witness :
  ∃ h' nps l',
    Link_register_persistent 2 "W" demo_heap = (Ok tt, h') ∧
    h' !! 2 = Some (OLink l') ∧
    "W" ∈ _persistent l' ∧ "W" ∉ _params l' ∧ attrs l' = attrs demo_W_link ∧
    Link_namedparams 2 true h' = (Ok nps, h') ∧
    ("/" ++ "W")%string ∉ nps.*1.
Proof.
  apply (Link_register_persistent_reclassifies demo_heap 2 demo_W_link "W").
  - reflexivity.
  - reflexivity.
  - intros nm Hnm. cbn in Hnm. apply elem_of_singleton in Hnm as ->.
    by exists 1, demo_W.
Defined.

(** ** Children of a Chain *)

Lemma Chain_child_links_run (h : heap) self l names :
  h !! self = Some (OLink l) →
  (∀ nm, nm ∈ names → ∃ c, attrs l !! nm = Some (VRef c)) →
  ∃ cs, Chain_child_links self names h = (Ok cs, h) ∧
    ∀ nm c, nm ∈ names → attrs l !! nm = Some (VRef c) → c ∈ cs.
Proof.
  intros Hl. induction names as [|nm rest IH]; intros Hreg.
  - exists []. split; [done|]. by intros ? ? ?%elem_of_nil.
  - destruct (Hreg nm) as (c & Hc); [left|].
    destruct IH as (cs & R & Hin).
    { intros nm' Hnm'. apply Hreg. by right. }
    exists (c :: cs). split.
    + cbn [Chain_child_links].
      rewrite (bind_run _ _ _ _ _ (dict_get_run _ _ _ _ _ Hl Hc)).
      by rewrite (bind_run _ _ _ _ _ R).
    + intros nm' c' [->|Hnm']%elem_of_cons Hc'.
      * rewrite Hc in Hc'. injection Hc' as <-. left.
      * right. by eapply Hin.
Qed.

(** X6. [add_link] on a Chain, for a name that is no attribute of the
    instance or of its class and a Link other than the Chain itself: the
    Link becomes a child that [children] yields, it is called by the name,
    the attribute holds it, and the scope flag is as before. *)
Theorem Chain_add_link_registers (h : heap) self l ch attr c lc :
  h !! self = Some (OLink l) → ext l = KChain ch → hasattr l attr = false →
  h !! c = Some (OLink lc) → c ≠ self → children_registered h l ch →
  ∃ h' cs,
    Chain_add_link self attr (VRef c) h = (Ok tt, h') ∧
    Chain_children self h' = (Ok cs, h') ∧ c ∈ cs ∧
    name_of h' c = Some attr ∧
    dict_get self attr h' = (Ok (VRef c), h') ∧
    Link_within_init_scope self h' = (Ok (_within_init_scope l), h').
Proof.
  intros Hl Hk Ha Hc Hne Hreg.
  assert (Hd : in_dict l attr = false).
  { unfold hasattr in Ha. by apply orb_false_iff in Ha as [-> _]. }
  set (l0 := set_within_init_scope true l).
  set (h0 := <[self := OLink l0]> h).
  assert (Hl0 : h0 !! self = Some (OLink l0)) by (by eapply lookup_updated).
  assert (Hc0 : h0 !! c = Some (OLink lc))
    by (unfold h0; by rewrite list_lookup_insert_ne).
  set (h1 := <[c := OLink (set_name (Some attr) lc)]> h0).
  assert (Hl1 : h1 !! self = Some (OLink l0))
    by (unfold h1; by rewrite list_lookup_insert_ne).
  set (l2 := set_ext (KChain ({[attr]} ∪ ch)) l0).
  set (h2 := <[self := OLink l2]> h1).
  assert (Hl2 : h2 !! self = Some (OLink l2)) by (by eapply lookup_updated).
  assert (Hc2 : h2 !! c = Some (OLink (set_name (Some attr) lc))).
  { unfold h2. rewrite list_lookup_insert_ne by done. by eapply lookup_updated. }
  set (l3 := set_attrs (<[attr := VRef c]> (attrs l2)) l2).
  set (h3 := <[self := OLink l3]> h2).
  assert (Hl3 : h3 !! self = Some (OLink l3)) by (by eapply lookup_updated).
  set (l4 := set_within_init_scope (_within_init_scope l) l3).
  set (h4 := <[self := OLink l4]> h3).
  assert (Hl4 : h4 !! self = Some (OLink l4)) by (by eapply lookup_updated).
  assert (Hc4 : h4 !! c = Some (OLink (set_name (Some attr) lc))).
  { unfold h4, h3. by rewrite !list_lookup_insert_ne by done. }
  assert (Hbody : Chain___setattr__ self attr (VRef c) h0 = (Ok tt, h3)).
  { unfold Chain___setattr__.
    rewrite (bind_run _ _ _ _ _ (Link_within_init_scope_run _ _ _ Hl0)).
    rewrite (bind_run _ _ _ _ _ (is_Link_run _ _ _ Hc0)). cbn [l0 _within_init_scope
      set_within_init_scope andb].
    rewrite bind_assoc. rewrite (bind_run _ _ _ _ _ (get_link_run _ _ _ Hl0)).
    change (hasattr l0 attr) with (hasattr l attr). rewrite Ha.
    rewrite bind_assoc.
    rewrite (bind_run _ _ _ _ _ (update_link_run _ _ _ _ Hc0)). fold h1.
    unfold Chain_set_children, Chain_children_names.
    rewrite !bind_assoc.
    rewrite (bind_run _ _ _ _ _ (get_link_run _ _ _ Hl1)).
    change (ext l0) with (ext l). rewrite Hk.
    unfold ret at 1. unfold bind at 1.
    rewrite (bind_run _ _ _ _ _ (update_link_run _ _ _ _ Hl1)). fold l2 h2.
    unfold Link___setattr__.
    rewrite (bind_run _ _ _ _ _ (Link_within_init_scope_run _ _ _ Hl2)).
    assert (Hnp : is_Parameter (VRef c) h2 = (Ok false, h2)).
    { unfold is_Parameter. by rewrite Hc2. }
    rewrite (bind_run _ _ _ _ _ Hnp). rewrite andb_false_r.
    unfold ret at 1. unfold bind at 1.
    unfold object_setattr, dict_set. by rewrite (update_link_run _ _ _ _ Hl2). }
  destruct (Chain_child_links_run h4 self l4 (elements ({[attr]} ∪ ch)) Hl4)
    as (cs & R & Hin).
  { intros nm Hnm%elem_of_elements. cbn.
    destruct (decide (nm = attr)) as [->|Hna].
    - exists c. by rewrite lookup_insert_eq.
    - destruct (Hreg nm) as (c' & lc' & Hc' & _); [set_solver|].
      exists c'. by rewrite lookup_insert_ne. }
  exists h4, cs. split; [|split; [|split; [|split; [|split]]]].
  - unfold Chain_add_link.
    rewrite (bind_run _ _ _ _ _ (get_link_run _ _ _ Hl)), Hd.
    rewrite (bind_run _ _ _ _ _ (is_Link_run _ _ _ Hc)). cbn [negb].
    unfold Link_init_scope.
    rewrite (bind_run _ _ _ _ _ (Link_within_init_scope_run _ _ _ Hl)).
    rewrite (bind_run _ _ _ _ _ (update_link_run _ _ _ _ Hl)).
    unfold try_finally. fold l0 h0. rewrite Hbody.
    by rewrite (update_link_run _ _ _ _ Hl3).
  - unfold Chain_children, Chain_children_names.
    rewrite bind_assoc. rewrite (bind_run _ _ _ _ _ (get_link_run _ _ _ Hl4)).
    cbn [l4 l3 l2 ext set_within_init_scope set_attrs set_ext].
    unfold ret at 1. unfold bind at 1. exact R.
  - apply (Hin attr); [apply elem_of_elements; set_solver|].
    cbn. by rewrite lookup_insert_eq.
  - unfold name_of. by rewrite Hc4.
  - eapply dict_get_run; [done|]. cbn. by rewrite lookup_insert_eq.
  - by rewrite (Link_within_init_scope_run _ _ _ Hl4).
Qed.

Lemma Chain_add_link_registers_witness :
  ∃ h' cs,
    Chain_add_link 0 "l1" (VRef 1)
      [OLink (demo_link Chain_class (KChain ∅) ∅);
       OLink (demo_link Linear_class KLink ∅)] = (Ok tt, h') ∧
    Chain_children 0 h' = (Ok cs, h') ∧ 1 ∈ cs ∧
    name_of h' 1 = Some "l1" ∧
    dict_get 0 "l1" h' = (Ok (VRef 1), h') ∧
    Link_within_init_scope 0 h'
    = (Ok (_within_init_scope (demo_link Chain_class (KChain ∅) ∅)), h').
Proof.
  apply (Chain_add_link_registers
           [OLink (demo_link Chain_class (KChain ∅) ∅);
            OLink (demo_link Linear_class KLink ∅)] 0
           (demo_link Chain_class (KChain ∅) ∅) ∅ "l1" 1
           (demo_link Linear_class KLink ∅)).
  - reflexivity.
  - reflexivity.
  - vm_compute. reflexivity.
  - reflexivity.
  - discriminate.
  - intros nm Hnm. by apply elem_of_empty in Hnm.
Defined.

(** ** Children of a ChainList *)

(** [add_link] on a link that is not yet a child keeps every child named
    after its position. *)
Lemma ChainList_add_link_names (h : heap) self chs link ll :
  ChainList_children self h = (Ok chs, h) →
  h !! link = Some (OLink ll) → link ∉ chs →
  (∀ i c, chs !! i = Some c → name_of h c = Some (str i)) →
  ∃ h', ChainList_add_link self link h = (Ok tt, h') ∧
        ChainList_children self h' = (Ok (chs ++ [link]), h') ∧
        (∀ i c, (chs ++ [link]) !! i = Some c → name_of h' c = Some (str i)) ∧
        (∀ a la, h !! a = Some (OLink la) → ∃ la', h' !! a = Some (OLink la')).
Proof.
  intros Hch Hlink Hnot Hnames.
  assert (∃ l, h !! self = Some (OLink l)) as [l Hl].
  { pose proof Hch as Hc. unfold ChainList_children in Hc.
    apply bind_ok_inv in Hc as (l & h1 & E & _).
    apply get_link_inv in E as [-> E]. exists l. by apply E. }
  set (h1 := <[link := OLink (set_name (Some (str (length chs))) ll)]> h).
  assert (∃ l1, h1 !! self = Some (OLink l1) ∧ ext l1 = ext l ∧
                (link ≠ self → name l1 = name l) ∧
                (link = self → name l1 = Some (str (length chs))))
    as (l1 & Hl1 & Hext1 & Hn1 & Hn1').
  { destruct (decide (link = self)) as [->|Hne].
    - exists (set_name (Some (str (length chs))) ll).
      split; [by eapply lookup_updated|].
      rewrite Hl in Hlink. injection Hlink as <-. by repeat split.
    - exists l. split; [unfold h1; by rewrite list_lookup_insert_ne|].
      by repeat split. }
  assert (Hch1 : ChainList_children self h1 = (Ok chs, h1)).
  { unfold ChainList_children in *.
    rewrite (bind_run _ _ _ _ _ (get_link_run _ _ _ Hl)) in Hch.
    rewrite (bind_run _ _ _ _ _ (get_link_run _ _ _ Hl1)), Hext1.
    destruct (ext l); try done; by injection Hch as ->. }
  set (l2 := set_ext (with_children (λ ch, ch ++ [link]) (ext l1)) l1).
  exists (<[self := OLink l2]> h1). split; [|split; [|split]].
  - unfold ChainList_add_link. rewrite (bind_run _ _ _ _ _ Hch).
    rewrite (bind_run _ _ _ _ _ (update_link_run _ _ _ _ Hlink)). fold h1. cbn beta.
    unfold ChainList_set_children. rewrite (bind_run _ _ _ _ _ Hch1).
    by rewrite (update_link_run _ _ _ _ Hl1).
  - unfold ChainList_children.
    rewrite (bind_run _ _ _ _ _ (get_link_run _ _ _ (lookup_updated _ _ _ _ Hl1))).
    unfold ChainList_children in Hch1.
    rewrite (bind_run _ _ _ _ _ (get_link_run _ _ _ Hl1)) in Hch1.
    cbn [l2 ext set_ext]. destruct (ext l1); try done; by injection Hch1 as ->.
  - assert (Hname2 : name l2 = name l1) by done.
    intros i c Hc. apply lookup_app_Some in Hc as [Hc|[Hi Hc]].
    + specialize (Hnames i c Hc).
      assert (Hcl : c ≠ link).
      { intros ->. apply Hnot. by eapply list_elem_of_lookup_2. }
      unfold name_of in *. destruct (decide (c = self)) as [->|Hcs].
      * rewrite (lookup_updated _ _ _ _ Hl1), Hname2, Hn1 by done.
        by rewrite Hl in Hnames.
      * rewrite list_lookup_insert_ne by done. unfold h1.
        by rewrite list_lookup_insert_ne.
    + apply list_lookup_singleton_Some in Hc as [Hi0 <-].
      replace i with (length chs) by lia.
      unfold name_of. destruct (decide (link = self)) as [->|Hne].
      * by rewrite (lookup_updated _ _ _ _ Hl1), Hname2, Hn1'.
      * rewrite list_lookup_insert_ne by done. unfold h1.
        by rewrite (lookup_updated _ _ _ _ Hlink).
  - intros a la Ha. destruct (decide (a = self)) as [->|Has].
    + exists l2. by eapply lookup_updated.
    + rewrite list_lookup_insert_ne by done. unfold h1.
      destruct (decide (a = link)) as [->|Hal].
      * eexists. by eapply lookup_updated.
      * exists la. by rewrite list_lookup_insert_ne.
Qed.

Lemma ChainList_add_links_names (h : heap) self chs links :
  ChainList_children self h = (Ok chs, h) →
  NoDup (chs ++ links) →
  (∀ a, a ∈ links → ∃ la, h !! a = Some (OLink la)) →
  (∀ i c, chs !! i = Some c → name_of h c = Some (str i)) →
  ∃ h', for_each links (ChainList_add_link self) h = (Ok tt, h') ∧
        ChainList_children self h' = (Ok (chs ++ links), h') ∧
        (∀ i c, (chs ++ links) !! i = Some c → name_of h' c = Some (str i)).
Proof.
  revert h chs. induction links as [|link links IH]; intros h chs Hch Hnd Hl Hn.
  - exists h. rewrite app_nil_r. by repeat split.
  - destruct (Hl link) as [ll Hll]; [left|].
    destruct (ChainList_add_link_names h self chs link ll Hch Hll)
      as (h1 & R1 & Hch1 & Hn1 & Hk1); [|done|].
    { apply NoDup_app in Hnd as (_ & Hd & _). intros Hin.
      apply (Hd _ Hin). left. }
    destruct (IH h1 (chs ++ [link]) Hch1) as (h2 & R2 & Hch2 & Hn2).
    + by rewrite <-app_assoc.
    + intros a Ha. destruct (Hl a) as [la Hla]; [by right|]. by eapply Hk1.
    + done.
    + exists h2. cbn [for_each]. rewrite (bind_run _ _ _ _ _ R1).
      rewrite <-app_assoc in Hch2, Hn2. by repeat split.
Qed.

(** X7. The constructor of ChainList on distinct Links: the children are the
    links in the order given, each is called by its position, and
    indexing and [len] agree with that. *)
Theorem ChainList___init___names_children (h : heap) c links :
  NoDup links → (∀ a, a ∈ links → ∃ la, h !! a = Some (OLink la)) →
  ∃ h', ChainList___init__ c links h = (Ok (length h), h') ∧
    ChainList_children (length h) h' = (Ok links, h') ∧
    ChainList___len__ (length h) h' = (Ok (length links), h') ∧
    ∀ i a, links !! i = Some a →
      name_of h' a = Some (str i) ∧
      ChainList___getitem__ (length h) (Z.of_nat i) h' = (Ok a, h').
Proof.
  intros Hnd Hl. unfold ChainList___init__.
  rewrite (bind_run _ _ _ _ _ (alloc_run _ _)).
  set (l0 := {| cls := c; ext := KChainList [] |}).
  set (h0 := h ++ [OLink l0]).
  assert (Hch0 : ChainList_children (length h) h0 = (Ok [], h0)).
  { unfold ChainList_children, h0.
    rewrite (bind_run _ _ _ _ _ (get_link_run _ _ l0 (list_lookup_middle _ _ _ _ eq_refl))).
    done. }
  destruct (ChainList_add_links_names h0 (length h) [] links Hch0)
    as (h1 & R1 & Hch1 & Hn1).
  { done. }
  { intros a Ha. destruct (Hl a Ha) as [la Hla]. exists la.
    by apply lookup_app_l_Some. }
  { by intros i c' ?. }
  rewrite (bind_run _ _ _ _ _ R1). exists h1. cbn [app] in Hch1, Hn1.
  split; [done|]. split; [done|]. split.
  - unfold ChainList___len__. by rewrite (bind_run _ _ _ _ _ Hch1).
  - intros i a Hi. split; [by apply Hn1|].
    unfold ChainList___getitem__. rewrite (bind_run _ _ _ _ _ Hch1).
    pose proof (lookup_lt_Some _ _ _ Hi) as Hlt.
    unfold py_index. rewrite (bool_decide_eq_false_2 (Z.of_nat i < 0)%Z) by lia.
    rewrite !bool_decide_eq_true_2 by lia. cbn [andb].
    by rewrite Nat2Z.id, Hi.
Qed.

Lemma ChainList___init___names_children_witness :
  ∃ h', ChainList___init__ ChainList_class [1; 0]
          [OLink (demo_link Linear_class KLink ∅);
           OLink (demo_link Linear_class KLink ∅)]
        = (Ok (length [OLink (demo_link Linear_class KLink ∅);
                       OLink (demo_link Linear_class KLink ∅)]), h') ∧
    ChainList_children (length [OLink (demo_link Linear_class KLink ∅);
                                OLink (demo_link Linear_class KLink ∅)]) h'
    = (Ok [1; 0], h') ∧
    ChainList___len__ (length [OLink (demo_link Linear_class KLink ∅);
                               OLink (demo_link Linear_class KLink ∅)]) h'
    = (Ok (length [1; 0]), h') ∧
    ∀ i a, [1; 0] !! i = Some a →
      name_of h' a = Some (str i) ∧
      ChainList___getitem__
        (length [OLink (demo_link Linear_class KLink ∅);
                 OLink (demo_link Linear_class KLink ∅)]) (Z.of_nat i) h'
      = (Ok a, h').
Proof.
  apply (ChainList___init___names_children
           [OLink (demo_link Linear_class KLink ∅);
            OLink (demo_link Linear_class KLink ∅)] ChainList_class [1; 0]).
  - repeat constructor; set_solver.
  - intros a Ha. apply elem_of_cons in Ha as [->|Ha]; [by eexists|].
    apply list_elem_of_singleton in Ha as ->. by eexists.
Defined.

(** ** Loops over the parameters of a hierarchy *)

Lemma tweaked_refl o : tweaked o o.
Proof. by destruct o. Qed.

Lemma tweaked_trans o1 o2 o3 : tweaked o1 o2 → tweaked o2 o3 → tweaked o1 o3.
Proof.
  destruct o1, o2, o3; cbn; try congruence.
Qed.

Lemma tweaks_refl h : tweaks h h.
Proof. split; [done|]. intros a o Ho. exists o. split; [done|apply tweaked_refl]. Qed.

Lemma tweaks_trans h1 h2 h3 : tweaks h1 h2 → tweaks h2 h3 → tweaks h1 h3.
Proof.
  intros [L1 E1] [L2 E2]. split; [congruence|]. intros a o Ho.
  destruct (E1 a o Ho) as (o' & Ho' & T1).
  destruct (E2 a o' Ho') as (o'' & Ho'' & T2).
  exists o''. split; [done|]. by eapply tweaked_trans.
Qed.

Lemma tweaks_None h h' a : tweaks h h' → h !! a = None → h' !! a = None.
Proof.
  intros [L _] Ha. apply lookup_ge_None in Ha. apply lookup_ge_None. lia.
Qed.

Lemma tweaks_update_param (h : heap) p po f :
  h !! p = Some (OParam po) → p_data (f po) = p_data po →
  tweaks h (<[p := OParam (f po)]> h).
Proof.
  intros Hp Hf. split; [by rewrite length_insert|]. intros a o Ho.
  destruct (decide (a = p)) as [->|Hne].
  - exists (OParam (f po)). split; [by eapply lookup_updated|].
    rewrite Hp in Ho. by injection Ho as <-.
  - exists o. split; [by rewrite list_lookup_insert_ne|apply tweaked_refl].
Qed.

Lemma reads_only_ret {A} (a : A) : reads_only (ret a).
Proof. by split. Qed.

Lemma reads_only_raise {A} e : reads_only (@raise A e).
Proof. by split. Qed.

Lemma reads_only_bind {A B} (m : M A) (k : A → M B) :
  reads_only m → (∀ a, reads_only (k a)) → reads_only (bind m k).
Proof.
  intros [Pm Sm] Hk. split.
  - intros h. unfold bind. specialize (Pm h).
    destruct (m h) as [[a|e] h1]; cbn in *; subst; [apply Hk|done].
  - intros h h' Ht. unfold bind. pose proof (Pm h) as P1. pose proof (Pm h') as P2.
    specialize (Sm h h' Ht).
    destruct (m h) as [[a|e] h1], (m h') as [[a'|e'] h1']; cbn in *; subst;
      try discriminate.
    + injection Sm as <-. by apply Hk.
    + cbn. congruence.
Qed.

Lemma reads_only_get_link a : reads_only (get_link a).
Proof.
  split; [apply get_link_pure|]. intros h h' Ht.
  unfold get_link, bind, get_obj.
  destruct (h !! a) as [o|] eqn:Ho.
  - destruct Ht as [_ Ht]. destruct (Ht a o Ho) as (o' & -> & T).
    destruct o as [x|p|l], o' as [x'|p'|l']; cbn in T |- *; try done;
      by simplify_eq.
  - by rewrite (tweaks_None _ _ _ Ht Ho).
Qed.

Lemma reads_only_dict_get self nm : reads_only (dict_get self nm).
Proof.
  apply reads_only_bind; [apply reads_only_get_link|]. intros l.
  destruct (attrs l !! nm); [apply reads_only_ret|apply reads_only_raise].
Qed.

(** Reading a Parameter and going on with its value array only. *)
Lemma reads_only_get_param {B} p (k : ParameterObj → M B) :
  (∀ po, reads_only (k po)) →
  (∀ po po' h, p_data po' = p_data po → k po' h = k po h) →
  reads_only (bind (get_param p) k).
Proof.
  intros Hk Hd. split.
  - intros h. apply bind_pure; [apply get_param_pure|]. intros po h1. apply Hk.
  - intros h h' Ht. unfold get_param, bind, get_obj.
    destruct (h !! p) as [o|] eqn:Ho.
    + destruct (Ht) as [_ Ht']. destruct (Ht' p o Ho) as (o' & -> & T).
      destruct o as [x|po|l], o' as [x'|po'|l']; cbn in T |- *; try done;
        try (by simplify_eq).
      rewrite (Hd po po' h' T). by apply Hk.
    + by rewrite (tweaks_None _ _ _ Ht Ho).
Qed.

Lemma reads_only_as_param v : reads_only (as_param v).
Proof.
  destruct v as [| | | | | |a]; try apply reads_only_raise.
  apply (reads_only_get_param a (λ _, ret a)); [intros; apply reads_only_ret|done].
Qed.

Lemma reads_only_Link_params_loop self names b :
  reads_only (Link_params_loop self names b).
Proof.
  induction names as [|nm rest IH]; [apply reads_only_ret|].
  cbn [Link_params_loop].
  apply reads_only_bind; [apply reads_only_dict_get|]. intros v.
  apply reads_only_bind; [apply reads_only_as_param|]. intros p.
  apply reads_only_get_param.
  - intros po. apply reads_only_bind; [done|]. intros ps.
    destruct (_ || _); apply reads_only_ret.
  - intros po po' h Hd. by rewrite Hd.
Qed.

Lemma reads_only_Link_params self b : reads_only (Link_params self b).
Proof.
  apply reads_only_bind; [apply reads_only_get_link|]. intros l.
  apply reads_only_Link_params_loop.
Qed.

Lemma reads_only_Chain_children_names self : reads_only (Chain_children_names self).
Proof.
  apply reads_only_bind; [apply reads_only_get_link|]. intros l.
  destruct (ext l); apply reads_only_ret || apply reads_only_raise.
Qed.

Lemma reads_only_ChainList_children self : reads_only (ChainList_children self).
Proof.
  apply reads_only_bind; [apply reads_only_get_link|]. intros l.
  destruct (ext l); apply reads_only_ret || apply reads_only_raise.
Qed.

Lemma reads_only_Chain_child_links self names :
  reads_only (Chain_child_links self names).
Proof.
  induction names as [|nm rest IH]; [apply reads_only_ret|].
  cbn [Chain_child_links].
  apply reads_only_bind; [apply reads_only_dict_get|]. intros v.
  apply reads_only_bind; [done|]. intros cs.
  destruct v; apply reads_only_ret || apply reads_only_raise.
Qed.

Lemma reads_only_concat_params f cs :
  (∀ c, reads_only (f c)) → reads_only (concat_params f cs).
Proof.
  intros Hf. induction cs as [|c rest IH]; [apply reads_only_ret|].
  cbn [concat_params].
  apply reads_only_bind; [done|]. intros ps.
  apply reads_only_bind; [done|]. intros qs. apply reads_only_ret.
Qed.

Lemma reads_only_params fuel self b : reads_only (params fuel self b).
Proof.
  revert self. induction fuel as [|fuel IH]; intros self; [apply reads_only_raise|].
  cbn [params].
  apply reads_only_bind; [apply reads_only_get_link|]. intros l.
  assert (HCL : reads_only (ChainList_params (params fuel) self b)).
  { apply reads_only_bind; [apply reads_only_Link_params|]. intros own.
    apply reads_only_bind; [apply reads_only_ChainList_children|]. intros cs.
    apply reads_only_bind; [by apply reads_only_concat_params|]. intros sub.
    apply reads_only_ret. }
  destruct (ext l); [apply reads_only_Link_params| |done|done].
  apply reads_only_bind; [apply reads_only_Link_params|]. intros own.
  apply reads_only_bind; [apply reads_only_Chain_children_names|]. intros ch.
  apply reads_only_bind; [apply reads_only_Chain_child_links|]. intros cs.
  apply reads_only_bind; [by apply reads_only_concat_params|]. intros sub.
  apply reads_only_ret.
Qed.

(** A read that succeeds on a heap succeeds with the same answer on a
    heap that differs in names, gradients and update rules of
    Parameters. *)
Lemma reads_only_transfer {A} (m : M A) h h' a :
  reads_only m → tweaks h h' → m h = (Ok a, h) → m h' = (Ok a, h').
Proof.
  intros [Pm Sm] Ht E. specialize (Sm h h' Ht). specialize (Pm h').
  rewrite E in Sm. cbn in Sm. destruct (m h') as [r h1]. cbn in *. by subst.
Qed.

Lemma bind_ok_inv_ro {A B} (m : M A) (k : A → M B) h b h' :
  reads_only m → bind m k h = (Ok b, h') →
  ∃ a, m h = (Ok a, h) ∧ k a h = (Ok b, h').
Proof.
  intros [Pm _] E. apply bind_ok_inv in E as (a & h1 & E1 & E2).
  specialize (Pm h). rewrite E1 in Pm. cbn in Pm. subst. by exists a.
Qed.

Lemma get_param_ok_inv p h po h' :
  get_param p h = (Ok po, h') → h' = h ∧ h !! p = Some (OParam po).
Proof.
  unfold get_param, bind, get_obj.
  destruct (h !! p) as [[x|q|l]|]; cbn; intros [= <- <-]; done.
Qed.

Lemma as_param_ok_inv v h p h' :
  as_param v h = (Ok p, h') → v = VRef p ∧ h' = h.
Proof.
  destruct v as [| | | | | |a]; try discriminate. cbn.
  intros (po & h1 & E1 & [= <- <-])%bind_ok_inv.
  by apply get_param_ok_inv in E1 as [-> _].
Qed.

Lemma run_visit_app {A} (g : addr → heap → option A) T ps qs h :
  run_visit g T (ps ++ qs) h
  = match run_visit g T ps h with
    | (Some x, h1) => (Some x, h1)
    | (None, h1) => run_visit g T qs h1
    end.
Proof.
  revert h. induction ps as [|p ps IH]; intros h; [done|].
  cbn [app run_visit]. destruct (g p h); [done|apply IH].
Qed.

Lemma run_visit_tweaks {A} (g : addr → heap → option A) T ps h :
  (∀ p h, tweaks h (T p h)) → tweaks h (run_visit g T ps h).2.
Proof.
  intros HT. revert h. induction ps as [|p ps IH]; intros h; [apply tweaks_refl|].
  cbn [run_visit]. destruct (g p h); [apply HT|].
  eapply tweaks_trans; [apply HT|apply IH].
Qed.

Section params_for.
Context {A : Type} (body : addr → M (option A)).
Context (g : addr → heap → option A) (T : addr → heap → heap).
Hypothesis HT : ∀ p h, tweaks h (T p h).
Hypothesis Hbody : ∀ (h : heap) p po,
  h !! p = Some (OParam po) → body p h = (Ok (g p h), T p h).

Lemma Link_params_visit_spec self names h ps :
  Link_params_loop self names true h = (Ok ps, h) →
  Link_params_visit self names true body h
  = (Ok (run_visit g T ps h).1, (run_visit g T ps h).2).
Proof.
  revert h ps. induction names as [|nm rest IH]; intros h ps E.
  - by injection E as <-.
  - cbn [Link_params_loop] in E.
    apply bind_ok_inv_ro in E as (v & Ev & E); [|apply reads_only_dict_get].
    apply bind_ok_inv_ro in E as (p & Ep & E); [|apply reads_only_as_param].
    apply bind_ok_inv in E as (po & h1 & Epo & E).
    apply get_param_ok_inv in Epo as [-> Hp].
    apply bind_ok_inv_ro in E as (ps' & Eps & E);
      [|apply reads_only_Link_params_loop].
    cbn [orb] in E. injection E as <-.
    cbn [Link_params_visit].
    rewrite (bind_run _ _ _ _ _ Ev), (bind_run _ _ _ _ _ Ep).
    rewrite (bind_run _ _ _ _ _ (get_param_run _ _ _ Hp)). cbn [orb].
    rewrite (bind_run _ _ _ _ _ (Hbody _ _ _ Hp)).
    cbn [run_visit]. destruct (g p h) as [x|]; [done|].
    apply IH.
    by apply (reads_only_transfer _ h); [apply reads_only_Link_params_loop|apply HT|].
Qed.

Lemma Link_params_for_spec self h ps :
  Link_params self true h = (Ok ps, h) →
  Link_params_for self true body h
  = (Ok (run_visit g T ps h).1, (run_visit g T ps h).2).
Proof.
  intros E. unfold Link_params in E.
  apply bind_ok_inv_ro in E as (l & El & E); [|apply reads_only_get_link].
  unfold Link_params_for. rewrite (bind_run _ _ _ _ _ El).
  by apply Link_params_visit_spec.
Qed.

Context (fuel : nat).
Hypothesis IHfuel : ∀ c h ps,
  params fuel c true h = (Ok ps, h) →
  params_for fuel c true body h
  = (Ok (run_visit g T ps h).1, (run_visit g T ps h).2).

Lemma ChainList_children_visit_spec cs h sub :
  concat_params (λ c, params fuel c true) cs h = (Ok sub, h) →
  ChainList_children_visit (λ c, params_for fuel c true body) cs h
  = (Ok (run_visit g T sub h).1, (run_visit g T sub h).2).
Proof.
  revert h sub. induction cs as [|c rest IH]; intros h sub E.
  - by injection E as <-.
  - cbn [concat_params] in E.
    apply bind_ok_inv_ro in E as (ps & Eps & E); [|apply reads_only_params].
    apply bind_ok_inv_ro in E as (qs & Eqs & E);
      [|apply reads_only_concat_params; intros; apply reads_only_params].
    injection E as <-. cbn [ChainList_children_visit].
    rewrite (bind_run _ _ _ _ _ (IHfuel _ _ _ Eps)).
    rewrite run_visit_app.
    pose proof (run_visit_tweaks g T ps h HT) as Ht.
    destruct (run_visit g T ps h) as [[x|] h1]; [done|]. cbn in Ht |- *.
    apply IH.
    by apply (reads_only_transfer _ h);
      [apply reads_only_concat_params; intros; apply reads_only_params| |].
Qed.

Lemma Chain_children_visit_spec self names h cs sub :
  Chain_child_links self names h = (Ok cs, h) →
  concat_params (λ c, params fuel c true) cs h = (Ok sub, h) →
  Chain_children_visit (λ c, params_for fuel c true body) self names h
  = (Ok (run_visit g T sub h).1, (run_visit g T sub h).2).
Proof.
  revert h cs sub. induction names as [|nm rest IH]; intros h cs sub Ec E.
  - injection Ec as <-. by injection E as <-.
  - cbn [Chain_child_links] in Ec.
    apply bind_ok_inv_ro in Ec as (v & Ev & Ec); [|apply reads_only_dict_get].
    apply bind_ok_inv_ro in Ec as (cs' & Ecs & Ec);
      [|apply reads_only_Chain_child_links].
    destruct v as [| | | | | |c]; try discriminate. injection Ec as <-.
    cbn [concat_params] in E.
    apply bind_ok_inv_ro in E as (ps & Eps & E); [|apply reads_only_params].
    apply bind_ok_inv_ro in E as (qs & Eqs & E);
      [|apply reads_only_concat_params; intros; apply reads_only_params].
    injection E as <-. cbn [Chain_children_visit].
    rewrite (bind_run _ _ _ _ _ Ev).
    rewrite (bind_run _ _ _ _ _ (IHfuel _ _ _ Eps)).
    rewrite run_visit_app.
    pose proof (run_visit_tweaks g T ps h HT) as Ht.
    destruct (run_visit g T ps h) as [[x|] h1]; [done|]. cbn in Ht |- *.
    apply (IH h1 cs').
    + by apply (reads_only_transfer _ h); [apply reads_only_Chain_child_links| |].
    + by apply (reads_only_transfer _ h);
        [apply reads_only_concat_params; intros; apply reads_only_params| |].
Qed.

Lemma params_for_step self h ps :
  params (S fuel) self true h = (Ok ps, h) →
  params_for (S fuel) self true body h
  = (Ok (run_visit g T ps h).1, (run_visit g T ps h).2).
Proof.
  intros E. cbn [params] in E.
  apply bind_ok_inv_ro in E as (l & El & E); [|apply reads_only_get_link].
  cbn [params_for]. rewrite (bind_run _ _ _ _ _ El).
  assert (HCL : ChainList_params (params fuel) self true h = (Ok ps, h) →
            ChainList_params_for (params_for fuel) self true body h
            = (Ok (run_visit g T ps h).1, (run_visit g T ps h).2)).
  { clear E. intros E. unfold ChainList_params in E.
    apply bind_ok_inv_ro in E as (own & Eown & E); [|apply reads_only_Link_params].
    apply bind_ok_inv_ro in E as (cs & Ecs & E);
      [|apply reads_only_ChainList_children].
    apply bind_ok_inv_ro in E as (sub & Esub & E);
      [|apply reads_only_concat_params; intros; apply reads_only_params].
    injection E as <-. unfold ChainList_params_for.
    rewrite (bind_run _ _ _ _ _ (Link_params_for_spec _ _ _ Eown)).
    rewrite run_visit_app.
    pose proof (run_visit_tweaks g T own h HT) as Ht.
    destruct (run_visit g T own h) as [[x|] h1]; [done|]. cbn in Ht |- *.
    rewrite (bind_run _ _ _ _ _
               (reads_only_transfer _ _ _ _ (reads_only_ChainList_children _) Ht Ecs)).
    apply ChainList_children_visit_spec.
    by apply (reads_only_transfer _ h);
      [apply reads_only_concat_params; intros; apply reads_only_params| |]. }
  destruct (ext l); [by apply Link_params_for_spec| |by apply HCL|by apply HCL].
  unfold Chain_params in E.
  apply bind_ok_inv_ro in E as (own & Eown & E); [|apply reads_only_Link_params].
  apply bind_ok_inv_ro in E as (ch & Ech & E);
    [|apply reads_only_Chain_children_names].
  apply bind_ok_inv_ro in E as (cs & Ecs & E);
    [|apply reads_only_Chain_child_links].
  apply bind_ok_inv_ro in E as (sub & Esub & E);
    [|apply reads_only_concat_params; intros; apply reads_only_params].
  injection E as <-. unfold Chain_params_for.
  rewrite (bind_run _ _ _ _ _ (Link_params_for_spec _ _ _ Eown)).
  rewrite run_visit_app.
  pose proof (run_visit_tweaks g T own h HT) as Ht.
  destruct (run_visit g T own h) as [[x|] h1]; [done|]. cbn in Ht |- *.
  rewrite (bind_run _ _ _ _ _
             (reads_only_transfer _ _ _ _ (reads_only_Chain_children_names _) Ht Ech)).
  apply (Chain_children_visit_spec _ _ _ cs).
  - by apply (reads_only_transfer _ h); [apply reads_only_Chain_child_links| |].
  - by apply (reads_only_transfer _ h);
      [apply reads_only_concat_params; intros; apply reads_only_params| |].
Qed.
End params_for.

(** The loop [for param in self.params(): body] on a hierarchy whose
    traversal succeeds runs [body] on the parameters that [params] lists,
    in that order, up to the first [return]. *)
Lemma params_for_spec {A} (body : addr → M (option A)) g T fuel self h ps :
  (∀ p h, tweaks h (T p h)) →
  (∀ (h : heap) p po, h !! p = Some (OParam po) → body p h = (Ok (g p h), T p h)) →
  params fuel self true h = (Ok ps, h) →
  params_for fuel self true body h
  = (Ok (run_visit g T ps h).1, (run_visit g T ps h).2).
Proof.
  intros HT Hbody. revert self h ps.
  induction fuel as [|fuel IH]; intros self h ps E; [discriminate|].
  by apply (params_for_step body g T HT Hbody fuel IH).
Qed.

(** ** Gradients and update rules of a hierarchy *)

Lemma alter_param_tweaks f h p :
  (∀ po, p_data (f po) = p_data po) → tweaks h (alter_param f h p).
Proof.
  intros Hf. unfold alter_param.
  destruct (h !! p) as [[x|po|l]|] eqn:Hp; try apply tweaks_refl.
  by apply tweaks_update_param.
Qed.

Lemma alter_param_lookup f (h : heap) p a :
  alter_param f h p !! a
  = match h !! a with
    | Some (OParam po) => Some (OParam (if decide (a = p) then f po else po))
    | o => o
    end.
Proof.
  unfold alter_param. destruct (h !! p) as [[x|po|l]|] eqn:Hp.
  - destruct (h !! a) as [[y|qo|m]|] eqn:Ha; try done.
    case_decide; [subst; congruence|done].
  - destruct (decide (a = p)) as [->|Hne].
    + by rewrite (lookup_updated _ _ _ _ Hp), Hp.
    + rewrite list_lookup_insert_ne by done. by destruct (h !! a) as [[y|qo|m]|].
  - destruct (h !! a) as [[y|qo|m]|] eqn:Ha; try done.
    case_decide; [subst; congruence|done].
  - destruct (h !! a) as [[y|qo|m]|] eqn:Ha; try done.
    case_decide; [subst; congruence|done].
Qed.

Lemma apply_all_lookup f ps (h : heap) a :
  (∀ po, f (f po) = f po) →
  apply_all f ps h !! a
  = match h !! a with
    | Some (OParam po) => Some (OParam (if decide (a ∈ ps) then f po else po))
    | o => o
    end.
Proof.
  intros Hf. revert h. induction ps as [|p ps IH]; intros h.
  - cbn. destruct (h !! a) as [[y|qo|m]|]; try done;
      by rewrite decide_False by apply not_elem_of_nil.
  - change (apply_all f (p :: ps) h) with (apply_all f ps (alter_param f h p)).
    rewrite IH, alter_param_lookup.
    destruct (h !! a) as [[y|qo|m]|]; try done. do 2 f_equal.
    destruct (decide (a = p)) as [->|Hne].
    + rewrite (decide_True (P := p ∈ p :: ps)) by left.
      by destruct (decide (p ∈ ps)).
    + destruct (decide (a ∈ ps)) as [Hin|Hnin].
      * by rewrite decide_True by (by right).
      * rewrite decide_False; [done|]. by intros [?|?]%elem_of_cons.
Qed.

Lemma run_visit_map f ps h :
  run_visit (λ _ _, @None unit) (λ p h, alter_param f h p) ps h
  = (None, apply_all f ps h).
Proof. revert h. induction ps as [|p ps IH]; intros h; [done|]. apply IH. Qed.

Lemma run_visit_pure {A} (g : addr → heap → option A) ps h :
  (run_visit g (λ _ h, h) ps h).2 = h ∧
  ((run_visit g (λ _ h, h) ps h).1 = None ↔ ∀ p, p ∈ ps → g p h = None) ∧
  (∀ x, (run_visit g (λ _ h, h) ps h).1 = Some x → ∃ p, p ∈ ps ∧ g p h = Some x).
Proof.
  induction ps as [|p ps (IH1 & IH2 & IH3)]; cbn [run_visit].
  - split; [done|]. split; [|done]. split; [by intros _ ? ?%elem_of_nil|done].
  - destruct (g p h) as [x|] eqn:Hg; cbn.
    + split; [done|]. split.
      * split; [done|]. intros Hall. specialize (Hall p). rewrite Hg in Hall.
        by apply Hall; left.
      * intros y [= <-]. exists p. split; [left|done].
    + split; [done|]. split.
      * rewrite IH2. split.
        -- intros Hall q [->|Hq]%elem_of_cons; [done|by apply Hall].
        -- intros Hall q Hq. apply Hall. by right.
      * intros y Hy. destruct (IH3 y Hy) as (q & Hq & Hgq).
        exists q. split; [by right|done].
Qed.

Lemma update_body_run (f : ParameterObj → ParameterObj) (h : heap) p po :
  h !! p = Some (OParam po) →
  (update_param p f;; ret (@None unit)) h = (Ok None, alter_param f h p).
Proof.
  intros Hp. rewrite (bind_run _ _ _ _ _ (update_param_run _ _ _ _ Hp)).
  unfold alter_param. by rewrite Hp.
Qed.

Lemma set_rule_enabled_body_run flag (h : heap) p po :
  h !! p = Some (OParam po) →
  (set_rule_enabled flag p;; ret (@None unit)) h
  = (Ok None, alter_param (with_rule_enabled flag) h p).
Proof.
  intros Hp. unfold set_rule_enabled. rewrite bind_assoc.
  rewrite (bind_run _ _ _ _ _ (get_param_run _ _ _ Hp)).
  unfold alter_param, with_rule_enabled. rewrite Hp.
  destruct (p_update_rule po) as [b|].
  - by rewrite (bind_run _ _ _ _ _ (update_param_run _ _ _ _ Hp)).
  - unfold bind, ret. by rewrite list_insert_id.
Qed.

Lemma with_rule_enabled_data flag po :
  p_data (with_rule_enabled flag po) = p_data po.
Proof. unfold with_rule_enabled. by destruct (p_update_rule po). Qed.

Lemma with_rule_enabled_idemp flag po :
  with_rule_enabled flag (with_rule_enabled flag po) = with_rule_enabled flag po.
Proof.
  unfold with_rule_enabled. destruct (p_update_rule po) eqn:E; cbn; [done|].
  by rewrite E.
Qed.

(** What [update_enabled] answers on a hierarchy whose traversal
    succeeds: whether some parameter that [params] lists has an enabled
    update rule. *)
Lemma Link_update_enabled_run fuel self h ps :
  params fuel self true h = (Ok ps, h) →
  ∃ b, Link_update_enabled fuel self h = (Ok b, h) ∧
    (b = true ↔ ∃ p po, p ∈ ps ∧ h !! p = Some (OParam po) ∧
                        p_update_rule po = Some true).
Proof.
  intros E. unfold Link_update_enabled.
  set (g := λ (p : addr) (h : heap),
         match h !! p with
         | Some (OParam po) =>
             match p_update_rule po with Some true => Some true | _ => None end
         | _ => None
         end).
  assert (Hbody : ∀ (h : heap) p po, h !! p = Some (OParam po) →
            (do po <- get_param p;
             match p_update_rule po with
             | Some true => ret (Some true)
             | _ => ret None
             end) h = (Ok (g p h), h)).
  { intros h0 p po Hp. rewrite (bind_run _ _ _ _ _ (get_param_run _ _ _ Hp)).
    unfold g. rewrite Hp. by destruct (p_update_rule po) as [[]|]. }
  rewrite (bind_run _ _ _ _ _
             (params_for_spec _ g (λ _ h, h) fuel self h ps
                (λ _ h, tweaks_refl h) Hbody E)).
  destruct (run_visit_pure g ps h) as (-> & Hnone & Hsome).
  destruct (run_visit g (λ _ h, h) ps h).1 as [b|] eqn:Hr.
  - destruct (Hsome b eq_refl) as (p & Hp & Hg). unfold g in Hg.
    destruct (h !! p) as [[x|po|l]|] eqn:Hhp; try done.
    destruct (p_update_rule po) as [[]|] eqn:Hrule; try done.
    injection Hg as <-. exists true. split; [done|]. split; [|done].
    intros _. by exists p, po.
  - exists false. split; [done|]. split; [done|].
    intros (p & po & Hp & Hhp & Hrule).
    pose proof (proj1 Hnone eq_refl p Hp) as Hg. unfold g in Hg.
    by rewrite Hhp, Hrule in Hg.
Qed.

(** X9. After [disable_update] on a hierarchy whose traversal succeeds,
    [update_enabled] is [False]: every parameter under the hierarchy that
    has an update rule has it disabled, and nothing but the flags of these
    rules has changed, so that [params] lists the same parameters. *)
Theorem Link_disable_update_disables fuel self h ps :
  params fuel self true h = (Ok ps, h) →
  ∃ h', Link_disable_update fuel self h = (Ok tt, h') ∧
    Link_update_enabled fuel self h' = (Ok false, h') ∧
    params fuel self true h' = (Ok ps, h') ∧
    ∀ a, h' !! a
         = match h !! a with
           | Some (OParam po) =>
               Some (OParam (if decide (a ∈ ps) then with_rule_enabled false po
                             else po))
           | o => o
           end.
Proof.
  intros E. set (f := with_rule_enabled false).
  assert (Ht : ∀ p h, tweaks h (alter_param f h p)).
  { intros p h0. apply alter_param_tweaks, with_rule_enabled_data. }
  pose proof (params_for_spec _ _ _ fuel self h ps Ht
                (set_rule_enabled_body_run false) E) as R.
  rewrite run_visit_map in R. cbn in R.
  exists (apply_all f ps h).
  assert (E' : params fuel self true (apply_all f ps h) = (Ok ps, apply_all f ps h)).
  { apply (reads_only_transfer _ h); [apply reads_only_params| |done].
    pose proof (run_visit_tweaks (λ _ _, @None unit) _ ps h Ht) as Htw.
    by rewrite run_visit_map in Htw. }
  split; [|split; [|split; [done|]]].
  - unfold Link_disable_update. by rewrite (bind_run _ _ _ _ _ R).
  - destruct (Link_update_enabled_run _ _ _ _ E') as (b & Rb & Hb).
    destruct b; [|done]. destruct (proj1 Hb eq_refl) as (p & po & Hp & Hhp & Hrule).
    rewrite (apply_all_lookup _ _ _ _ (with_rule_enabled_idemp false)) in Hhp.
    destruct (h !! p) as [[x|qo|l]|]; try done.
    rewrite decide_True in Hhp by done. injection Hhp as <-.
    unfold f, with_rule_enabled in Hrule.
    destruct (p_update_rule qo) eqn:Hq; cbn in Hrule; congruence.
  - intros a. apply apply_all_lookup, with_rule_enabled_idemp.
Qed.

Lemma Link_disable_update_disables_witness :
  ∃ h', Link_disable_update 2 3 demo_heap = (Ok tt, h') ∧
    Link_update_enabled 2 3 h' = (Ok false, h') ∧
    params 2 3 true h' = (Ok [1], h') ∧
    ∀ a, h' !! a
         = match demo_heap !! a with
           | Some (OParam po) =>
               Some (OParam (if decide (a ∈ [1]) then with_rule_enabled false po
                             else po))
           | o => o
           end.
Proof.
  apply (Link_disable_update_disables 2 3 demo_heap [1]).
  vm_compute. reflexivity.
Defined.

(** X10. After [enable_update] on a hierarchy whose traversal succeeds,
    [update_enabled] is [True] exactly when some parameter under the
    hierarchy has an update rule at all: parameters without a rule are
    passed over. *)
Theorem Link_enable_update_enables fuel self h ps :
  params fuel self true h = (Ok ps, h) →
  ∃ h' b, Link_enable_update fuel self h = (Ok tt, h') ∧
    Link_update_enabled fuel self h' = (Ok b, h') ∧
    (b = true ↔ ∃ p po, p ∈ ps ∧ h !! p = Some (OParam po) ∧
                        is_Some (p_update_rule po)).
Proof.
  intros E. set (f := with_rule_enabled true).
  assert (Ht : ∀ p h, tweaks h (alter_param f h p)).
  { intros p h0. apply alter_param_tweaks, with_rule_enabled_data. }
  pose proof (params_for_spec _ _ _ fuel self h ps Ht
                (set_rule_enabled_body_run true) E) as R.
  rewrite run_visit_map in R. cbn in R.
  assert (E' : params fuel self true (apply_all f ps h) = (Ok ps, apply_all f ps h)).
  { apply (reads_only_transfer _ h); [apply reads_only_params| |done].
    pose proof (run_visit_tweaks (λ _ _, @None unit) _ ps h Ht) as Htw.
    by rewrite run_visit_map in Htw. }
  destruct (Link_update_enabled_run _ _ _ _ E') as (b & Rb & Hb).
  exists (apply_all f ps h), b. split; [|split; [done|]].
  - unfold Link_enable_update. by rewrite (bind_run _ _ _ _ _ R).
  - rewrite Hb. split.
    + intros (p & po & Hp & Hhp & Hrule).
      rewrite (apply_all_lookup _ _ _ _ (with_rule_enabled_idemp true)) in Hhp.
      destruct (h !! p) as [[x|qo|l]|] eqn:Hq; try done.
      rewrite decide_True in Hhp by done. injection Hhp as <-.
      exists p, qo. split; [done|]. split; [done|].
      unfold f, with_rule_enabled in Hrule.
      destruct (p_update_rule qo) eqn:Hqr; [by eexists|congruence].
    + intros (p & po & Hp & Hhp & [r Hrule]).
      exists p, (f po). split; [done|]. split.
      * rewrite (apply_all_lookup _ _ _ _ (with_rule_enabled_idemp true)), Hhp.
        by rewrite decide_True by done.
      * unfold f, with_rule_enabled. by rewrite Hrule.
Qed.

Lemma Link_enable_update_enables_witness :
  ∃ h' b, Link_enable_update 2 3 demo_heap = (Ok tt, h') ∧
    Link_update_enabled 2 3 h' = (Ok b, h') ∧
    (b = true ↔ ∃ p po, p ∈ [1] ∧ demo_heap !! p = Some (OParam po) ∧
                        is_Some (p_update_rule po)).
Proof.
  apply (Link_enable_update_enables 2 3 demo_heap [1]).
  vm_compute. reflexivity.
Defined.

(** X8. After [cleargrads] on a hierarchy whose traversal succeeds, every
    parameter that [params] lists has no gradient, and nothing else has
    changed: values, names and update rules, the other parameters and the
    links are as before. *)
Theorem Link_cleargrads_clears fuel self h ps :
  params fuel self true h = (Ok ps, h) →
  ∃ h', Link_cleargrads fuel self h = (Ok tt, h') ∧
    params fuel self true h' = (Ok ps, h') ∧
    ∀ a, h' !! a
         = match h !! a with
           | Some (OParam po) =>
               Some (OParam (if decide (a ∈ ps) then set_p_grad None po else po))
           | o => o
           end.
Proof.
  intros E. set (f := set_p_grad None).
  assert (Ht : ∀ p h, tweaks h (alter_param f h p)).
  { intros p h0. by apply alter_param_tweaks. }
  pose proof (params_for_spec _ _ _ fuel self h ps Ht
                (update_body_run f) E) as R.
  rewrite run_visit_map in R. cbn in R.
  exists (apply_all f ps h). split; [|split].
  - unfold Link_cleargrads, Parameter_set_grad. by rewrite (bind_run _ _ _ _ _ R).
  - apply (reads_only_transfer _ h); [apply reads_only_params| |done].
    pose proof (run_visit_tweaks (λ _ _, @None unit) _ ps h Ht) as Htw.
    by rewrite run_visit_map in Htw.
  - intros a. by apply apply_all_lookup.
Qed.

Lemma Link_cleargrads_clears_witness :
  ∃ h', Link_cleargrads 2 3 demo_heap = (Ok tt, h') ∧
    params 2 3 true h' = (Ok [1], h') ∧
    ∀ a, h' !! a
         = match demo_heap !! a with
           | Some (OParam po) =>
               Some (OParam (if decide (a ∈ [1]) then set_p_grad None po else po))
           | o => o
           end.
Proof.
  apply (Link_cleargrads_clears 2 3 demo_heap [1]).
  vm_compute. reflexivity.
Defined.

(** ** Layers by type name *)

Lemma layer_type_name_run h v nm :
  type_name_of h v = Some nm → layer_type_name v h = (Ok nm, h).
Proof.
  unfold type_name_of, layer_type_name. destruct v as [| | | | |f|a]; try done.
  - intros ->. done.
  - destruct (h !! a) as [[x|p|l]|] eqn:Ha; try done. intros [= <-].
    rewrite (bind_run _ _ _ _ _ (is_Link_run _ _ _ Ha)).
    by rewrite (bind_run _ _ _ _ _ (get_link_run _ _ _ Ha)).
Qed.

Lemma evolves_type_name_of self h h' v :
  evolves self h h' → type_name_of h' v = type_name_of h v.
Proof.
  intros [L E]. destruct v as [| | | | | |a]; try done. cbn.
  destruct (h !! a) as [o|] eqn:Ho.
  - destruct (E a o Ho) as (o' & -> & A).
    destruct o as [x|p|l], o' as [x'|p'|l']; cbn in A; try done; try congruence.
    destruct (bool_decide _); rewrite A; by destruct l.
  - apply lookup_ge_None in Ho.
    assert (h' !! a = None) as -> by (apply lookup_ge_None; lia). done.
Qed.

Lemma layer_type_names_run h ls :
  Forall (λ v, is_Some (type_name_of h v)) ls →
  ∃ names, layer_type_names ls h = (Ok names, h) ∧ names.*2 = ls ∧
    Forall (λ e, type_name_of h e.2 = Some e.1) names.
Proof.
  induction 1 as [|v ls [nm Hv] _ (names & R & Hsnd & Hall)].
  - by exists [].
  - exists ((nm, v) :: names). split; [|split].
    + cbn [layer_type_names].
      rewrite (bind_run _ _ _ _ _ (layer_type_name_run _ _ _ Hv)).
      by rewrite (bind_run _ _ _ _ _ R).
    + cbn. by rewrite Hsnd.
    + by constructor.
Qed.

Lemma type_name_layer_eq_refl h v :
  is_Some (type_name_of h v) → layer_eq v v = true.
Proof.
  destruct v as [| | | | |f|a]; cbn; try (by intros [? ?]);
    intros _; by apply bool_decide_eq_true.
Qed.

Lemma Sequential_remove_by_layer_type_loop self t h ch kept names n :
  Sequential_at h self ch (kept ++ names.*2) n →
  Forall (λ e, type_name_of h e.2 = Some e.1) names →
  (∀ v, v ∈ kept → type_name_of h v ≠ Some t) →
  (∀ v w, v ∈ kept ++ names.*2 → w ∈ kept ++ names.*2 →
          layer_eq v w = true → v = w) →
  ∃ h' ch' n',
    for_each names (λ entry,
      if bool_decide (t = entry.1) then Sequential_remove self entry.2
      else ret tt) h = (Ok tt, h') ∧
    Sequential_at h' self ch'
      (kept ++ filter (λ v, type_name_of h v ≠ Some t) names.*2) n' ∧
    evolves self h h'.
Proof.
  revert h ch kept n. induction names as [|[nm v] names IH];
    intros h ch kept n Hat Hnm Hkept Hid.
  - exists h, ch, n. split; [done|]. split; [done|apply evolves_refl].
  - apply Forall_cons in Hnm as [Hv Hnm]. cbn [fst snd] in Hv.
    cbn [for_each fmap list_fmap fst snd] in *.
    case_bool_decide as Ht.
    + subst nm.
      assert (Hp : (kept ++ v :: names.*2) !! length kept = Some v)
        by (by rewrite list_lookup_middle).
      destruct (Sequential_remove_spec h self ch _ n v (length kept) v Hat Hp)
        as (_ & h1 & ch1 & n1 & R1 & Hat1 & E1).
      { apply (type_name_layer_eq_refl h). rewrite Hv. by eexists. }
      { intros q e' Hq He'. rewrite lookup_app_l in He' by done.
        apply list_elem_of_lookup_2 in He'.
        destruct (layer_eq e' v) eqn:Heq; [|done]. exfalso.
        apply (Hkept e' He'). rewrite (Hid e' v); [done| | |done]; set_solver. }
      rewrite (bind_run _ _ _ _ _ R1).
      assert (Hdel : delete (length kept) (kept ++ v :: names.*2) = kept ++ names.*2).
      { apply delete_middle. }
      rewrite Hdel in Hat1.
      destruct (IH h1 ch1 kept n1 Hat1) as (h2 & ch2 & n2 & R2 & Hat2 & E2).
      * eapply Forall_impl; [exact Hnm|]. intros e He. cbn in He |- *.
        by rewrite (evolves_type_name_of _ _ _ _ E1).
      * intros w Hw. rewrite (evolves_type_name_of _ _ _ _ E1). by apply Hkept.
      * intros w1 w2 Hw1 Hw2. apply Hid; set_solver.
      * exists h2, ch2, n2. split; [done|]. split; [|by eapply evolves_trans].
        rewrite filter_cons_False by (by intros Hn; apply Hn).
        erewrite list_filter_iff in Hat2; [exact Hat2|].
        intros w. by rewrite (evolves_type_name_of _ _ _ _ E1).
    + unfold ret at 1. unfold bind at 1.
      destruct (IH h ch (kept ++ [v]) n) as (h2 & ch2 & n2 & R2 & Hat2 & E2).
      * by rewrite <-app_assoc.
      * done.
      * intros w [Hw| ->%list_elem_of_singleton]%elem_of_app; [by apply Hkept|].
        rewrite Hv. congruence.
      * intros w1 w2 Hw1 Hw2. rewrite <-app_assoc in Hw1, Hw2. by apply Hid.
      * exists h2, ch2, n2. split; [done|]. split; [|done].
        rewrite filter_cons_True by (rewrite Hv; congruence).
        by rewrite <-app_assoc in Hat2.
Qed.

Lemma Sequential_count_by_layer_type_loop_run h ls t num :
  Forall (λ v, ∃ nm, type_name_of h v = Some nm ∧ nm ≠ t) ls →
  Sequential_count_by_layer_type_loop ls t num h = (Ok num, h).
Proof.
  induction 1 as [|v ls (nm & Hv & Hne) _ IH]; [done|].
  cbn [Sequential_count_by_layer_type_loop].
  rewrite (bind_run _ _ _ _ _ (layer_type_name_run _ _ _ Hv)).
  by rewrite bool_decide_eq_false_2.
Qed.

(** X22. [remove_by_layer_type(t)] on a Sequential whose layers all have a
    type name (Links, and functions with a [__name__]) and are pairwise
    the same object or not equal: the layers of type [t] are removed, all
    of them and no other, the remaining layers keep their order, and
    [count_by_layer_type(t)] is [0] afterwards. *)
Theorem Sequential_remove_by_layer_type_removes_all h self ch ls n t :
  Sequential_at h self ch ls n →
  Forall (λ v, is_Some (type_name_of h v)) ls →
  (∀ v w, v ∈ ls → w ∈ ls → layer_eq v w = true → v = w) →
  ∃ h', Sequential_remove_by_layer_type self t h = (Ok tt, h') ∧
    Sequential_layers self h'
    = (Ok (filter (λ v, type_name_of h v ≠ Some t) ls), h') ∧
    Sequential_count_by_layer_type self t h' = (Ok 0, h').
Proof.
  intros Hat Hnamed Hid.
  destruct (layer_type_names_run h ls Hnamed) as (names & Rn & Hsnd & Hall).
  destruct (Sequential_remove_by_layer_type_loop self t h ch [] names n)
    as (h' & ch' & n' & R & Hat' & E).
  { by rewrite Hsnd. }
  { done. }
  { by intros v ?%elem_of_nil. }
  { rewrite Hsnd. cbn. apply Hid. }
  rewrite Hsnd in Hat'. cbn [app] in Hat'.
  exists h'. split; [|split].
  - unfold Sequential_remove_by_layer_type.
    rewrite (bind_run _ _ _ _ _ (Sequential_at_layers _ _ _ _ _ Hat)).
    by rewrite (bind_run _ _ _ _ _ Rn).
  - by eapply Sequential_at_layers.
  - unfold Sequential_count_by_layer_type.
    rewrite (bind_run _ _ _ _ _ (Sequential_at_layers _ _ _ _ _ Hat')).
    apply Sequential_count_by_layer_type_loop_run.
    apply Forall_forall. intros v [Hv Hin]%list_elem_of_filter.
    rewrite (evolves_type_name_of _ _ _ _ E).
    destruct (proj1 (Forall_forall _ _) Hnamed v Hin) as [nm Hnm].
    exists nm. split; [done|]. intros ->. by apply Hv.
Qed.

Lemma Sequential_remove_by_layer_type_removes_all_witness :
  ∃ h', Sequential_remove_by_layer_type 0 "succ"
          [OLink (demo_sequential [succ_fn; dup_fn; succ_fn])] = (Ok tt, h') ∧
    Sequential_layers 0 h'
    = (Ok (filter (λ v, type_name_of
                          [OLink (demo_sequential [succ_fn; dup_fn; succ_fn])] v
                        ≠ Some "succ")
             [succ_fn; dup_fn; succ_fn]), h') ∧
    Sequential_count_by_layer_type 0 "succ" h' = (Ok 0, h').
Proof.
  apply (Sequential_remove_by_layer_type_removes_all
           [OLink (demo_sequential [succ_fn; dup_fn; succ_fn])] 0 []
           [succ_fn; dup_fn; succ_fn] 0 "succ").
  - eexists. split; reflexivity.
  - repeat constructor; by eexists.
  - intros v w Hv Hw.
    repeat (apply elem_of_cons in Hv as [->|Hv]);
      try (by apply elem_of_nil in Hv);
      repeat (apply elem_of_cons in Hw as [->|Hw]);
      try (by apply elem_of_nil in Hw); done.
Defined.

(** ** The copy of a ChainList *)

Lemma params_registered_prefix (h H : heap) l :
  h `prefix_of` H → params_registered h l → params_registered H l.
Proof.
  intros Hpre Hreg nm Hnm. destruct (Hreg nm Hnm) as (a & p & Ha & Hp).
  exists a, p. split; [done|]. by eapply prefix_lookup_Some.
Qed.

Lemma ChainList_children_run' (H : heap) R lr chs :
  H !! R = Some (OLink lr) → ext lr = KChainList chs →
  ChainList_children R H = (Ok chs, H).
Proof.
  intros HR Hk. unfold ChainList_children.
  rewrite (bind_run _ _ _ _ _ (get_link_run _ _ _ HR)). by rewrite Hk.
Qed.

Lemma ChainList_copy_loop_spec fuel (h0 : heap) ret_ todo :
  ∀ done_ (H : heap) lr,
    h0 `prefix_of` H → length h0 ≤ ret_ →
    H !! ret_ = Some (OLink lr) → ext lr = KChainList (done_ ++ todo) →
    (∀ c, c ∈ todo → ∃ lc, h0 !! c = Some (OLink lc) ∧ ext lc = KLink ∧
                           params_registered h0 lc) →
    ∃ H' new,
      ChainList_copy_loop (copy (S fuel)) ret_ (length done_) todo H = (Ok tt, H') ∧
      h0 `prefix_of` H' ∧ length H ≤ length H' ∧
      H' !! ret_ = Some (OLink (set_ext (KChainList (done_ ++ new)) lr)) ∧
      (∀ x, x < length H → x ≠ ret_ → H' !! x = H !! x) ∧
      length new = length todo ∧
      ∀ j c c', todo !! j = Some c → new !! j = Some c' →
        length h0 ≤ c' ∧ c' ≠ ret_ ∧
        ∃ lc lc', h0 !! c = Some (OLink lc) ∧ H' !! c' = Some (OLink lc') ∧
                  cls lc' = cls lc ∧ _params lc' = _params lc ∧
                  name lc' = Some (str (length done_ + j)).
Proof.
  induction todo as [|c todo IH]; intros done_ H lr Hpre Hret Hlr Hk Hch.
  - exists H, []. rewrite app_nil_r in Hk |- *.
    split; [done|]. split; [done|]. split; [done|]. split.
    { rewrite Hlr. do 2 f_equal. rewrite <-Hk. by destruct lr. }
    split; [done|]. split; [done|]. by intros j c c' ?.
  - destruct (Hch c) as (lc & Hc0 & Hkc & Hregc); [left|].
    pose proof (prefix_lookup_Some _ _ _ _ Hc0 Hpre) as Hc.
    pose proof (lookup_lt_Some _ _ _ Hlr) as Hretlt.
    destruct (Link_copy_spec H c lc Hc) as (l' & H1 & R1 & Hpre1 & Hl' & Hcls & Hname
                                             & Hpar & _).
    { intros ? ? ? E. rewrite Hkc in E. discriminate. }
    { by eapply params_registered_prefix. }
    assert (Rcopy : copy (S fuel) c H = (Ok (length H), H1)).
    { cbn [copy]. by rewrite (bind_run _ _ _ _ _ (get_link_run _ _ _ Hc)), Hkc. }
    set (i := length done_).
    set (H2 := <[length H := OLink (set_name (Some (str i)) l')]> H1).
    assert (Hlr1 : H1 !! ret_ = Some (OLink lr)) by (by eapply prefix_lookup_Some).
    assert (Hlr2 : H2 !! ret_ = Some (OLink lr)).
    { unfold H2. rewrite list_lookup_insert_ne by lia. done. }
    set (lr3 := set_ext (KChainList ((done_ ++ [length H]) ++ todo)) lr).
    set (H3 := <[ret_ := OLink lr3]> H2).
    assert (Hlen1 : length H ≤ length H1) by (by apply prefix_length).
    pose proof (lookup_lt_Some _ _ _ Hl') as Hlt1.
    assert (Hlen3 : length H3 = length H1).
    { unfold H3, H2. by rewrite !length_insert. }
    assert (Rset : ChainList_set_children ret_ (λ ch, <[i := length H]> ch) H2
                   = (Ok tt, H3)).
    { unfold ChainList_set_children.
      rewrite (bind_run _ _ _ _ _ (ChainList_children_run' _ _ _ _ Hlr2 Hk)).
      rewrite (update_link_run _ _ _ _ Hlr2). rewrite Hk. cbn [with_children].
      unfold i. rewrite insert_middle. unfold H3, lr3.
      by rewrite <-app_assoc. }
    destruct (IH (done_ ++ [length H]) H3 lr3) as (H' & new & R & Hpre' & Hlen' & Hlr'
                                                    & Hframe & Hnewlen & Hnew).
    { unfold H3, H2. apply prefix_insert_ge; [|done].
      apply prefix_insert_ge; [|by apply prefix_length in Hpre].
      by etransitivity. }
    { done. }
    { by eapply lookup_updated. }
    { done. }
    { intros c' Hc'. apply Hch. by right. }
    exists H', (length H :: new).
    split; [|split; [done|split; [lia|split; [|split; [|split]]]]].
    + cbn [ChainList_copy_loop]. rewrite (bind_run _ _ _ _ _ Rcopy).
      rewrite (bind_run _ _ _ _ _ (update_link_run _ _ _ _ Hl')). fold i H2.
      rewrite (bind_run _ _ _ _ _ Rset).
      rewrite length_app in R. cbn in R. by rewrite Nat.add_1_r in R.
    + rewrite Hlr'. unfold lr3. rewrite <-app_assoc. cbn. by destruct lr.
    + intros x Hx Hxr. rewrite Hframe by (done || lia).
      unfold H3, H2. rewrite !list_lookup_insert_ne by lia.
      destruct Hpre1 as [k ->]. by rewrite lookup_app_l.
    + cbn. by rewrite Hnewlen.
    + intros [|j] c0 c' Hc0' Hc'; cbn in Hc0', Hc'.
      * injection Hc0' as <-. injection Hc' as <-.
        split; [by apply prefix_length in Hpre|]. split; [lia|].
        exists lc, (set_name (Some (str i)) l'). split; [done|]. split.
        -- rewrite Hframe by lia. unfold H3. rewrite list_lookup_insert_ne by lia.
           unfold H2. apply list_lookup_insert_eq. by eapply lookup_lt_Some.
        -- split; [done|]. split; [done|]. cbn. by rewrite Nat.add_0_r.
      * destruct (Hnew j c0 c' Hc0' Hc') as (Hge & Hne & lc0 & lc' & E1 & E2 & E3 & E4 & E5).
        split; [done|]. split; [done|]. exists lc0, lc'.
        repeat (split; [done|]). rewrite E5. do 2 f_equal.
        rewrite length_app. cbn. lia.
Qed.

(** X28. [copy] of a ChainList whose children are Links without children of
    their own: the result is a new ChainList with as many children, the
    i-th of them a new Link of the class and with the parameter names of
    the i-th child of the original and called [str(i)]; no object that
    existed before is changed, so the original keeps its children and
    these keep their names. *)
Theorem ChainList_copy_copies_children fuel (h : heap) self l chs :
  h !! self = Some (OLink l) → ext l = KChainList chs → params_registered h l →
  (∀ c, c ∈ chs → ∃ lc, h !! c = Some (OLink lc) ∧ ext lc = KLink ∧
                        params_registered h lc) →
  ∃ h' cs,
    copy (S (S fuel)) self h = (Ok (length h), h') ∧ h `prefix_of` h' ∧
    ChainList_children (length h) h' = (Ok cs, h') ∧ length cs = length chs ∧
    ∀ j c c', chs !! j = Some c → cs !! j = Some c' →
      length h < c' ∧ name_of h' c' = Some (str j) ∧
      ∃ lc lc', h !! c = Some (OLink lc) ∧ h' !! c' = Some (OLink lc') ∧
                cls lc' = cls lc ∧ _params lc' = _params lc.
Proof.
  intros Hl Hk Hreg Hch.
  destruct (Link_copy_spec h self l Hl) as (l' & H1 & R1 & Hpre1 & Hl' & _ & _ & _ & _
                                            & _ & _ & Hext & _).
  { intros ? ? ? E. rewrite Hk in E. discriminate. }
  { done. }
  rewrite Hk in Hext.
  destruct (ChainList_copy_loop_spec fuel h (length h) chs [] H1 l' Hpre1 (le_n _)
              Hl' Hext Hch)
    as (H' & new & R & Hpre' & Hlen' & Hlr' & Hframe & Hnewlen & Hnew).
  exists H', new. split; [|split; [done|split; [|split; [done|]]]].
  - cbn [copy]. rewrite (bind_run _ _ _ _ _ (get_link_run _ _ _ Hl)), Hk.
    unfold ChainList_copy. rewrite (bind_run _ _ _ _ _ R1).
    rewrite (bind_run _ _ _ _ _ (ChainList_children_run' _ _ _ _ Hl' Hext)).
    cbn [length] in R. by rewrite (bind_run _ _ _ _ _ R).
  - by eapply ChainList_children_run'.
  - intros j c c' Hc Hc'.
    destruct (Hnew j c c' Hc Hc') as (Hge & Hne & lc & lc' & E1 & E2 & E3 & E4 & E5).
    split; [lia|]. split.
    + unfold name_of. by rewrite E2.
    + by exists lc, lc'.
Qed.

Lemma ChainList_copy_copies_children_witness :
  ∃ h' cs,
    copy (S (S 0)) 1
      [OLink (demo_link Linear_class KLink ∅);
       OLink (demo_link ChainList_class (KChainList [0]) ∅)]
    = (Ok (length [OLink (demo_link Linear_class KLink ∅);
                   OLink (demo_link ChainList_class (KChainList [0]) ∅)]), h') ∧
    [OLink (demo_link Linear_class KLink ∅);
     OLink (demo_link ChainList_class (KChainList [0]) ∅)] `prefix_of` h' ∧
    ChainList_children
      (length [OLink (demo_link Linear_class KLink ∅);
               OLink (demo_link ChainList_class (KChainList [0]) ∅)]) h'
    = (Ok cs, h') ∧ length cs = length [0] ∧
    ∀ j c c', [0] !! j = Some c → cs !! j = Some c' →
      length [OLink (demo_link Linear_class KLink ∅);
              OLink (demo_link ChainList_class (KChainList [0]) ∅)] < c' ∧
      name_of h' c' = Some (str j) ∧
      ∃ lc lc',
        [OLink (demo_link Linear_class KLink ∅);
         OLink (demo_link ChainList_class (KChainList [0]) ∅)] !! c
        = Some (OLink lc) ∧
        h' !! c' = Some (OLink lc') ∧ cls lc' = cls lc ∧ _params lc' = _params lc.
Proof.
  apply (ChainList_copy_copies_children 0
           [OLink (demo_link Linear_class KLink ∅);
            OLink (demo_link ChainList_class (KChainList [0]) ∅)] 1
           (demo_link ChainList_class (KChainList [0]) ∅) [0]).
  - reflexivity.
  - reflexivity.
  - intros nm Hnm. by apply elem_of_empty in Hnm.
  - intros c ->%list_elem_of_singleton. eexists. split; [reflexivity|].
    split; [reflexivity|]. intros nm Hnm. by apply elem_of_empty in Hnm.
Defined.
